(** * music-viz1: the audio analysis core

    A shallow embedding of [AudioAnalyzer] and of the frequency band table
    ([FrequencyBands], [VisualizerGroups], [getBinRange],
    [calculateAllBinRanges]), and the properties of bin mapping, band energy
    extraction, smoothing and peak detection.

    JavaScript numbers are IEEE 754 binary64 values.  The program text is
    embedded once, over an interface [JSNumber] of the arithmetic it uses,
    and read in two ways:
    - [binary64]: Rocq's primitive floats, bit for bit the arithmetic of a
      JavaScript engine (round to nearest even, infinities, NaN);
    - [exact]: the rationals extended with the two infinities and NaN, the
      same special value rules with no rounding and no overflow.  It has a
      single zero, so it differs from binary64 where a negative zero is
      divided by; no statement below depends on such a division.

    [exact] is an idealisation, not the arithmetic the program runs on.  A
    statement over [exact] gives the value a formula has before rounding;
    the program's value is that value up to the rounding errors of the
    operations involved.  What a rounding error can change (which integer
    a floor returns, whether a comparison holds, whether two computed
    values are equal) is therefore stated over [binary64] or over every
    arithmetic: [getBinRange_binary64_rounding] shows a floor and a
    ceiling that differ between the two readings, and
    [flat_spectrum_binary64] an equality of rationals that the computed
    values miss by one unit in the last place.  Over [exact] are stated
    bounds, tolerances, the propagation of NaN and that a call returns,
    with runs in [binary64] beside them. *)

From Stdlib Require Import ZArith QArith Qround Qabs Qpower Floats Lia Lqa Ascii.
From stdpp Require Import gmap strings list functions pretty.

Local Open Scope Z_scope.

(** ** Integer valued numbers

    [Math.floor] and [Math.ceil] return a number that is an integer, an
    infinity or NaN.  Loop counters started from such a number are advanced
    in [Z]; binary64 increments are exact below 2^53. *)

Inductive jsint : Type :=
| Int (z : Z)
| PInf
| NInf
| NaN.

(** [i < e] for an integer counter [i] and a bound [e]. *)
Definition int_lt (i : Z) (e : jsint) : bool :=
  match e with
  | Int z => i <? z
  | PInf => true
  | NInf | NaN => false
  end.

(** ** The arithmetic interface *)

Class JSNumber (N : Type) := {
  num_of_Z : Z -> N;                 (* an integer literal or array element *)
  num_lit : Z -> positive -> N;      (* the decimal literal n/d *)
  num_nan : N;                       (* [undefined] used as a number *)
  num_of_jsint : jsint -> N;
  num_add : N -> N -> N;
  num_sub : N -> N -> N;
  num_mul : N -> N -> N;
  num_div : N -> N -> N;
  num_lt : N -> N -> bool;
  num_floor : N -> jsint;            (* Math.floor *)
  num_ceil : N -> jsint;             (* Math.ceil *)
  num_fround : N -> N                (* a store into a Float32Array *)
}.

Definition num_gt {N} `{JSNumber N} (x y : N) : bool := num_lt y x.

Declare Scope js_scope.
Delimit Scope js_scope with js.
Infix "+" := num_add : js_scope.
Infix "-" := num_sub : js_scope.
Infix "*" := num_mul : js_scope.
Infix "/" := num_div : js_scope.
Infix "<?" := num_lt : js_scope.
Infix ">?" := num_gt : js_scope.

(** ** binary64 *)

Module Binary64.

(** The integer below a finite float, from its mantissa and exponent. *)
Definition floorZ (s : bool) (m : positive) (e : Z) : Z :=
  let v := if s then Z.neg m else Z.pos m in
  if 0 <=? e then Z.shiftl v e else Z.shiftr v (- e).

Definition floor (x : float) : jsint :=
  match Prim2SF x with
  | S754_zero _ => Int 0
  | S754_infinity false => PInf
  | S754_infinity true => NInf
  | S754_nan => NaN
  | S754_finite s m e => Int (floorZ s m e)
  end.

Definition ceil (x : float) : jsint :=
  match floor (PrimFloat.opp x) with
  | Int z => Int (- z)
  | PInf => NInf
  | NInf => PInf
  | NaN => NaN
  end.

(** The nearest float to an integer. *)
Definition of_Z (z : Z) : float :=
  SF2Prim (binary_normalize prec emax z 0 false).

Definition of_jsint (i : jsint) : float :=
  match i with
  | Int z => of_Z z
  | PInf => infinity
  | NInf => neg_infinity
  | NaN => nan
  end.

(** The nearest float to [n/d]: both are small integers in the program,
    so they convert exactly and the division rounds once. *)
Definition lit (n : Z) (d : positive) : float :=
  PrimFloat.div (of_Z n) (of_Z (Z.pos d)).

(** Rounding to binary32 (24 bits of precision, exponents up to 128);
    every binary32 value is a binary64 value. *)
Definition fround (x : float) : float :=
  match Prim2SF x with
  | S754_finite s m e =>
      SF2Prim (binary_normalize 24 128 (if s then Z.neg m else Z.pos m) e s)
  | _ => x
  end.

End Binary64.

#[export] Instance binary64 : JSNumber float := {
  num_of_Z := Binary64.of_Z;
  num_lit := Binary64.lit;
  num_nan := nan;
  num_of_jsint := Binary64.of_jsint;
  num_add := PrimFloat.add;
  num_sub := PrimFloat.sub;
  num_mul := PrimFloat.mul;
  num_div := PrimFloat.div;
  num_lt := PrimFloat.ltb;
  num_floor := Binary64.floor;
  num_ceil := Binary64.ceil;
  num_fround := Binary64.fround
}.

(** ** Exact arithmetic *)

Inductive xQ : Type :=
| Fin (q : Q)
| PosInf
| NegInf
| NotANumber.

Module Exact.

Definition is_zero (x : xQ) : bool :=
  match x with Fin q => Qnum q =? 0 | _ => false end.

Definition is_neg (x : xQ) : bool :=
  match x with Fin q => Qnum q <? 0 | NegInf => true | _ => false end.

Definition signed_inf (neg : bool) : xQ := if neg then NegInf else PosInf.

Definition opp (x : xQ) : xQ :=
  match x with
  | Fin q => Fin (- q)
  | PosInf => NegInf
  | NegInf => PosInf
  | NotANumber => NotANumber
  end.

Definition add (x y : xQ) : xQ :=
  match x, y with
  | NotANumber, _ | _, NotANumber => NotANumber
  | Fin a, Fin b => Fin (a + b)
  | PosInf, NegInf | NegInf, PosInf => NotANumber
  | PosInf, _ | _, PosInf => PosInf
  | NegInf, _ | _, NegInf => NegInf
  end.

Definition sub (x y : xQ) : xQ :=
  match x, y with
  | Fin a, Fin b => Fin (a - b)
  | _, _ => add x (opp y)
  end.

Definition mul (x y : xQ) : xQ :=
  match x, y with
  | NotANumber, _ | _, NotANumber => NotANumber
  | Fin a, Fin b => Fin (a * b)
  | _, _ =>
      if is_zero x || is_zero y then NotANumber
      else signed_inf (xorb (is_neg x) (is_neg y))
  end.

Definition div (x y : xQ) : xQ :=
  match x, y with
  | NotANumber, _ | _, NotANumber => NotANumber
  | Fin a, Fin b =>
      if is_zero y
      then (if is_zero x then NotANumber else signed_inf (is_neg x))
      else Fin (a / b)
  | Fin _, _ => Fin 0
  | _, Fin _ => signed_inf (xorb (is_neg x) (is_neg y))
  | _, _ => NotANumber
  end.

Definition ltb (x y : xQ) : bool :=
  match x, y with
  | NotANumber, _ | _, NotANumber => false
  | Fin a, Fin b => negb (Qle_bool b a)
  | NegInf, NegInf | PosInf, _ | _, NegInf => false
  | _, _ => true
  end.

Definition floor (x : xQ) : jsint :=
  match x with
  | Fin q => Int (Qfloor q)
  | PosInf => PInf
  | NegInf => NInf
  | NotANumber => NaN
  end.

Definition ceil (x : xQ) : jsint :=
  match x with
  | Fin q => Int (Qceiling q)
  | PosInf => PInf
  | NegInf => NInf
  | NotANumber => NaN
  end.

Definition of_jsint (i : jsint) : xQ :=
  match i with
  | Int z => Fin (inject_Z z)
  | PInf => PosInf
  | NInf => NegInf
  | NaN => NotANumber
  end.

End Exact.

#[export] Instance exact : JSNumber xQ := {
  num_of_Z := fun z => Fin (inject_Z z);
  num_lit := fun n d => Fin (n # d);
  num_nan := NotANumber;
  num_of_jsint := Exact.of_jsint;
  num_add := Exact.add;
  num_sub := Exact.sub;
  num_mul := Exact.mul;
  num_div := Exact.div;
  num_lt := Exact.ltb;
  num_floor := Exact.floor;
  num_ceil := Exact.ceil;
  num_fround := fun x => x
}.

(** ** The band table (FrequencyBands, VisualizerGroups) *)

Record Color := { r : Z; g : Z; b : Z }.

Record Band (N : Type) := {
  name : string;
  min : N;
  max : N;
  color : Color
}.
Arguments name {N}.
Arguments min {N}.
Arguments max {N}.
Arguments color {N}.

Record BinRange := { start : jsint; end_ : jsint }.

Record Group (N : Type) := {
  group_name : string;
  bands : list string;
  weights : list N;
  primaryColor : Color;
  accentColor : Color
}.
Arguments group_name {N}.
Arguments bands {N}.
Arguments weights {N}.
Arguments primaryColor {N}.
Arguments accentColor {N}.

Section BandTable.
Context {N : Type} `{JSNumber N}.

Definition band (nm : string) (lo hi : Z) (cr cg cb : Z) : Band N :=
  {| name := nm; min := num_of_Z lo; max := num_of_Z hi;
     color := {| r := cr; g := cg; b := cb |} |}.

(** The entries of [FrequencyBands], in the order [Object.entries] lists
    them. *)
Definition FrequencyBands : list (string * Band N) :=
  [ ("SUB_BASS", band "Sub Bass" 20 60 128 0 255);
    ("BASS", band "Bass" 60 250 255 0 100);
    ("DRUMS_LOW", band "Drums Low" 60 200 255 50 50);
    ("DRUMS_MID", band "Drums Mid" 200 2000 255 100 50);
    ("DRUMS_HIGH", band "Drums High" 2000 8000 255 200 50);
    ("VOCALS_LOW", band "Vocals Low" 80 300 50 200 255);
    ("VOCALS_MID", band "Vocals Mid" 300 2000 100 150 255);
    ("VOCALS_HIGH", band "Vocals High" 2000 8000 150 100 255);
    ("INSTRUMENTS_LOW", band "Instruments Low" 80 400 50 255 100);
    ("INSTRUMENTS_MID", band "Instruments Mid" 400 2000 100 255 150);
    ("INSTRUMENTS_HIGH", band "Instruments High" 2000 6000 150 255 200);
    ("AIR", band "Air" 8000 20000 255 255 255) ]%string.

Definition DRUMS : Group N :=
  {| group_name := "Drums";
     bands := ["DRUMS_LOW"; "DRUMS_MID"; "DRUMS_HIGH"]%string;
     weights := [num_lit 5 10; num_lit 3 10; num_lit 2 10];
     primaryColor := {| r := 255; g := 80; b := 50 |};
     accentColor := {| r := 255; g := 150; b := 100 |} |}.

Definition VOCALS : Group N :=
  {| group_name := "Vocals";
     bands := ["VOCALS_LOW"; "VOCALS_MID"; "VOCALS_HIGH"]%string;
     weights := [num_lit 2 10; num_lit 5 10; num_lit 3 10];
     primaryColor := {| r := 100; g := 150; b := 255 |};
     accentColor := {| r := 180; g := 200; b := 255 |} |}.

Definition BASS : Group N :=
  {| group_name := "Bass";
     bands := ["SUB_BASS"; "BASS"]%string;
     weights := [num_lit 4 10; num_lit 6 10];
     primaryColor := {| r := 200; g := 0; b := 200 |};
     accentColor := {| r := 255; g := 100; b := 255 |} |}.

Definition HIGHS : Group N :=
  {| group_name := "Highs";
     bands := ["INSTRUMENTS_HIGH"; "AIR"]%string;
     weights := [num_lit 6 10; num_lit 4 10];
     primaryColor := {| r := 100; g := 255; b := 200 |};
     accentColor := {| r := 200; g := 255; b := 255 |} |}.

(** [getBinRange(band, sampleRate = 44100, fftSize = 1024)]: an argument
    left out is [None] and takes its default. *)
Definition getBinRange (band : Band N) (sampleRate fftSize : option N)
  : BinRange :=
  let sampleRate := default (num_of_Z 44100) sampleRate in
  let fftSize := default (num_of_Z 1024) fftSize in
  let binFrequency := (sampleRate / fftSize)%js in
  {| start := num_floor (min band / binFrequency)%js;
     end_ := num_ceil (max band / binFrequency)%js |}.

(** [calculateAllBinRanges(sampleRate = 44100, fftSize = 1024)]: the loop
    over the entries, each [ranges.set(name, ...)] an insertion. *)
Definition calculateAllBinRanges (sampleRate fftSize : option N)
  : gmap string BinRange :=
  let sampleRate := default (num_of_Z 44100) sampleRate in
  let fftSize := default (num_of_Z 1024) fftSize in
  fold_left
    (fun ranges '(name, band) =>
       <[name := getBinRange band (Some sampleRate) (Some fftSize)]> ranges)
    FrequencyBands ∅.

End BandTable.

(** ** Calls that may not return

    A call ends by returning a value, by throwing (a property read on
    [null]), or not at all (a loop whose counter cannot advance). *)

Inductive failure : Type :=
| TypeError
| Diverges.

Inductive result (A : Type) : Type :=
| Ok (a : A)
| Fail (f : failure).
Arguments Ok {A}.
Arguments Fail {A}.

Definition bind {A B} (m : result A) (k : A -> result B) : result B :=
  match m with
  | Ok a => k a
  | Fail f => Fail f
  end.

Notation "'let*' x := m 'in' k" := (bind m (fun x => k))
  (at level 10, x name, m at level 100, k at level 200).

(** ** The analyzer state *)

Inductive category : Type := drums | vocals | bass | highs.

#[export] Instance category_eq_dec : EqDecision category.
Proof. solve_decision. Defined.

Record PeakState (N : Type) := { value : N; isPeak : bool }.
Arguments value {N}.
Arguments isPeak {N}.

(** The shape of [energyCache.drums] and [energyCache.vocals]. *)
Record LowMidHigh (N : Type) := { low : N; mid : N; high : N; combined : N }.
Arguments low {N}.
Arguments mid {N}.
Arguments high {N}.
Arguments combined {N}.

(** The shape of [energyCache.bass]. *)
Record SubMain (N : Type) := { sub : N; main : N; bass_combined : N }.
Arguments sub {N}.
Arguments main {N}.
Arguments bass_combined {N}.

(** The shape of [energyCache.highs]. *)
Record InstrumentsAir (N : Type) :=
  { instruments : N; air : N; highs_combined : N }.
Arguments instruments {N}.
Arguments air {N}.
Arguments highs_combined {N}.

Record EnergyCache (N : Type) := {
  cache_drums : LowMidHigh N;
  cache_vocals : LowMidHigh N;
  cache_bass : SubMain N;
  cache_highs : InstrumentsAir N
}.
Arguments cache_drums {N}.
Arguments cache_vocals {N}.
Arguments cache_bass {N}.
Arguments cache_highs {N}.

(** [energyCache[cat].combined]. *)
Definition cache_combined {N} (c : EnergyCache N) (cat : category) : N :=
  match cat with
  | drums => combined (cache_drums c)
  | vocals => combined (cache_vocals c)
  | bass => bass_combined (cache_bass c)
  | highs => highs_combined (cache_highs c)
  end.

(** The two [Float32Array]s of [energyHistory]. *)
Record EnergyHistory (N : Type) := {
  history_drums : list N;
  history_bass : list N
}.
Arguments history_drums {N}.
Arguments history_bass {N}.

(** The fields of an [AudioAnalyzer].  [fft] and [mic] are objects of the
    sound library: only whether they are set matters here.  [smoothedEnergy]
    and [peaks] are objects keyed by the four category names. *)
Record AudioAnalyzer (N : Type) := {
  fftSize : N;
  smoothing : N;
  fft : bool;
  mic : bool;
  isInitialized : bool;
  isListening : bool;
  binRanges : option (gmap string BinRange);
  energyCache : EnergyCache N;
  smoothedEnergy : category -> N;
  peakThreshold : N;
  peakDecay : N;
  peaks : category -> PeakState N;
  historySize : Z;
  historyIndex : Z;
  energyHistory : EnergyHistory N
}.
Arguments fftSize {N}.
Arguments smoothing {N}.
Arguments fft {N}.
Arguments mic {N}.
Arguments isInitialized {N}.
Arguments isListening {N}.
Arguments binRanges {N}.
Arguments energyCache {N}.
Arguments smoothedEnergy {N}.
Arguments peakThreshold {N}.
Arguments peakDecay {N}.
Arguments peaks {N}.
Arguments historySize {N}.
Arguments historyIndex {N}.
Arguments energyHistory {N}.

(** What the sound library does when [init] runs: one of its three calls
    throws, or all succeed and the audio context reports a sample rate. *)
Inductive InitEnv (N : Type) : Type :=
| FFTThrows
| AudioInThrows
| AudioContextThrows
| Loaded (sampleRate : N).
Arguments FFTThrows {N}.
Arguments AudioInThrows {N}.
Arguments AudioContextThrows {N}.
Arguments Loaded {N}.

Section Analyzer.
Context {N : Type} `{JSNumber N}.

Definition zero : N := num_of_Z 0.
Definition one : N := num_of_Z 1.

(** [new AudioAnalyzer(fftSize = 1024, smoothing = 0.8)] *)
Definition new_AudioAnalyzer (fftSize smoothing : option N)
  : AudioAnalyzer N :=
  let historySize := 43 in
  {| fftSize := default (num_of_Z 1024) fftSize;
     smoothing := default (num_lit 8 10) smoothing;
     fft := false;
     mic := false;
     isInitialized := false;
     isListening := false;
     binRanges := None;
     energyCache :=
       {| cache_drums :=
            {| low := zero; mid := zero; high := zero; combined := zero |};
          cache_vocals :=
            {| low := zero; mid := zero; high := zero; combined := zero |};
          cache_bass :=
            {| sub := zero; main := zero; bass_combined := zero |};
          cache_highs :=
            {| instruments := zero; air := zero;
               highs_combined := zero |} |};
     smoothedEnergy := fun _ => zero;
     peakThreshold := num_lit 7 10;
     peakDecay := num_lit 95 100;
     peaks := fun _ => {| value := zero; isPeak := false |};
     historySize := historySize;
     historyIndex := 0;
     energyHistory :=
       {| history_drums := replicate (Z.to_nat historySize) zero;
          history_bass := replicate (Z.to_nat historySize) zero |} |}.

(** Field updates. *)
Definition set_devices (a : AudioAnalyzer N) (f m i : bool)
    (br : option (gmap string BinRange)) : AudioAnalyzer N :=
  {| fftSize := fftSize a; smoothing := smoothing a;
     fft := f; mic := m; isInitialized := i;
     isListening := isListening a; binRanges := br;
     energyCache := energyCache a; smoothedEnergy := smoothedEnergy a;
     peakThreshold := peakThreshold a; peakDecay := peakDecay a;
     peaks := peaks a; historySize := historySize a;
     historyIndex := historyIndex a; energyHistory := energyHistory a |}.

Definition set_isListening (a : AudioAnalyzer N) (l : bool)
  : AudioAnalyzer N :=
  {| fftSize := fftSize a; smoothing := smoothing a;
     fft := fft a; mic := mic a; isInitialized := isInitialized a;
     isListening := l; binRanges := binRanges a;
     energyCache := energyCache a; smoothedEnergy := smoothedEnergy a;
     peakThreshold := peakThreshold a; peakDecay := peakDecay a;
     peaks := peaks a; historySize := historySize a;
     historyIndex := historyIndex a; energyHistory := energyHistory a |}.

Definition set_energies (a : AudioAnalyzer N) (c : EnergyCache N)
    (s : category -> N) : AudioAnalyzer N :=
  {| fftSize := fftSize a; smoothing := smoothing a;
     fft := fft a; mic := mic a; isInitialized := isInitialized a;
     isListening := isListening a; binRanges := binRanges a;
     energyCache := c; smoothedEnergy := s;
     peakThreshold := peakThreshold a; peakDecay := peakDecay a;
     peaks := peaks a; historySize := historySize a;
     historyIndex := historyIndex a; energyHistory := energyHistory a |}.

Definition set_history (a : AudioAnalyzer N) (i : Z) (h : EnergyHistory N)
  : AudioAnalyzer N :=
  {| fftSize := fftSize a; smoothing := smoothing a;
     fft := fft a; mic := mic a; isInitialized := isInitialized a;
     isListening := isListening a; binRanges := binRanges a;
     energyCache := energyCache a; smoothedEnergy := smoothedEnergy a;
     peakThreshold := peakThreshold a; peakDecay := peakDecay a;
     peaks := peaks a; historySize := historySize a;
     historyIndex := i; energyHistory := h |}.

Definition set_peaks (a : AudioAnalyzer N) (p : category -> PeakState N)
  : AudioAnalyzer N :=
  {| fftSize := fftSize a; smoothing := smoothing a;
     fft := fft a; mic := mic a; isInitialized := isInitialized a;
     isListening := isListening a; binRanges := binRanges a;
     energyCache := energyCache a; smoothedEnergy := smoothedEnergy a;
     peakThreshold := peakThreshold a; peakDecay := peakDecay a;
     peaks := p; historySize := historySize a;
     historyIndex := historyIndex a; energyHistory := energyHistory a |}.

(** *** init, startListening, stopListening, dispose *)

Definition init (env : InitEnv N) (a : AudioAnalyzer N)
  : bool * AudioAnalyzer N :=
  if isInitialized a then (true, a)
  else
    match env with
    | FFTThrows => (false, a)
    | AudioInThrows =>
        (false, set_devices a true (mic a) (isInitialized a) (binRanges a))
    | AudioContextThrows =>
        (false, set_devices a true true (isInitialized a) (binRanges a))
    | Loaded sampleRate =>
        (true,
         set_devices a true true true
           (Some (calculateAllBinRanges (Some sampleRate)
                    (Some (fftSize a)))))
    end.

(** [micStarts]: whether [mic.start()] resolves. *)
Definition startListening (env : InitEnv N) (micStarts : bool)
    (a : AudioAnalyzer N) : bool * AudioAnalyzer N :=
  let '(success, a) :=
    if negb (isInitialized a) then init env a else (true, a) in
  if negb success then (false, a)
  else if mic a && micStarts && fft a
       then (true, set_isListening a true)
       else (false, a).

Definition stopListening (a : AudioAnalyzer N) : AudioAnalyzer N :=
  if mic a && isListening a then set_isListening a false else a.

Definition dispose (a : AudioAnalyzer N) : AudioAnalyzer N :=
  let a := stopListening a in
  set_devices a false false false (binRanges a).

(** *** The loop over the bins of a range

    [for (let i = range.start; i < range.end && i < spectrum.length; i++)]
    with the body as a function of the counter and the loop variables. *)

Fixpoint for_bins {A} (fuel : nat) (length : Z) (e : jsint)
    (body : Z -> A -> A) (i : Z) (acc : A) : result A :=
  match fuel with
  | O => Fail Diverges
  | S fuel =>
      if int_lt i e && (i <? length)
      then for_bins fuel length e body (i + 1) (body i acc)
      else Ok acc
  end.

(** From an integer the counter reaches [spectrum.length] in at most
    [length - start] steps.  From [Infinity] or NaN the first test fails.
    From [-Infinity] the counter never moves: the loop runs for ever as
    soon as the first test holds. *)
Definition for_range {A} (length : Z) (range : BinRange)
    (body : Z -> A -> A) (acc : A) : result A :=
  match start range with
  | Int z =>
      for_bins (S (Z.to_nat (length - z))) length (end_ range) body z acc
  | NInf =>
      match end_ range with
      | Int _ | PInf => Fail Diverges
      | NInf | NaN => Ok acc
      end
  | PInf | NaN => Ok acc
  end.

(** [spectrum[i]] as a number: [undefined], outside the array, is NaN in
    a sum. *)
Definition spectrum_at (spectrum : list Z) (i : Z) : N :=
  if 0 <=? i
  then match spectrum !! Z.to_nat i with
       | Some v => num_of_Z v
       | None => num_nan
       end
  else num_nan.

(** *** getBandEnergy *)

Definition getBandEnergy (a : AudioAnalyzer N) (spectrum : list Z)
    (bandName : string) : result N :=
  if negb (fft a) then Ok zero
  else
    match binRanges a with
    | None => Ok zero
    | Some ranges =>
        match ranges !! bandName with
        | None => Ok zero
        | Some range =>
            let count :=
              (num_of_jsint (end_ range) - num_of_jsint (start range))%js in
            let* sum :=
              for_range (Z.of_nat (length spectrum)) range
                (fun i sum => (sum + spectrum_at spectrum i)%js) zero in
            Ok (if (count >? zero)%js then (sum / count)%js else zero)
        end
    end.

(** *** _getAverageEnergy *)

Definition _getAverageEnergy (a : AudioAnalyzer N) (spectrum : list Z)
    (bandName : string) : result N :=
  match binRanges a with
  | None => Fail TypeError
  | Some ranges =>
      match ranges !! bandName with
      | None => Ok zero
      | Some range =>
          let* sc :=
            for_range (Z.of_nat (length spectrum)) range
              (fun i '(sum, count) =>
                 ((sum + spectrum_at spectrum i)%js, (count + one)%js))
              (zero, zero) in
          let '(sum, count) := sc in
          Ok (if (count >? zero)%js
              then (sum / count / num_of_Z 255)%js
              else zero)
      end
  end.

(** *** _calculateWeightedEnergy *)

Fixpoint weighted_loop (energies weights : list N) (sum : N) : N :=
  match energies with
  | [] => sum
  | e :: energies =>
      let w := match weights with w :: _ => w | [] => num_nan end in
      weighted_loop energies (tail weights) (sum + e * w)%js
  end.

Definition _calculateWeightedEnergy (energies weights : list N) : N :=
  weighted_loop energies weights zero.

(** *** _updateHistory *)

(** [array[i] = v] on a [Float32Array]: the value is rounded to single
    precision, and a store outside the array is ignored. *)
Definition typed_store (array : list N) (i : Z) (v : N) : list N :=
  if 0 <=? i then <[Z.to_nat i := num_fround v]> array else array.

Definition _updateHistory (a : AudioAnalyzer N) : AudioAnalyzer N :=
  let h := energyHistory a in
  set_history a
    (Z.rem (historyIndex a + 1) (historySize a))
    {| history_drums :=
         typed_store (history_drums h) (historyIndex a)
           (combined (cache_drums (energyCache a)));
       history_bass :=
         typed_store (history_bass h) (historyIndex a)
           (bass_combined (cache_bass (energyCache a))) |}.

(** *** _detectPeaks *)

Definition categories : list category := [drums; vocals; bass; highs].

(** The body of the loop, for one category. *)
Definition detect_one (a : AudioAnalyzer N) (pk : category -> PeakState N)
    (cat : category) : category -> PeakState N :=
  let current := smoothedEnergy a cat in
  let peak := pk cat in
  let decayed := (value peak * peakDecay a)%js in
  if (current >? decayed)%js && (current >? peakThreshold a)%js
  then <[cat := {| value := current; isPeak := true |}]> pk
  else <[cat := {| value := decayed; isPeak := false |}]> pk.

Definition _detectPeaks (a : AudioAnalyzer N) : AudioAnalyzer N :=
  set_peaks a (fold_left (detect_one a) categories (peaks a)).

(** *** getPeaks *)

(** The object itself, not a copy. *)
Definition getPeaks (a : AudioAnalyzer N) : category -> PeakState N :=
  peaks a.

(** *** update *)

(** [s += (raw - s) * smoothFactor] *)
Definition smooth (smoothFactor s raw : N) : N :=
  (s + (raw - s) * smoothFactor)%js.

Definition update (a : AudioAnalyzer N) (spectrum : list Z)
  : result (AudioAnalyzer N) :=
  if negb (fft a) || negb (isListening a) then Ok a
  else
    let* d_low := _getAverageEnergy a spectrum "DRUMS_LOW" in
    let* d_mid := _getAverageEnergy a spectrum "DRUMS_MID" in
    let* d_high := _getAverageEnergy a spectrum "DRUMS_HIGH" in
    let d_combined :=
      _calculateWeightedEnergy [d_low; d_mid; d_high] (weights DRUMS) in
    let* v_low := _getAverageEnergy a spectrum "VOCALS_LOW" in
    let* v_mid := _getAverageEnergy a spectrum "VOCALS_MID" in
    let* v_high := _getAverageEnergy a spectrum "VOCALS_HIGH" in
    let v_combined :=
      _calculateWeightedEnergy [v_low; v_mid; v_high] (weights VOCALS) in
    let* b_sub := _getAverageEnergy a spectrum "SUB_BASS" in
    let* b_main := _getAverageEnergy a spectrum "BASS" in
    let b_combined :=
      _calculateWeightedEnergy [b_sub; b_main] (weights BASS) in
    let* h_instruments :=
      _getAverageEnergy a spectrum "INSTRUMENTS_HIGH" in
    let* h_air := _getAverageEnergy a spectrum "AIR" in
    let h_combined :=
      _calculateWeightedEnergy [h_instruments; h_air] (weights HIGHS) in
    let cache :=
      {| cache_drums :=
           {| low := d_low; mid := d_mid; high := d_high;
              combined := d_combined |};
         cache_vocals :=
           {| low := v_low; mid := v_mid; high := v_high;
              combined := v_combined |};
         cache_bass :=
           {| sub := b_sub; main := b_main; bass_combined := b_combined |};
         cache_highs :=
           {| instruments := h_instruments; air := h_air;
              highs_combined := h_combined |} |} in
    let smoothFactor := num_lit 3 10 in
    let smoothed (cat : category) : N :=
      smooth smoothFactor (smoothedEnergy a cat) (cache_combined cache cat) in
    let a := set_energies a cache smoothed in
    let a := _updateHistory a in
    Ok (_detectPeaks a).

End Analyzer.

(** ** Runs of the analyzer *)

Section Runs.
Context {N : Type} `{JSNumber N}.

(** One call of a method that changes the analyzer.  [getBandEnergy] and
    the getters only read.  A call of [update] that throws does so at its
    first read of [binRanges], before any write; one that runs for ever
    leaves no state to continue from. *)
Inductive step : AudioAnalyzer N -> AudioAnalyzer N -> Prop :=
| step_init env a : step a (snd (init env a))
| step_startListening env micStarts a :
    step a (snd (startListening env micStarts a))
| step_stopListening a : step a (stopListening a)
| step_update a spectrum a' : update a spectrum = Ok a' -> step a a'
| step_dispose a : step a (dispose a).

(** The states a freshly constructed analyzer can get to. *)
Definition reachable (a : AudioAnalyzer N) : Prop :=
  exists fftSize smoothing,
    rtc step (new_AudioAnalyzer fftSize smoothing) a.

(** The smoothed energy of [cat] replaced by [e], as one cycle's smoothing
    would leave it. *)
Definition with_smoothed (a : AudioAnalyzer N) (cat : category) (e : N)
  : AudioAnalyzer N :=
  set_energies a (energyCache a) (<[cat := e]> (smoothedEnergy a)).

(** The peak flags of [cat] over successive cycles whose smoothed energies
    are [energies]. *)
Fixpoint peak_flags (cat : category) (energies : list N)
    (a : AudioAnalyzer N) : list bool :=
  match energies with
  | [] => []
  | e :: energies =>
      let a := _detectPeaks (with_smoothed a cat e) in
      isPeak (peaks a cat) :: peak_flags cat energies a
  end.

(** The stored peak values over the same cycles. *)
Fixpoint peak_values (cat : category) (energies : list N)
    (a : AudioAnalyzer N) : list N :=
  match energies with
  | [] => []
  | e :: energies =>
      let a := _detectPeaks (with_smoothed a cat e) in
      value (peaks a cat) :: peak_values cat energies a
  end.

(** The smoothed value after [n] cycles whose raw energy is [v]. *)
Definition smooth_iter (n : nat) (s v : N) : N :=
  Nat.iter n (fun s => smooth (num_lit 3 10) s v) s.

(** A range over which the loop over bins ends. *)
Definition range_ends (range : BinRange) : Prop :=
  start range = NInf -> end_ range = NInf \/ end_ range = NaN.

(** The peak state one detection step leaves for a category whose state
    was [peak] and whose smoothed energy is [current]. *)
Definition peak_after (decay threshold : N) (peak : PeakState N)
    (current : N) : PeakState N :=
  let decayed := (value peak * decay)%js in
  if (current >? decayed)%js && (current >? threshold)%js
  then {| value := current; isPeak := true |}
  else {| value := decayed; isPeak := false |}.

End Runs.

(** ** The bins of a range, as the specification words them *)

(** The indices of [[startIndex, endIndex)] that lie in
    [[0, spectrum.length)] are those from [clamped_lo] up to, not including,
    [clamped_hi]. *)
Definition clamped_lo (s : Z) : Z := Z.max 0 s.
Definition clamped_hi (spectrum : list Z) (e : Z) : Z :=
  Z.min e (Z.of_nat (length spectrum)).
Definition clamped_count (spectrum : list Z) (s e : Z) : Z :=
  Z.max 0 (clamped_hi spectrum e - clamped_lo s).

(** [spectrum[i]] as an integer, 0 outside the array. *)
Definition magnitude (spectrum : list Z) (i : Z) : Z :=
  if 0 <=? i then default 0 (spectrum !! Z.to_nat i) else 0.

(** The sum of the magnitudes at those indices. *)
Definition clamped_sum (spectrum : list Z) (s e : Z) : Z :=
  foldr Z.add 0
    (magnitude spectrum <$> seqZ (clamped_lo s) (clamped_count spectrum s e)).

(** ** Statements about states and cycles *)

Section Statements.
Context {N : Type} `{JSNumber N}.

(** The fields a cycle keeps. *)
Definition same_setup (a a' : AudioAnalyzer N) : Prop :=
  fftSize a' = fftSize a /\ smoothing a' = smoothing a /\
  fft a' = fft a /\ mic a' = mic a /\
  isInitialized a' = isInitialized a /\ isListening a' = isListening a /\
  binRanges a' = binRanges a /\
  peakThreshold a' = peakThreshold a /\ peakDecay a' = peakDecay a /\
  historySize a' = historySize a.

(** What a cycle that runs has done when it returns. *)
Record cycle_done (a : AudioAnalyzer N) (spectrum : list Z)
    (a' : AudioAnalyzer N) : Prop := {
  done_drums :
    let c := cache_drums (energyCache a') in
    _getAverageEnergy a spectrum "DRUMS_LOW" = Ok (low c) /\
    _getAverageEnergy a spectrum "DRUMS_MID" = Ok (mid c) /\
    _getAverageEnergy a spectrum "DRUMS_HIGH" = Ok (high c) /\
    combined c =
      _calculateWeightedEnergy [low c; mid c; high c] (weights DRUMS);
  done_vocals :
    let c := cache_vocals (energyCache a') in
    _getAverageEnergy a spectrum "VOCALS_LOW" = Ok (low c) /\
    _getAverageEnergy a spectrum "VOCALS_MID" = Ok (mid c) /\
    _getAverageEnergy a spectrum "VOCALS_HIGH" = Ok (high c) /\
    combined c =
      _calculateWeightedEnergy [low c; mid c; high c] (weights VOCALS);
  done_bass :
    let c := cache_bass (energyCache a') in
    _getAverageEnergy a spectrum "SUB_BASS" = Ok (sub c) /\
    _getAverageEnergy a spectrum "BASS" = Ok (main c) /\
    bass_combined c =
      _calculateWeightedEnergy [sub c; main c] (weights BASS);
  done_highs :
    let c := cache_highs (energyCache a') in
    _getAverageEnergy a spectrum "INSTRUMENTS_HIGH" = Ok (instruments c) /\
    _getAverageEnergy a spectrum "AIR" = Ok (air c) /\
    highs_combined c =
      _calculateWeightedEnergy [instruments c; air c] (weights HIGHS);
  done_smoothed : forall cat,
    smoothedEnergy a' cat =
    smooth (num_lit 3 10) (smoothedEnergy a cat)
      (cache_combined (energyCache a') cat);
  done_history :
    historyIndex a' = Z.rem (historyIndex a + 1) (historySize a) /\
    history_drums (energyHistory a') =
      typed_store (history_drums (energyHistory a)) (historyIndex a)
        (cache_combined (energyCache a') drums) /\
    history_bass (energyHistory a') =
      typed_store (history_bass (energyHistory a)) (historyIndex a)
        (cache_combined (energyCache a') bass);
  done_peaks : forall cat,
    peaks a' cat =
    peak_after (peakDecay a) (peakThreshold a) (peaks a cat)
      (smoothedEnergy a' cat);
  done_setup : same_setup a a'
}.

(** The methods other than [update] leave the energies and the peak
    detector alone. *)
Definition same_signal (a a' : AudioAnalyzer N) : Prop :=
  energyCache a' = energyCache a /\
  smoothedEnergy a' = smoothedEnergy a /\
  peaks a' = peaks a /\
  peakThreshold a' = peakThreshold a /\ peakDecay a' = peakDecay a /\
  historyIndex a' = historyIndex a /\ energyHistory a' = energyHistory a.

(** The constants of the peak detector, and the link between a raised
    peak flag and the smoothed energy. *)
Definition peak_constants (a : AudioAnalyzer N) : Prop :=
  peakThreshold a = num_lit 7 10 /\ peakDecay a = num_lit 95 100.

Definition peaks_consistent (a : AudioAnalyzer N) : Prop :=
  forall cat,
    isPeak (peaks a cat) = true ->
    value (peaks a cat) = smoothedEnergy a cat /\
    (smoothedEnergy a cat >? num_lit 7 10)%js = true.

Definition peak_invariant (a : AudioAnalyzer N) : Prop :=
  peak_constants a /\ peaks_consistent a.

(** An initialized analyzer has its two devices and its bin ranges, and
    only an initialized analyzer listens. *)
Definition setup_invariant (a : AudioAnalyzer N) : Prop :=
  (isInitialized a = true ->
   fft a = true /\ mic a = true /\ is_Some (binRanges a)) /\
  (isListening a = true -> isInitialized a = true).

(** Every range of the map lets the loop end. *)
Definition ranges_end (a : AudioAnalyzer N) : Prop :=
  exists ranges,
    binRanges a = Some ranges /\
    forall name range, ranges !! name = Some range -> range_ends range.

(** The group of [VisualizerGroups] that a category reads its weights
    from. *)
Definition group_of (cat : category) : Group N :=
  match cat with
  | drums => DRUMS
  | vocals => VOCALS
  | bass => BASS
  | highs => HIGHS
  end.

(** The weighted energy of a group as the specification words it: the
    average energy of each member band, in declared order, ... *)
Fixpoint spec_band_energies (a : AudioAnalyzer N) (spectrum : list Z)
    (names : list string) : result (list N) :=
  match names with
  | [] => Ok []
  | name :: names =>
      let* e := _getAverageEnergy a spectrum name in
      let* es := spec_band_energies a spectrum names in
      Ok (e :: es)
  end.

(** ... and [combined = Σ energies[i] * weights[i]] over the members. *)
Definition spec_group_energy (a : AudioAnalyzer N) (spectrum : list Z)
    (group : Group N) : result N :=
  let* energies := spec_band_energies a spectrum (bands group) in
  Ok (fold_left (fun sum '(e, w) => (sum + e * w)%js)
        (zip energies (weights group)) zero).

End Statements.

(** ** Statements about the loops and the exact arithmetic *)

(** How many times the loop runs from counter [i]. *)
Definition bins_count (length : Z) (e : jsint) (i : Z) : Z :=
  match e with
  | Int z => Z.min z length - i
  | PInf => length - i
  | NInf | NaN => 0
  end.

(** The indices [ks] all lie in the array. *)
Definition in_array (spectrum : list Z) (ks : list Z) : Prop :=
  Forall (fun k => 0 <= k < Z.of_nat (length spectrum)) ks.

(** One smoothing step on rationals. *)
Definition smoothQ (s v : Q) : Q := (s + (v - s) * (3 # 10))%Q.

(** ** Sample states *)

(** A fresh analyzer with default arguments, then the same analyzer
    listening at 44100 Hz. *)
Definition new_analyzer {N} `{JSNumber N} : AudioAnalyzer N :=
  new_AudioAnalyzer None None.

Definition listening_at {N} `{JSNumber N} (sampleRate : Z) : AudioAnalyzer N :=
  snd (startListening (Loaded (num_of_Z sampleRate)) true new_analyzer).

(** [update], keeping the state when the call does not return. *)
Definition update_or_keep {N} `{JSNumber N} (a : AudioAnalyzer N)
    (spectrum : list Z) : AudioAnalyzer N :=
  match update a spectrum with
  | Ok a' => a'
  | Fail _ => a
  end.

(** The analyzer after [n] cycles on the same spectrum. *)
Fixpoint cycles {N} `{JSNumber N} (n : nat) (spectrum : list Z)
    (a : AudioAnalyzer N) : AudioAnalyzer N :=
  match n with
  | O => a
  | S n => update_or_keep (cycles n spectrum a) spectrum
  end.

(** Whether, over [n] smoothing steps toward [v] in binary64, the distance
    to [v] never grows. *)
Fixpoint distance_never_grows (n : nat) (s v : float) : bool :=
  match n with
  | O => true
  | S n =>
      let s' := smooth (num_lit 3 10) s v in
      PrimFloat.leb (PrimFloat.abs (s' - v)) (PrimFloat.abs (s - v))
      && distance_never_grows n s' v
  end.

(** ** The value of a binary64 number

    A finite binary64 number is a signed mantissa times a power of two;
    [float_Q] is that rational, read off the number's own fields. *)

Definition finite64 (x : float) : bool :=
  match Prim2SF x with
  | S754_zero _ | S754_finite _ _ _ => true
  | _ => false
  end.

Definition float_Q (x : float) : Q :=
  match Prim2SF x with
  | S754_finite s m e => inject_Z (if s then Z.neg m else Z.pos m) * 2 ^ e
  | _ => 0
  end.

#[export] Instance jsint_eq_dec : EqDecision jsint.
Proof. solve_decision. Defined.

#[export] Instance range_ends_dec range : Decision (range_ends range).
Proof. unfold range_ends. apply _. Defined.

(** ** The rest of the analyzer's interface, and runs of cycles *)

Section MoreAnalyzer.
Context {N : Type} `{JSNumber N}.

(** The object [getEnergies] returns: the four smoothed energies, copied,
    and the energy cache itself under [raw]. *)
Record Energies := {
  energy_of : category -> N;
  raw : EnergyCache N
}.

Definition getEnergies (a : AudioAnalyzer N) : Energies :=
  {| energy_of := smoothedEnergy a; raw := energyCache a |}.

(** One call of [update] per spectrum, in order; the states after each
    call.  The frame loop of the sketch calls [update] once per frame. *)
Fixpoint update_each (a : AudioAnalyzer N) (spectra : list (list Z))
  : result (list (AudioAnalyzer N)) :=
  match spectra with
  | [] => Ok []
  | spectrum :: spectra =>
      let* a' := update a spectrum in
      let* later := update_each a' spectra in
      Ok (a' :: later)
  end.

(** The history buffers have their 43 slots and the cursor points at one
    of them. *)
Definition history_ok (a : AudioAnalyzer N) : Prop :=
  historySize a = 43 /\
  0 <= historyIndex a < 43 /\
  length (history_drums (energyHistory a)) = 43%nat /\
  length (history_bass (energyHistory a)) = 43%nat.

(** The bin ranges, once set, are those of the table for some sample rate
    and the transform size of the analyzer. *)
Definition ranges_from_table (a : AudioAnalyzer N) : Prop :=
  forall ranges,
    binRanges a = Some ranges ->
    exists sampleRate,
      ranges = calculateAllBinRanges (Some sampleRate) (Some (fftSize a)).

(** A cycle while listening, with the history in order. *)
Definition recording (a : AudioAnalyzer N) : Prop :=
  fft a = true /\ isListening a = true /\ history_ok a.

(** The state a run of cycles ends in. *)
Fixpoint final (a : AudioAnalyzer N) (states : list (AudioAnalyzer N))
  : AudioAnalyzer N :=
  match states with
  | [] => a
  | a' :: later => final a' later
  end.

End MoreAnalyzer.
Arguments Energies : clear implicits.

(** ** Well-formed configurations, in exact arithmetic *)

(** A number between 0 and 1. *)
Definition unit_interval (x : xQ) : Prop :=
  exists q, x = Fin q /\ (0 <= q <= 1)%Q.

(** A range of integers that starts at a bin of the spectrum and holds at
    least one bin. *)
Definition valid_range (range : BinRange) : Prop :=
  exists s e, range = {| start := Int s; end_ := Int e |} /\ 0 <= s < e.

Definition ranges_valid (a : AudioAnalyzer xQ) : Prop :=
  forall ranges,
    binRanges a = Some ranges ->
    forall bandName range, ranges !! bandName = Some range -> valid_range range.

Definition cache_bounded (c : EnergyCache xQ) : Prop :=
  (unit_interval (low (cache_drums c)) /\
   unit_interval (mid (cache_drums c)) /\
   unit_interval (high (cache_drums c)) /\
   unit_interval (combined (cache_drums c))) /\
  (unit_interval (low (cache_vocals c)) /\
   unit_interval (mid (cache_vocals c)) /\
   unit_interval (high (cache_vocals c)) /\
   unit_interval (combined (cache_vocals c))) /\
  (unit_interval (sub (cache_bass c)) /\
   unit_interval (main (cache_bass c)) /\
   unit_interval (bass_combined (cache_bass c))) /\
  (unit_interval (instruments (cache_highs c)) /\
   unit_interval (air (cache_highs c)) /\
   unit_interval (highs_combined (cache_highs c))).

Definition energies_bounded (a : AudioAnalyzer xQ) : Prop :=
  cache_bounded (energyCache a) /\
  forall cat,
    unit_interval (smoothedEnergy a cat) /\
    unit_interval (value (peaks a cat)).

(** A sound library that, when it loads, reports a positive sample rate. *)
Definition positive_env (env : InitEnv xQ) : Prop :=
  match env with
  | Loaded (Fin sampleRate) => (0 < sampleRate)%Q
  | Loaded _ => False
  | _ => True
  end.

(** A transform size that is positive, or left to its default. *)
Definition positive_size (fftSize : option xQ) : Prop :=
  match fftSize with
  | None => True
  | Some (Fin f) => (0 < f)%Q
  | Some _ => False
  end.

(** The calls of [step], with a positive sample rate and spectra of
    magnitudes between 0 and 255. *)
Inductive sound_step : AudioAnalyzer xQ -> AudioAnalyzer xQ -> Prop :=
| sound_init env a : positive_env env -> sound_step a (snd (init env a))
| sound_startListening env micStarts a :
    positive_env env -> sound_step a (snd (startListening env micStarts a))
| sound_stopListening a : sound_step a (stopListening a)
| sound_update a spectrum a' :
    Forall (fun v => 0 <= v <= 255) spectrum ->
    update a spectrum = Ok a' -> sound_step a a'
| sound_dispose a : sound_step a (dispose a).

Definition sound_reachable (a : AudioAnalyzer xQ) : Prop :=
  exists fftSize smoothing,
    positive_size fftSize /\
    rtc sound_step (new_AudioAnalyzer fftSize smoothing) a.

(** What holds of every state of a well-formed run. *)
Definition sound_invariant (a : AudioAnalyzer xQ) : Prop :=
  (exists f, fftSize a = Fin f /\ (0 < f)%Q) /\
  ranges_valid a /\
  energies_bounded a.

(** Energies, cycle after cycle, each above 0.7 and above 0.95 times the
    one before, as the program computes that product and compares; [prev]
    is the peak value stored before the first. *)
Fixpoint sustained {N} `{JSNumber N} (prev : N) (energies : list N) : bool :=
  match energies with
  | [] => true
  | e :: energies =>
      (e >? prev * num_lit 95 100)%js && (e >? num_lit 7 10)%js
      && sustained e energies
  end.

(** Cycles in each of which the smoothed energy of [cat] ends at or below
    0.7. *)
Fixpoint quiet_run {N} `{JSNumber N} (cat : category) (a : AudioAnalyzer N)
    (spectra : list (list Z)) : bool :=
  match spectra with
  | [] => true
  | spectrum :: spectra =>
      let a' := update_or_keep a spectrum in
      negb (smoothedEnergy a' cat >? num_lit 7 10)%js
      && quiet_run cat a' spectra
  end.

(** A range that starts at one of the [n] bins of a spectrum. *)
Definition starts_inside (n : nat) (range : BinRange) : bool :=
  match start range with
  | Int s => s <? Z.of_nat n
  | _ => false
  end.

(** The energy of a spectrum whose bins all hold the magnitude [c]. *)
Definition at_level (c : Z) (x : xQ) : Prop :=
  exists q, x = Fin q /\ (q == inject_Z c / 255)%Q.


(** The same over [n] cycles on one spectrum in binary64: in each cycle the
    raw energy of the category is the same as in the first, and the
    smoothed energy lies between its value before the cycle and the raw
    energy. *)
Fixpoint closing_in64 (n : nat) (spectrum : list Z) (cat : category)
    (v : float) (a : AudioAnalyzer float) : bool :=
  match n with
  | O => true
  | S n =>
      let a' := update_or_keep a spectrum in
      let s := smoothedEnergy a cat in
      let s' := smoothedEnergy a' cat in
      PrimFloat.eqb (cache_combined (energyCache a') cat) v
      && (PrimFloat.leb s s' && PrimFloat.leb s' v
          || PrimFloat.leb v s' && PrimFloat.leb s' s)
      && closing_in64 n spectrum cat v a'
  end.

(** The raw energy of a category in the cycle on [spectrum]. *)
Definition raw_energy {N} `{JSNumber N} (a : AudioAnalyzer N)
    (spectrum : list Z) (cat : category) : N :=
  cache_combined (energyCache (update_or_keep a spectrum)) cat.

(** * ObjectPool *)

(** The objects of a pool live in a store, and the pool holds references
    to them.  [factory] is the function the pool is constructed with: a
    call returns an object and may change the store.  [reset obj] is
    [obj.reset()] where [obj.reset] is a function, and nothing otherwise.
    [pool] is the array in its own order: [push] appends, [pop] takes the
    last.  The two sizes are integers, as at the two places that construct
    a pool. *)
Record ObjectPool (Obj : Type) := {
  maxSize : Z;
  pool : list Obj;
  activeCount : Z
}.
Arguments maxSize {Obj}.
Arguments pool {Obj}.
Arguments activeCount {Obj}.

(** The object [getStats] returns. *)
Record PoolStats := {
  available : Z;
  active : Z;
  stats_maxSize : Z
}.

Section ObjectPool.
Context {Store Obj : Type}.
Variable factory : Store -> Obj * Store.
Variable reset : Obj -> Store -> Store.

(** [for (let i = 0; i < initialSize; i++) this.pool.push(this.factory())] *)
Fixpoint preallocate (n : nat) (objs : list Obj) (h : Store)
  : list Obj * Store :=
  match n with
  | O => (objs, h)
  | S n => let '(obj, h) := factory h in preallocate n (objs ++ [obj]) h
  end.

Definition new_ObjectPool (initialSize maxSize : option Z) (h : Store)
  : ObjectPool Obj * Store :=
  let '(objs, h) := preallocate (Z.to_nat (default 50 initialSize)) [] h in
  ({| maxSize := default 500 maxSize; pool := objs; activeCount := 0 |}, h).

Definition acquire (p : ObjectPool Obj) (h : Store)
  : Obj * (ObjectPool Obj * Store) :=
  let count := activeCount p + 1 in
  match list.last (pool p) with
  | Some obj =>
      (obj,
       ({| maxSize := maxSize p; pool := removelast (pool p);
           activeCount := count |}, h))
  | None =>
      let '(obj, h) := factory h in
      (obj,
       ({| maxSize := maxSize p; pool := pool p; activeCount := count |}, h))
  end.

Definition release (obj : Obj) (p : ObjectPool Obj) (h : Store)
  : ObjectPool Obj * Store :=
  let count := Z.max 0 (activeCount p - 1) in
  if Z.of_nat (length (pool p)) <? maxSize p
  then ({| maxSize := maxSize p; pool := pool p ++ [obj];
           activeCount := count |}, reset obj h)
  else ({| maxSize := maxSize p; pool := pool p; activeCount := count |}, h).

Definition releaseAll (objects : list Obj) (p : ObjectPool Obj) (h : Store)
  : ObjectPool Obj * Store :=
  fold_left (fun s obj => release obj (fst s) (snd s)) objects (p, h).

Definition getStats (p : ObjectPool Obj) : PoolStats :=
  {| available := Z.of_nat (length (pool p));
     active := activeCount p;
     stats_maxSize := maxSize p |}.

Definition clear (p : ObjectPool Obj) : ObjectPool Obj :=
  {| maxSize := maxSize p; pool := []; activeCount := 0 |}.

(** A call on the pool, or a change of the objects behind its back. *)
Inductive pool_step
  : ObjectPool Obj * Store -> ObjectPool Obj * Store -> Prop :=
| pool_acquire p h : pool_step (p, h) (snd (acquire p h))
| pool_release obj p h : pool_step (p, h) (release obj p h)
| pool_releaseAll objects p h : pool_step (p, h) (releaseAll objects p h)
| pool_clear p h : pool_step (p, h) (clear p, h)
| pool_store p h h' : pool_step (p, h) (p, h').

(** The states of a pool constructed with these sizes. *)
Definition pool_reachable (initialSize maxSize : option Z)
    (s : ObjectPool Obj * Store) : Prop :=
  exists h, rtc pool_step (new_ObjectPool initialSize maxSize h) s.

(** The store after [obj.reset()] on each of [objects], in order. *)
Definition reset_each (objects : list Obj) (h : Store) : Store :=
  fold_left (fun h obj => reset obj h) objects h.

End ObjectPool.

(** A store of particles, each one active or not: [new Particle()] makes an
    inactive one, and [reset] makes one inactive. *)
Definition new_Particle (h : list bool) : nat * list bool :=
  (length h, h ++ [false]).

Definition Particle_reset (obj : nat) (h : list bool) : list bool :=
  <[obj := false]> h.

(** * MemoryManager: the colour cache *)

Module MemoryManager.

(** The object [{ r, g, b, a }]. *)
Record rgba := { r : Z; g : Z; b : Z; a : Z }.

(** The key [`${r},${g},${b},${a}`], for integer components. *)
Definition key (r g b a : Z) : string :=
  pretty r +:+ "," +:+ pretty g +:+ "," +:+ pretty b +:+ "," +:+ pretty a.

(** [colorCache], a [Map]: its entries in the order of insertion. *)
Definition Cache : Type := list (string * rgba).

Fixpoint get (k : string) (colorCache : Cache) : option rgba :=
  match colorCache with
  | [] => None
  | (k', c) :: colorCache =>
      if decide (k = k') then Some c else get k colorCache
  end.

(** [a] is [None] where the argument is left out. *)
Definition getColor (r g b : Z) (a : option Z) (colorCache : Cache)
  : rgba * Cache :=
  let a := default 255 a in
  let key := key r g b a in
  match get key colorCache with
  | Some c => (c, colorCache)
  | None =>
      let colorCache :=
        if 1000 <? Z.of_nat (length colorCache)
        then tail colorCache
        else colorCache in
      let c := {| r := r; g := g; b := b; a := a |} in
      (c, colorCache ++ [(key, c)])
  end.

(** The cache after a series of calls of [getColor]. *)
Definition getColors (calls : list (Z * Z * Z * option Z))
    (colorCache : Cache) : Cache :=
  fold_left
    (fun colorCache '(r, g, b, a) => snd (getColor r g b a colorCache))
    calls colorCache.

(** Every entry is filed under the key of its own components. *)
Definition filed (colorCache : Cache) : Prop :=
  Forall (fun e => fst e = key (r (snd e)) (g (snd e)) (b (snd e)) (a (snd e)))
    colorCache.

(** Calls for [n] colours that differ in their red component. *)
Definition reds (n : Z) : list (Z * Z * Z * option Z) :=
  (fun i => (i, 0, 0, None)) <$> seqZ 0 n.

End MemoryManager.

(** A string without a comma. *)
Fixpoint comma_free (s : string) : Prop :=
  match s with
  | EmptyString => True
  | String c s => c <> ","%char /\ comma_free s
  end.

(** * Properties *)

(** ** Peak detection *)

Section PeakDetection.
Context {N : Type} `{JSNumber N}.

Lemma detect_one_same (a : AudioAnalyzer N) pk cat :
  detect_one a pk cat cat =
  peak_after (peakDecay a) (peakThreshold a) (pk cat) (smoothedEnergy a cat).
Proof.
  unfold detect_one, peak_after.
  destruct (_ && _); apply fn_lookup_insert.
Qed.

Lemma detect_one_other (a : AudioAnalyzer N) pk cat cat' :
  cat <> cat' -> detect_one a pk cat cat' = pk cat'.
Proof.
  intros Hne. unfold detect_one.
  destruct (_ && _); now apply fn_lookup_insert_ne.
Qed.

(** The loop leaves the categories it does not visit as they were. *)
Lemma detect_loop_skip (a : AudioAnalyzer N) cats pk cat :
  cat ∉ cats -> fold_left (detect_one a) cats pk cat = pk cat.
Proof.
  revert pk. induction cats as [|c cats IH]; intros pk Hnot; [reflexivity|].
  apply not_elem_of_cons in Hnot as [Hne Hnot]. simpl.
  rewrite IH by assumption. apply detect_one_other. congruence.
Qed.

(** Each category of the loop is stepped once, from its own state. *)
Lemma detect_loop_visit (a : AudioAnalyzer N) cats pk cat :
  NoDup cats -> cat ∈ cats ->
  fold_left (detect_one a) cats pk cat =
  peak_after (peakDecay a) (peakThreshold a) (pk cat) (smoothedEnergy a cat).
Proof.
  revert pk. induction cats as [|c cats IH]; intros pk Hnd Hin.
  - now apply elem_of_nil in Hin.
  - apply list.NoDup_cons in Hnd as [Hc Hnd]. simpl.
    destruct (decide (c = cat)) as [->|Hne].
    + rewrite detect_loop_skip by assumption. apply detect_one_same.
    + apply elem_of_cons in Hin as [->|Hin]; [congruence|].
      rewrite IH by assumption. now rewrite detect_one_other.
Qed.

Lemma categories_NoDup : NoDup categories.
Proof. apply (bool_decide_unpack _). reflexivity. Qed.

Lemma categories_all cat : cat ∈ categories.
Proof. unfold categories. destruct cat; set_solver. Qed.

Lemma detectPeaks_peaks (a : AudioAnalyzer N) cat :
  peaks (_detectPeaks a) cat =
  peak_after (peakDecay a) (peakThreshold a) (peaks a cat)
    (smoothedEnergy a cat).
Proof.
  unfold _detectPeaks, set_peaks. cbn [peaks].
  apply detect_loop_visit; [apply categories_NoDup | apply categories_all].
Qed.

Lemma peak_after_isPeak decay threshold (peak : PeakState N) current :
  isPeak (peak_after decay threshold peak current) = true ->
  value (peak_after decay threshold peak current) = current /\
  (current >? threshold)%js = true.
Proof.
  unfold peak_after.
  destruct (current >? value peak * decay)%js; simpl; [|discriminate].
  destruct (current >? threshold)%js; simpl; [auto | discriminate].
Qed.

End PeakDetection.

(** ** One cycle *)

Section Cycle.
Context {N : Type} `{JSNumber N}.

Lemma update_not_listening (a : AudioAnalyzer N) spectrum :
  fft a = false \/ isListening a = false -> update a spectrum = Ok a.
Proof.
  intros [Hf|Hl]; unfold update; rewrite ?Hf, ?Hl;
    [|rewrite orb_true_r]; reflexivity.
Qed.

Lemma update_listening (a : AudioAnalyzer N) spectrum a' :
  fft a = true -> isListening a = true ->
  update a spectrum = Ok a' -> cycle_done a spectrum a'.
Proof.
  intros Hf Hl. unfold update. rewrite Hf, Hl. cbn [negb orb].
  repeat match goal with
         | |- context [bind ?m _] =>
             destruct m eqn:?; cbn [bind]; [|discriminate]
         end.
  intros [= <-].
  split; try (intros cat; rewrite detectPeaks_peaks; reflexivity);
    cbn -[_calculateWeightedEnergy];
    try (repeat split; assumption || reflexivity).
Qed.

Lemma same_signal_refl (a : AudioAnalyzer N) : same_signal a a.
Proof. repeat split. Qed.

Lemma set_devices_same_signal (a : AudioAnalyzer N) f m i br :
  same_signal a (set_devices a f m i br).
Proof. repeat split. Qed.

Lemma set_isListening_same_signal (a : AudioAnalyzer N) l :
  same_signal a (set_isListening a l).
Proof. repeat split. Qed.

Lemma same_signal_trans (a b c : AudioAnalyzer N) :
  same_signal a b -> same_signal b c -> same_signal a c.
Proof.
  intros (? & ? & ? & ? & ? & ? & ?) (? & ? & ? & ? & ? & ? & ?).
  repeat split; congruence.
Qed.

Hint Resolve same_signal_refl set_devices_same_signal
  set_isListening_same_signal : core.

Lemma init_same_signal env (a : AudioAnalyzer N) :
  same_signal a (snd (init env a)).
Proof.
  unfold init. destruct (isInitialized a); [apply same_signal_refl|].
  destruct env; cbn [snd]; auto.
Qed.

Lemma stopListening_same_signal (a : AudioAnalyzer N) :
  same_signal a (stopListening a).
Proof.
  unfold stopListening. destruct (mic a && isListening a); auto.
Qed.

Lemma startListening_same_signal env micStarts (a : AudioAnalyzer N) :
  same_signal a (snd (startListening env micStarts a)).
Proof.
  unfold startListening.
  destruct (negb (isInitialized a)).
  - pose proof (init_same_signal env a) as Hi.
    destruct (init env a) as [success a1]. cbn [snd] in Hi.
    destruct (negb success); [exact Hi|].
    destruct (mic a1 && micStarts && fft a1); cbn [snd]; [|exact Hi].
    eapply same_signal_trans; [exact Hi | auto].
  - cbn [negb]. destruct (mic a && micStarts && fft a); cbn [snd]; auto.
Qed.

Lemma dispose_same_signal (a : AudioAnalyzer N) : same_signal a (dispose a).
Proof.
  unfold dispose. eapply same_signal_trans;
    [apply stopListening_same_signal | auto].
Qed.

Lemma same_signal_invariant (a a' : AudioAnalyzer N) :
  same_signal a a' -> peak_invariant a -> peak_invariant a'.
Proof.
  intros (_ & Hs & Hp & Ht & Hd & _) [[Hct Hcd] Hc].
  split; [split; congruence|].
  intros cat. rewrite Hp, Hs. apply Hc.
Qed.

Lemma update_invariant (a : AudioAnalyzer N) spectrum a' :
  update a spectrum = Ok a' -> peak_invariant a -> peak_invariant a'.
Proof.
  intros Hu Hinv.
  destruct (fft a) eqn:Hf; [destruct (isListening a) eqn:Hl|].
  - destruct (update_listening a spectrum a' Hf Hl Hu)
      as [_ _ _ _ _ _ Hpk (_ & _ & _ & _ & _ & _ & _ & Ht & Hd & _)].
    destruct Hinv as [[Hct Hcd] _].
    split; [split; congruence|].
    intros cat. rewrite Hpk, <- Hct. apply peak_after_isPeak.
  - rewrite update_not_listening in Hu by auto. congruence.
  - rewrite update_not_listening in Hu by auto. congruence.
Qed.

Lemma step_invariant (a a' : AudioAnalyzer N) :
  step a a' -> peak_invariant a -> peak_invariant a'.
Proof.
  intros Hstep. destruct Hstep.
  - apply same_signal_invariant, init_same_signal.
  - apply same_signal_invariant, startListening_same_signal.
  - apply same_signal_invariant, stopListening_same_signal.
  - eapply update_invariant; eassumption.
  - apply same_signal_invariant, dispose_same_signal.
Qed.

Lemma new_invariant fftSize smoothing :
  peak_invariant (new_AudioAnalyzer fftSize smoothing).
Proof.
  split; [split; reflexivity|]. intros cat. cbn. discriminate.
Qed.

Lemma init_setup env (a : AudioAnalyzer N) :
  setup_invariant a -> setup_invariant (snd (init env a)).
Proof.
  intros Hinv. unfold init.
  destruct (isInitialized a) eqn:Hi; [exact Hinv|].
  destruct Hinv as [Hinit Hlisten]. unfold setup_invariant.
  destruct env; cbn; rewrite ?Hi; split; intros Ht;
    try discriminate; try (apply Hlisten in Ht; discriminate); eauto.
Qed.

Lemma startListening_setup env micStarts (a : AudioAnalyzer N) :
  setup_invariant a -> setup_invariant (snd (startListening env micStarts a)).
Proof.
  intros Hinv. unfold startListening.
  assert (forall b : AudioAnalyzer N,
             setup_invariant b -> isInitialized b = true ->
             setup_invariant
               (snd (if mic b && micStarts && fft b
                     then (true, set_isListening b true)
                     else (false, b)))) as Hset.
  { intros b Hb Hbi. destruct (mic b && micStarts && fft b); cbn [snd];
      [|exact Hb].
    destruct Hb as [Hinit _]. split; [exact Hinit|]. intros _. exact Hbi. }
  destruct (isInitialized a) eqn:Hi; cbn [negb].
  - now apply Hset.
  - pose proof (init_setup env a Hinv) as Hinv'.
    unfold init in *. rewrite Hi in *.
    destruct env; cbn [negb snd] in *; try exact Hinv'.
    now apply Hset.
Qed.

Lemma stopListening_setup (a : AudioAnalyzer N) :
  setup_invariant a -> setup_invariant (stopListening a).
Proof.
  intros [Hinit Hlisten]. unfold stopListening.
  destruct (mic a && isListening a); [|now split].
  split; [exact Hinit|]. discriminate.
Qed.

Lemma dispose_setup (a : AudioAnalyzer N) :
  setup_invariant a -> setup_invariant (dispose a).
Proof.
  intros [Hinit Hlisten].
  unfold dispose, stopListening, setup_invariant.
  destruct (mic a && isListening a) eqn:Hml; cbn; split; try discriminate.
  intros Hl. pose proof (Hlisten Hl) as Hi.
  destruct (Hinit Hi) as (_ & Hm & _). rewrite Hl, Hm in Hml. discriminate.
Qed.

Lemma update_setup (a : AudioAnalyzer N) spectrum a' :
  update a spectrum = Ok a' -> setup_invariant a -> setup_invariant a'.
Proof.
  intros Hu Hinv.
  destruct (fft a) eqn:Hf; [destruct (isListening a) eqn:Hl|].
  - destruct (update_listening a spectrum a' Hf Hl Hu)
      as [_ _ _ _ _ _ _ (_ & _ & Hf' & Hm' & Hi' & Hl' & Hb' & _)].
    unfold setup_invariant. now rewrite Hf', Hm', Hi', Hl', Hb'.
  - rewrite update_not_listening in Hu by auto. congruence.
  - rewrite update_not_listening in Hu by auto. congruence.
Qed.

Lemma step_setup (a a' : AudioAnalyzer N) :
  step a a' -> setup_invariant a -> setup_invariant a'.
Proof.
  intros Hstep. destruct Hstep.
  - apply init_setup.
  - apply startListening_setup.
  - apply stopListening_setup.
  - eapply update_setup; eassumption.
  - apply dispose_setup.
Qed.

Lemma reachable_setup (a : AudioAnalyzer N) : reachable a -> setup_invariant a.
Proof.
  intros (fftSize & smoothing & Hrtc).
  revert a Hrtc. apply rtc_ind_r.
  - split; discriminate.
  - intros a1 a2 _ Hstep IH. eapply step_setup; eassumption.
Qed.

(** In a reachable state that listens, [update] finds its devices and its
    bin ranges: the read of [binRanges] does not throw. *)
Lemma reachable_listening (a : AudioAnalyzer N) :
  reachable a -> isListening a = true ->
  fft a = true /\ is_Some (binRanges a).
Proof.
  intros Hreach Hl. destruct (reachable_setup a Hreach) as [Hinit Hlisten].
  destruct (Hinit (Hlisten Hl)) as (Hf & _ & Hb). now split.
Qed.

Lemma reachable_invariant (a : AudioAnalyzer N) :
  reachable a -> peak_invariant a.
Proof.
  intros (fftSize & smoothing & Hrtc).
  revert a Hrtc. apply rtc_ind_r.
  - apply new_invariant.
  - intros a1 a2 _ Hstep IH. eapply step_invariant; eassumption.
Qed.

End Cycle.

(** ** The loop over bins *)

Section Loop.
Context {A : Type}.

Lemma bins_count_test length e i :
  int_lt i e && (i <? length) = true <-> 0 < bins_count length e i.
Proof.
  rewrite andb_true_iff, Z.ltb_lt.
  destruct e; cbn [int_lt bins_count]; rewrite ?Z.ltb_lt; split;
    intros; try lia; intuition (discriminate || lia).
Qed.

Lemma bins_count_succ length e i :
  0 < bins_count length e i ->
  bins_count length e (i + 1) = Z.pred (bins_count length e i).
Proof. destruct e; cbn [bins_count]; lia. Qed.

(** With fuel beyond [length - i] the loop returns, having run its body
    on each index from [i] on, in order. *)
Lemma for_bins_run fuel length e (body : Z -> A -> A) i acc :
  (Z.to_nat (length - i) < fuel)%nat ->
  for_bins fuel length e body i acc =
  Ok (fold_left (fun acc k => body k acc)
        (seqZ i (bins_count length e i)) acc).
Proof.
  revert i acc. induction fuel as [|fuel IH]; intros i acc Hfuel; [lia|].
  cbn [for_bins].
  destruct (int_lt i e && (i <? length)) eqn:Htest.
  - pose proof Htest as Hcount. apply bins_count_test in Hcount.
    assert (i < length) by (apply andb_true_iff in Htest as [_ ?]; lia).
    rewrite IH by lia.
    rewrite (seqZ_cons i) by assumption.
    rewrite bins_count_succ by assumption. reflexivity.
  - rewrite seqZ_nil; [reflexivity|].
    destruct (Z_lt_le_dec 0 (bins_count length e i)) as [Hpos|]; [|lia].
    apply bins_count_test in Hpos. congruence.
Qed.

Lemma for_range_int length range (body : Z -> A -> A) acc z :
  start range = Int z ->
  for_range length range body acc =
  Ok (fold_left (fun acc k => body k acc)
        (seqZ z (bins_count length (end_ range) z)) acc).
Proof.
  intros Hs. unfold for_range. rewrite Hs. apply for_bins_run. lia.
Qed.

Lemma for_range_returns length range (body : Z -> A -> A) acc :
  range_ends range -> exists r, for_range length range body acc = Ok r.
Proof.
  unfold range_ends. intros Hends.
  destruct (start range) as [z| | |] eqn:Hs.
  - rewrite (for_range_int _ _ _ _ z Hs). eauto.
  - unfold for_range. rewrite Hs. eauto.
  - unfold for_range. rewrite Hs.
    destruct Hends as [->| ->]; eauto.
  - unfold for_range. rewrite Hs. eauto.
Qed.

End Loop.

Section Returns.
Context {N : Type} `{JSNumber N}.

Lemma getAverageEnergy_returns (a : AudioAnalyzer N) spectrum bandName :
  ranges_end a -> exists v, _getAverageEnergy a spectrum bandName = Ok v.
Proof.
  intros (ranges & Hr & Hends). unfold _getAverageEnergy. rewrite Hr.
  destruct (ranges !! bandName) as [range|] eqn:Hl; [|eauto].
  destruct (for_range_returns (Z.of_nat (length spectrum)) range
              (fun i '(sum, count) =>
                 ((sum + spectrum_at spectrum i)%js, (count + one)%js))
              (zero, zero) (Hends _ _ Hl)) as [[sum count] ->].
  cbn [bind]. eauto.
Qed.

Lemma update_returns (a : AudioAnalyzer N) spectrum :
  ranges_end a -> exists a', update a spectrum = Ok a'.
Proof.
  intros Hends. unfold update.
  destruct (negb (fft a) || negb (isListening a)); [eauto|].
  repeat match goal with
         | |- context [bind (_getAverageEnergy a spectrum ?b) _] =>
             let v := fresh "v" in
             destruct (getAverageEnergy_returns a spectrum b Hends)
               as [v ->]; cbn [bind]
         end.
  eauto.
Qed.

End Returns.

(** ** Exact arithmetic on finite values *)

Section ExactFacts.

Lemma exact_is_zero q : Exact.is_zero (Fin q) = true <-> (q == 0)%Q.
Proof.
  unfold Exact.is_zero, Qeq. cbn [Qnum Qden]. rewrite Z.eqb_eq. lia.
Qed.

Lemma exact_div_fin a b :
  ~ (b == 0)%Q -> (Fin a / Fin b)%js = Fin (a / b)%Q.
Proof.
  intros Hb. cbn [num_div exact Exact.div].
  destruct (Exact.is_zero (Fin b)) eqn:Hz; [|reflexivity].
  apply exact_is_zero in Hz. contradiction.
Qed.

Lemma exact_lt_fin a b : (Fin a <? Fin b)%js = true <-> (a < b)%Q.
Proof.
  cbn [num_lt exact Exact.ltb]. rewrite negb_true_iff.
  rewrite <- not_true_iff_false, Qle_bool_iff. split.
  - apply Qnot_le_lt.
  - apply Qlt_not_le.
Qed.

Lemma exact_gt_fin a b : (Fin a >? Fin b)%js = true <-> (b < a)%Q.
Proof. apply exact_lt_fin. Qed.

Lemma exact_gt_fin_false a b : (Fin a >? Fin b)%js = false <-> (a <= b)%Q.
Proof.
  rewrite <- not_true_iff_false, exact_gt_fin. split.
  - apply Qnot_lt_le.
  - apply Qle_not_lt.
Qed.

End ExactFacts.

(** ** Smoothing, exactly *)

Section Smoothing.

Lemma smooth_fin s v :
  smooth (num_lit 3 10) (Fin s) (Fin v) = Fin (smoothQ s v).
Proof. reflexivity. Qed.

Lemma smooth_iter_fin n s v :
  smooth_iter n (Fin s) (Fin v) = Fin (Nat.iter n (fun s => smoothQ s v) s).
Proof.
  unfold smooth_iter. induction n as [|n IH]; [reflexivity|].
  cbn [Nat.iter nat_rect].
  fold (Nat.iter n (fun s => smooth (num_lit 3 10) s (Fin v)) (Fin s)).
  fold (Nat.iter n (fun s => smoothQ s v) s).
  rewrite IH. apply smooth_fin.
Qed.

(** The distance to the input shrinks by the factor 7/10 at each step. *)
Lemma smoothQ_distance s v : (smoothQ s v - v == (7 # 10) * (s - v))%Q.
Proof. unfold smoothQ. ring. Qed.

Lemma smoothQ_iter_distance n s v :
  (Nat.iter n (fun s => smoothQ s v) s - v
   == (7 # 10) ^ Z.of_nat n * (s - v))%Q.
Proof.
  induction n as [|n IH].
  - change (s - v == 1 * (s - v))%Q. ring.
  - cbn [Nat.iter nat_rect]. fold (Nat.iter n (fun s => smoothQ s v) s).
    rewrite smoothQ_distance, IH.
    rewrite Nat2Z.inj_succ, <- Z.add_1_r, Qpower_plus by discriminate.
    change ((7 # 10) ^ 1)%Q with (7 # 10)%Q. ring.
Qed.

Lemma pow_7_10_pos n : (0 < (7 # 10) ^ Z.of_nat n)%Q.
Proof. apply Qpower_0_lt. reflexivity. Qed.

(** Bernoulli's inequality, in the form used for the limit. *)
Lemma pow_7_10_bound n :
  ((7 # 10) ^ Z.of_nat n * (7 + 3 * inject_Z (Z.of_nat n)) <= 7)%Q.
Proof.
  induction n as [|n IH].
  - change (1 * (7 + 3 * 0) <= 7)%Q. lra.
  - rewrite Nat2Z.inj_succ, <- Z.add_1_r, Qpower_plus by discriminate.
    change ((7 # 10) ^ 1)%Q with (7 # 10)%Q.
    rewrite inject_Z_plus. change (inject_Z 1) with 1%Q.
    pose proof (pow_7_10_pos n) as Hpos.
    assert (0 <= inject_Z (Z.of_nat n))%Q as Hn.
    { change 0%Q with (inject_Z 0). rewrite <- Zle_Qle. lia. }
    nra.
Qed.

End Smoothing.

(** ** Sums over bins, exactly *)

Section ExactSums.
Variable spectrum : list Z.

Lemma spectrum_at_in_array k :
  0 <= k < Z.of_nat (length spectrum) ->
  spectrum_at (N:=xQ) spectrum k = Fin (inject_Z (magnitude spectrum k)).
Proof.
  intros [Hlo Hhi]. unfold spectrum_at, magnitude.
  destruct (lookup_lt_is_Some_2 spectrum (Z.to_nat k)) as [v ->]; [lia|].
  apply Z.leb_le in Hlo as ->.
  reflexivity.
Qed.

(** The loop of [getBandEnergy]. *)
Lemma exact_sum_fold ks qs :
  in_array spectrum ks ->
  exists qs',
    fold_left (fun sum k => (sum + spectrum_at spectrum k)%js) ks (Fin qs)
    = Fin qs' /\
    (qs' == qs + inject_Z (foldr Z.add 0%Z (magnitude spectrum <$> ks)))%Q.
Proof.
  revert qs. induction ks as [|k ks IH]; intros qs Hin.
  - exists qs. split; [reflexivity|]. cbn. ring.
  - apply list.Forall_cons in Hin as [Hk Hin]. cbn [fold_left].
    rewrite spectrum_at_in_array by assumption.
    destruct (IH (qs + inject_Z (magnitude spectrum k))%Q Hin)
      as (qs' & Heq & Hval).
    exists qs'. split; [exact Heq|].
    rewrite Hval. cbn [fmap list_fmap foldr]. rewrite inject_Z_plus. ring.
Qed.

(** The loop of [_getAverageEnergy]. *)
Lemma exact_sum_count_fold ks qs qc :
  in_array spectrum ks ->
  exists qs' qc',
    fold_left
      (fun acc k =>
         (fun '(sum, count) =>
            ((sum + spectrum_at spectrum k)%js, (count + one)%js)) acc)
      ks (Fin qs, Fin qc)
    = (Fin qs', Fin qc') /\
    (qs' == qs + inject_Z (foldr Z.add 0%Z (magnitude spectrum <$> ks)))%Q /\
    (qc' == qc + inject_Z (Z.of_nat (length ks)))%Q.
Proof.
  revert qs qc. induction ks as [|k ks IH]; intros qs qc Hin.
  - exists qs, qc. split; [reflexivity|]. cbn. split; ring.
  - apply list.Forall_cons in Hin as [Hk Hin]. cbn [fold_left].
    rewrite spectrum_at_in_array by assumption.
    destruct (IH (qs + inject_Z (magnitude spectrum k))%Q (qc + 1)%Q Hin)
      as (qs' & qc' & Heq & Hsum & Hcount).
    exists qs', qc'. split; [exact Heq|]. split.
    + rewrite Hsum. cbn [fmap list_fmap foldr]. rewrite inject_Z_plus. ring.
    + rewrite Hcount. cbn [length]. rewrite Nat2Z.inj_succ, <- Z.add_1_r.
      rewrite inject_Z_plus. change (inject_Z 1) with 1%Q. ring.
Qed.

Lemma magnitude_bounds k :
  Forall (fun v => 0 <= v <= 255) spectrum -> 0 <= magnitude spectrum k <= 255.
Proof.
  intros Hall. unfold magnitude. destruct (0 <=? k); [|lia].
  destruct (spectrum !! Z.to_nat k) as [v|] eqn:Hl; cbn; [|lia].
  rewrite list.Forall_forall in Hall. apply Hall.
  eapply list_elem_of_lookup_2. exact Hl.
Qed.

Lemma magnitude_sum_bounds ks :
  Forall (fun v => 0 <= v <= 255) spectrum ->
  0 <= foldr Z.add 0 (magnitude spectrum <$> ks)
    <= 255 * Z.of_nat (length ks).
Proof.
  intros Hall. induction ks as [|k ks IH]; cbn [fmap list_fmap foldr length].
  - lia.
  - pose proof (magnitude_bounds k Hall). lia.
Qed.

(** The bins the loops visit from a start inside the array are those the
    specification sums over. *)
Lemma bins_clamped s e :
  0 <= s ->
  seqZ s (bins_count (Z.of_nat (length spectrum)) (Int e) s) =
  seqZ (clamped_lo s) (clamped_count spectrum s e).
Proof.
  intros Hs. unfold clamped_count, clamped_hi, clamped_lo, bins_count.
  replace (Z.max 0 s) with s by lia.
  destruct (Z_lt_le_dec 0 (Z.min e (Z.of_nat (length spectrum)) - s)).
  - f_equal. lia.
  - now rewrite !seqZ_nil by lia.
Qed.

Lemma clamped_in_array s e :
  0 <= s ->
  in_array spectrum (seqZ (clamped_lo s) (clamped_count spectrum s e)).
Proof.
  intros Hs. unfold in_array. rewrite list.Forall_forall. intros k Hk.
  apply list_elem_of_lookup in Hk as [i Hi]. apply lookup_seqZ in Hi as [-> Hi].
  unfold clamped_count, clamped_hi, clamped_lo in *. lia.
Qed.

Lemma clamped_length s e :
  Z.of_nat (length (seqZ (clamped_lo s) (clamped_count spectrum s e))) =
  clamped_count spectrum s e.
Proof.
  rewrite length_seqZ. unfold clamped_count. lia.
Qed.

Lemma clamped_sum_bounds s e :
  Forall (fun v => 0 <= v <= 255) spectrum ->
  0 <= clamped_sum spectrum s e <= 255 * clamped_count spectrum s e.
Proof.
  intros Hall. unfold clamped_sum.
  pose proof (magnitude_sum_bounds
                (seqZ (clamped_lo s) (clamped_count spectrum s e)) Hall) as Hb.
  now rewrite clamped_length in Hb.
Qed.

End ExactSums.

(** ** Band energies, exactly *)

Section ExactEnergies.
Variable a : AudioAnalyzer xQ.
Variable spectrum : list Z.
Variable ranges : gmap string BinRange.
Variable bandName : string.
Variables s e : Z.
Hypothesis Hranges : binRanges a = Some ranges.
Hypothesis Hrange :
  ranges !! bandName = Some {| start := Int s; end_ := Int e |}.
Hypothesis Hstart : 0 <= s.

Lemma clamped_count_nonneg : 0 <= clamped_count spectrum s e.
Proof. unfold clamped_count. lia. Qed.

(** The value [_getAverageEnergy] returns for a range of integers that
    starts inside the array or beyond it. *)
Lemma getAverageEnergy_value :
  exists q,
    _getAverageEnergy a spectrum bandName = Ok (Fin q) /\
    (clamped_count spectrum s e = 0 -> q = 0%Q) /\
    (0 < clamped_count spectrum s e ->
     (q == inject_Z (clamped_sum spectrum s e)
           / inject_Z (clamped_count spectrum s e) / 255)%Q).
Proof.
  unfold _getAverageEnergy. rewrite Hranges, Hrange.
  rewrite (for_range_int _ {| start := Int s; end_ := Int e |} _ _ s eq_refl).
  cbn [end_ bind].
  rewrite bins_clamped by assumption.
  destruct (exact_sum_count_fold spectrum _ 0%Q 0%Q
              (clamped_in_array spectrum s e Hstart))
    as (qs & qc & Hfold & Hsum & Hcount).
  rewrite clamped_length in Hcount.
  fold (clamped_sum spectrum s e) in Hsum.
  change (zero (N:=xQ), zero (N:=xQ)) with (Fin 0, Fin 0).
  match goal with
  | |- context [fold_left ?f ?l ?i] =>
      replace (fold_left f l i) with (Fin qs, Fin qc)
        by (symmetry; etransitivity; [|exact Hfold]; reflexivity)
  end.
  change (zero (N:=xQ)) with (Fin 0). change (num_of_Z 255) with (Fin 255).
  pose proof clamped_count_nonneg as Hnn.
  destruct (Z_lt_le_dec 0 (clamped_count spectrum s e)) as [Hpos|Hzero].
  - assert (0 < qc)%Q as Hqc.
    { rewrite Hcount, Qplus_0_l. change 0%Q with (inject_Z 0).
      now rewrite <- Zlt_Qlt. }
    apply exact_gt_fin in Hqc as Hgt. rewrite Hgt.
    rewrite exact_div_fin by lra.
    rewrite exact_div_fin by (intros Heq; discriminate Heq).
    eexists. split; [reflexivity|]. split; [lia|]. intros _.
    rewrite Hsum, Hcount, !Qplus_0_l. reflexivity.
  - assert (clamped_count spectrum s e = 0) as Hc by lia.
    assert (qc <= 0)%Q as Hqc.
    { rewrite Hcount, Hc. change (inject_Z 0) with 0%Q. lra. }
    apply exact_gt_fin_false in Hqc as ->.
    exists 0%Q. split; [reflexivity|]. split; [reflexivity|lia].
Qed.

(** The value [getBandEnergy] returns for the same range. *)
Lemma getBandEnergy_value :
  fft a = true ->
  exists q,
    getBandEnergy a spectrum bandName = Ok (Fin q) /\
    (e <= s -> q = 0%Q) /\
    (s < e -> (q == inject_Z (clamped_sum spectrum s e) / inject_Z (e - s))%Q).
Proof.
  intros Hfft. unfold getBandEnergy. rewrite Hfft, Hranges, Hrange.
  cbn [negb start end_].
  rewrite (for_range_int _ {| start := Int s; end_ := Int e |} _ _ s eq_refl).
  cbn [end_ bind]. rewrite bins_clamped by assumption.
  destruct (exact_sum_fold spectrum _ 0%Q
              (clamped_in_array spectrum s e Hstart))
    as (qs & Hfold & Hsum).
  fold (clamped_sum spectrum s e) in Hsum.
  change (zero (N:=xQ)) with (Fin 0). rewrite Hfold.
  change (num_of_jsint (Int e) - num_of_jsint (Int s))%js
    with (Fin (inject_Z e - inject_Z s)).
  destruct (Z_lt_le_dec s e) as [Hlt|Hle].
  - assert (0 < inject_Z e - inject_Z s)%Q as Hpos.
    { rewrite Zlt_Qlt in Hlt. lra. }
    apply exact_gt_fin in Hpos as Hgt. rewrite Hgt.
    rewrite exact_div_fin by lra.
    eexists. split; [reflexivity|]. split; [lia|]. intros _.
    rewrite Hsum, Qplus_0_l. unfold Zminus.
    rewrite inject_Z_plus, inject_Z_opp. reflexivity.
  - assert (inject_Z e - inject_Z s <= 0)%Q as Hneg.
    { rewrite Zle_Qle in Hle. lra. }
    apply exact_gt_fin_false in Hneg as ->.
    exists 0%Q. split; [reflexivity|]. split; [reflexivity|lia].
Qed.

End ExactEnergies.

(** ** The weighted energy of a group *)

Section GroupEnergy.
Context {N : Type} `{JSNumber N}.

Lemma cycle_done_group_energy (a : AudioAnalyzer N) spectrum a' cat :
  cycle_done a spectrum a' ->
  spec_group_energy a spectrum (group_of cat) =
  Ok (cache_combined (energyCache a') cat).
Proof.
  intros [(Hd1 & Hd2 & Hd3 & Hd) (Hv1 & Hv2 & Hv3 & Hv) (Hb1 & Hb2 & Hb)
            (Hh1 & Hh2 & Hh) _ _ _ _].
  unfold spec_group_energy.
  destruct cat; cbn [group_of bands DRUMS VOCALS BASS HIGHS spec_band_energies].
  - rewrite Hd1, Hd2, Hd3. cbn [bind cache_combined]. now rewrite Hd.
  - rewrite Hv1, Hv2, Hv3. cbn [bind cache_combined]. now rewrite Hv.
  - rewrite Hb1, Hb2. cbn [bind cache_combined]. now rewrite Hb.
  - rewrite Hh1, Hh2. cbn [bind cache_combined]. now rewrite Hh.
Qed.

End GroupEnergy.

(** ** Sample runs *)

Lemma listening_at_reachable {N} `{JSNumber N} sampleRate :
  reachable (listening_at (N:=N) sampleRate).
Proof.
  exists None, None. eapply rtc_l; [|apply rtc_refl].
  apply step_startListening.
Qed.

Lemma cycles_reachable {N} `{JSNumber N} n spectrum (a : AudioAnalyzer N) :
  reachable a -> reachable (cycles n spectrum a).
Proof.
  intros (fftSize & smoothing & Hrtc). exists fftSize, smoothing.
  induction n as [|n IH]; [exact Hrtc|].
  cbn [cycles]. unfold update_or_keep.
  destruct (update (cycles n spectrum a) spectrum) as [a'|] eqn:Hu;
    [|exact IH].
  eapply rtc_r; [exact IH|]. eapply step_update. exact Hu.
Qed.

Lemma ranges_end_decide {N} `{JSNumber N} (a : AudioAnalyzer N) ranges :
  binRanges a = Some ranges ->
  bool_decide (map_Forall (fun _ range => range_ends range) ranges) = true ->
  ranges_end a.
Proof.
  intros Hr Hall. exists ranges. split; [exact Hr|].
  apply bool_decide_eq_true in Hall. exact Hall.
Qed.

(** ** Checks in binary64 *)

(** The decimal literals of the program are the floats a JavaScript engine
    reads them as. *)
Lemma binary64_literals :
  num_lit (N:=float) 3 10 = 0x1.3333333333333p-2%float /\
  num_lit (N:=float) 7 10 = 0x1.6666666666666p-1%float /\
  num_lit (N:=float) 95 100 = 0x1.e666666666666p-1%float /\
  num_lit (N:=float) 8 10 = 0x1.999999999999ap-1%float /\
  num_lit (N:=float) 5 10 = 0x1p-1%float /\
  num_lit (N:=float) 2 10 = 0x1.999999999999ap-3%float /\
  num_lit (N:=float) 4 10 = 0x1.999999999999ap-2%float /\
  num_lit (N:=float) 6 10 = 0x1.3333333333333p-1%float.
Proof. vm_compute. repeat split; reflexivity. Qed.

(** The example of the specification: the spectrum 100, 100, 0, ... over
    the bins 0 and 1 has average energy (100 + 100) / 2 / 255. *)
Lemma getAverageEnergy_binary64_example :
  _getAverageEnergy (N:=float) (listening_at 44100)
    [100; 100; 0; 0; 0; 0; 0; 0] "SUB_BASS"
  = Ok (num_lit 100 255).
Proof. vm_compute. reflexivity. Qed.

(** A range that starts below 0, as a negative transform size gives, reads
    [undefined] and the average is NaN. *)
Lemma getAverageEnergy_negative_start :
  let a : AudioAnalyzer float :=
    set_devices new_analyzer true true true
      (Some {[ "X"%string := {| start := Int (-1); end_ := Int 2 |} ]}) in
  _getAverageEnergy a [100; 100] "X" = Ok nan.
Proof. vm_compute. reflexivity. Qed.

(** Smoothing from 0 toward 1 in binary64: the distance never grows over
    200 steps, and the value settles one unit in the last place below 1. *)
Lemma smoothing_binary64_sample :
  distance_never_grows 200 (num_of_Z 0) (num_of_Z 1) = true /\
  smooth_iter (N:=float) 200 (num_of_Z 0) (num_of_Z 1)
  = 0x1.fffffffffffffp-1%float /\
  smooth_iter (N:=float) 201 (num_of_Z 0) (num_of_Z 1)
  = 0x1.fffffffffffffp-1%float.
Proof. vm_compute. repeat split; reflexivity. Qed.

(** ** Math.floor and Math.ceil in binary64

    The integer [Math.floor] returns for a finite binary64 number is the
    largest one not above the number's value, and [Math.ceil] returns the
    smallest one not below it. *)

Lemma pow2_Q e : 0 <= e -> (inject_Z (2 ^ e) == 2 ^ e)%Q.
Proof. intros He. now rewrite Zpower_Qpower. Qed.

Lemma pow2_pos_Q e : 0 <= e -> (0 < inject_Z (2 ^ e))%Q.
Proof.
  intros He. change 0%Q with (inject_Z 0). rewrite <- Zlt_Qlt.
  now apply Z.pow_pos_nonneg.
Qed.

Lemma floorZ_spec s m e :
  (inject_Z (Binary64.floorZ s m e)
   <= inject_Z (if s then Z.neg m else Z.pos m) * 2 ^ e
   < inject_Z (Binary64.floorZ s m e) + 1)%Q.
Proof.
  unfold Binary64.floorZ. set (v := if s then Z.neg m else Z.pos m).
  destruct (0 <=? e) eqn:He.
  - apply Z.leb_le in He. rewrite Z.shiftl_mul_pow2 by exact He.
    rewrite inject_Z_mult, pow2_Q by exact He. split; [apply Qle_refl|].
    set (x := (inject_Z v * 2 ^ e)%Q). lra.
  - apply Z.leb_gt in He. rewrite Z.shiftr_div_pow2 by lia.
    assert (2 ^ e == / inject_Z (2 ^ (- e)))%Q as ->.
    { rewrite pow2_Q by lia. rewrite <- Qpower_opp.
      now rewrite Z.opp_involutive. }
    pose proof (pow2_pos_Q (- e) ltac:(lia)) as Hpos.
    assert (0 < 2 ^ (- e)) as Hposz by (apply Z.pow_pos_nonneg; lia).
    set (d := 2 ^ (- e)) in *.
    pose proof (Z.mul_div_le v d Hposz) as Hle.
    pose proof (Z.mul_succ_div_gt v d Hposz) as Hgt.
    fold (Qdiv (inject_Z v) (inject_Z d)).
    split.
    + apply Qle_shift_div_l; [exact Hpos|].
      rewrite <- inject_Z_mult, <- Zle_Qle. lia.
    + apply Qlt_shift_div_r; [exact Hpos|].
      change 1%Q with (inject_Z 1). rewrite <- inject_Z_plus, <- inject_Z_mult.
      rewrite <- Zlt_Qlt. lia.
Qed.

Lemma floor_spec (x : float) :
  finite64 x = true ->
  exists z,
    Binary64.floor x = Int z /\
    (inject_Z z <= float_Q x < inject_Z z + 1)%Q.
Proof.
  unfold finite64, Binary64.floor, float_Q.
  destruct (Prim2SF x) as [sg|sg| |sg m e]; try discriminate; intros _.
  - exists 0. split; [reflexivity|]. split; [apply Qle_refl|reflexivity].
  - exists (Binary64.floorZ sg m e). split; [reflexivity|apply floorZ_spec].
Qed.

Lemma ceil_spec (x : float) :
  finite64 x = true ->
  exists z,
    Binary64.ceil x = Int z /\
    (inject_Z z - 1 < float_Q x <= inject_Z z)%Q.
Proof.
  unfold finite64, Binary64.ceil, Binary64.floor, float_Q.
  rewrite opp_spec.
  destruct (Prim2SF x) as [sg|sg| |sg m e]; try discriminate; intros _;
    cbn [SFopp].
  - exists 0. split; [reflexivity|]. split; [reflexivity|apply Qle_refl].
  - exists (- Binary64.floorZ (negb sg) m e). split; [reflexivity|].
    pose proof (floorZ_spec (negb sg) m e) as [Hlo Hhi].
    assert (inject_Z (if negb sg then Z.neg m else Z.pos m)
            == - inject_Z (if sg then Z.neg m else Z.pos m))%Q as Hopp.
    { rewrite <- inject_Z_opp. now destruct sg. }
    rewrite Hopp in Hlo, Hhi. rewrite inject_Z_opp.
    set (v := (inject_Z (if sg then Z.neg m else Z.pos m) * 2 ^ e)%Q) in *.
    set (f := inject_Z (Binary64.floorZ (negb sg) m e)) in *.
    assert (- inject_Z (if sg then Z.neg m else Z.pos m) * 2 ^ e == - v)%Q
      as Hv by (subst v; ring).
    rewrite Hv in Hlo, Hhi. split; lra.
Qed.

(** Where rounding shows: at 8000 Hz and transform size 440 the quotient
    200 / (8000 / 440) is computed as 10.999999999999998, so the drums mid
    band starts at bin 10, where the quotient of the rationals is 11; at
    16000 Hz and transform size 122 the drums high band ends at bin 62,
    where the quotient of the rationals is 61. *)
Lemma getBinRange_binary64_rounding :
  start (getBinRange (N:=float) (band "Drums Mid" 200 2000 255 100 50)
           (Some (num_of_Z 8000)) (Some (num_of_Z 440))) = Int 10 /\
  start (getBinRange (N:=xQ) (band "Drums Mid" 200 2000 255 100 50)
           (Some (num_of_Z 8000)) (Some (num_of_Z 440))) = Int 11 /\
  end_ (getBinRange (N:=float) (band "Drums High" 2000 8000 255 200 50)
          (Some (num_of_Z 16000)) (Some (num_of_Z 122))) = Int 62 /\
  end_ (getBinRange (N:=xQ) (band "Drums High" 2000 8000 255 200 50)
          (Some (num_of_Z 16000)) (Some (num_of_Z 122))) = Int 61.
Proof. vm_compute. repeat split; reflexivity. Qed.

(** * The claims *)

(** C1, as stated, fails: fed the smoothed energies 0.9, 0.9, 0.9 from a
    fresh peak state (value 0, flag false, threshold 0.7, decay 0.95), the
    detector raises the flag on all three cycles, not on the first only. *)
Lemma peak_refires_on_constant_energy :
  peak_flags (N:=float) drums [num_lit 9 10; num_lit 9 10; num_lit 9 10]
    new_analyzer
  = [true; true; true].
Proof. vm_compute. reflexivity. Qed.

(** C1, amended: for the smoothed energies 0.9, 0.9, 0.9 and any one
    category, from a fresh peak state, isPeak is true on cycles 1, 2 and 3
    and the stored peak value is 0.9 after each: the stored value has
    decayed to 0.855, below 0.9, before each comparison.  In binary64 and
    in exact arithmetic alike. *)
Theorem constant_energy_peaks_every_cycle (cat : category) :
  let e64 : float := num_lit 9 10 in
  let eQ : xQ := num_lit 9 10 in
  peak_flags cat [e64; e64; e64] new_analyzer = [true; true; true] /\
  peak_values cat [e64; e64; e64] new_analyzer = [e64; e64; e64] /\
  (e64 * peakDecay new_analyzer <? e64)%js = true /\
  peak_flags cat [eQ; eQ; eQ] new_analyzer = [true; true; true] /\
  peak_values cat [eQ; eQ; eQ] new_analyzer = [eQ; eQ; eQ] /\
  (eQ * peakDecay new_analyzer)%js = Fin (855 # 1000).
Proof.
  destruct cat; vm_compute; repeat split; reflexivity.
Qed.

(** C2, as stated, fails: with transform size 0 [getBinRange] returns the
    range from 0 to 0 for the sub bass band, and with sample rate 0 [init]
    succeeds and stores a range for it. *)
Lemma getBinRange_accepts_malformed :
  getBinRange (N:=float) (band "Sub Bass" 20 60 128 0 255)
    (Some (num_of_Z 44100)) (Some (num_of_Z 0))
  = {| start := Int 0; end_ := Int 0 |} /\
  (let '(success, a) :=
     init (N:=float) (Loaded (num_of_Z 0)) new_analyzer in
   success = true /\
   (binRanges a ≫= lookup "SUB_BASS"%string)
   = Some {| start := PInf; end_ := PInf |}).
Proof. vm_compute. repeat split; reflexivity. Qed.

(** C2, amended: for every configuration, malformed or not, the bin
    mapping raises no error: [calculateAllBinRanges] returns a map that
    holds, for each band of the table, the range [getBinRange] returns, and
    [init] succeeds with that map once the sound library has loaded. *)
Theorem bin_mapping_accepts_any_configuration {N} `{JSNumber N}
    (sampleRate fftSize : N) (name : string) (band : Band N) :
  (name, band) ∈ FrequencyBands (N:=N) ->
  calculateAllBinRanges (Some sampleRate) (Some fftSize) !! name
  = Some (getBinRange band (Some sampleRate) (Some fftSize)) /\
  init (Loaded sampleRate) (new_AudioAnalyzer (Some fftSize) None)
  = (true,
     set_devices (new_AudioAnalyzer (Some fftSize) None) true true true
       (Some (calculateAllBinRanges (Some sampleRate) (Some fftSize)))).
Proof.
  unfold FrequencyBands. intros Hin. split; [|reflexivity].
  repeat (apply elem_of_cons in Hin as [[= -> ->]|Hin]; [reflexivity|]).
  now apply elem_of_nil in Hin.
Qed.

(** C2, amended, at transform size 0 in binary64: the air band maps to the
    range from 0 to 0. *)
Lemma bin_mapping_accepts_zero_fftSize :
  calculateAllBinRanges (N:=float) (Some (num_of_Z 44100)) (Some (num_of_Z 0))
    !! "AIR"%string
  = Some {| start := Int 0; end_ := Int 0 |}.
Proof.
  refine (eq_trans
            (proj1 (bin_mapping_accepts_any_configuration
                      (num_of_Z 44100) (num_of_Z 0) "AIR"%string
                      (band "Air" 8000 20000 255 255 255) _)) _).
  - unfold FrequencyBands. set_solver.
  - vm_compute. reflexivity.
Defined.



(** C4: for every spectrum with values in [0,255] and every range of
    integers from a start that is not negative, [_getAverageEnergy] returns
    the sum of the magnitudes at the indices of [start, end) that lie in
    [0, spectrum.length), divided by the number of those indices and then
    by 255; the result lies in [0,1], and it is exactly 0 when there is no
    such index.  In exact arithmetic. *)
Theorem getAverageEnergy_clamped_mean (a : AudioAnalyzer xQ)
    (spectrum : list Z) (ranges : gmap string BinRange) (bandName : string)
    (s e : Z) :
  binRanges a = Some ranges ->
  ranges !! bandName = Some {| start := Int s; end_ := Int e |} ->
  0 <= s ->
  Forall (fun v => 0 <= v <= 255) spectrum ->
  exists q,
    _getAverageEnergy a spectrum bandName = Ok (Fin q) /\
    (clamped_count spectrum s e = 0 -> q = 0%Q) /\
    (0 < clamped_count spectrum s e ->
     (q == inject_Z (clamped_sum spectrum s e)
           / inject_Z (clamped_count spectrum s e) / 255)%Q) /\
    (0 <= q <= 1)%Q.
Proof.
  intros Hranges Hrange Hstart Hall.
  destruct (getAverageEnergy_value a spectrum ranges bandName s e
              Hranges Hrange Hstart) as (q & Hq & Hzero & Hpos).
  exists q. split; [exact Hq|]. split; [exact Hzero|]. split; [exact Hpos|].
  pose proof (clamped_count_nonneg spectrum s e) as Hnn.
  destruct (Z_lt_le_dec 0 (clamped_count spectrum s e)) as [Hc|Hc].
  - rewrite (Hpos Hc).
    pose proof (clamped_sum_bounds spectrum s e Hall) as [Hlo Hhi].
    set (sum := clamped_sum spectrum s e) in *.
    set (count := clamped_count spectrum s e) in *.
    assert (0 < inject_Z count)%Q as Hcq.
    { change 0%Q with (inject_Z 0). now rewrite <- Zlt_Qlt. }
    assert (0 <= inject_Z sum)%Q as Hsq.
    { change 0%Q with (inject_Z 0). now rewrite <- Zle_Qle. }
    assert (inject_Z sum <= 255 * inject_Z count)%Q as Hbq.
    { change 255%Q with (inject_Z 255).
      rewrite <- inject_Z_mult, <- Zle_Qle. exact Hhi. }
    split.
    + apply Qle_shift_div_l; [reflexivity|].
      apply Qle_shift_div_l; [exact Hcq|]. lra.
    + apply Qle_shift_div_r; [reflexivity|].
      apply Qle_shift_div_r; [exact Hcq|]. lra.
  - rewrite Hzero by lia. split; discriminate.
Qed.

(** C4 at the spectrum 100, 100, 0, ... and the sub bass range from 0 to
    2. *)
Lemma getAverageEnergy_clamped_mean_sub_bass :
  exists q,
    _getAverageEnergy (N:=xQ) (listening_at 44100)
      [100; 100; 0; 0; 0; 0; 0; 0] "SUB_BASS" = Ok (Fin q) /\
    (q == 200 / 2 / 255)%Q /\ (0 <= q <= 1)%Q.
Proof.
  destruct (getAverageEnergy_clamped_mean (listening_at 44100)
              [100; 100; 0; 0; 0; 0; 0; 0]
              (calculateAllBinRanges (Some (num_of_Z 44100))
                 (Some (num_of_Z 1024)))
              "SUB_BASS" 0 2)
    as (q & Hq & _ & Hmean & Hbounds).
  - reflexivity.
  - vm_compute. reflexivity.
  - lia.
  - repeat constructor; lia.
  - exists q. split; [exact Hq|]. split; [|exact Hbounds].
    apply Hmean. vm_compute. reflexivity.
Defined.

(** C5: [getBinRange] returns as start the floor of
    min / (sampleRate / fftSize) and as end the ceiling of
    max / (sampleRate / fftSize), cut to no length, the two quotients
    being the binary64 numbers the code computes: whenever they are finite,
    start is the integer with start <= min / binFrequency < start + 1 and
    end is the integer with end - 1 < max / binFrequency <= end.  At the
    band from 20 to 60 Hz, 44100 Hz and 1024 this is the range from 0 to
    2. *)
Theorem getBinRange_floor_ceil (bd : Band float) (sampleRate fftSize : float) :
  let binFrequency : float := (sampleRate / fftSize)%js in
  let lo : float := (min bd / binFrequency)%js in
  let hi : float := (max bd / binFrequency)%js in
  finite64 lo = true -> finite64 hi = true ->
  exists startIndex endIndex,
    getBinRange bd (Some sampleRate) (Some fftSize)
    = {| start := Int startIndex; end_ := Int endIndex |} /\
    (inject_Z startIndex <= float_Q lo < inject_Z startIndex + 1)%Q /\
    (inject_Z endIndex - 1 < float_Q hi <= inject_Z endIndex)%Q.
Proof.
  cbv zeta. intros Hlo Hhi.
  destruct (floor_spec _ Hlo) as (s & Hs & Hsb).
  destruct (ceil_spec _ Hhi) as (e & He & Heb).
  exists s, e. split; [|split; assumption].
  unfold getBinRange, default. cbn [from_option id].
  change (num_floor (N:=float)) with Binary64.floor.
  change (num_ceil (N:=float)) with Binary64.ceil.
  now rewrite Hs, He.
Qed.

(** C5 at the band from 20 to 60 Hz, 44100 Hz and transform size 1024:
    the two quotients are 0.46... and 1.39... *)
Lemma getBinRange_sub_bass :
  let lo : float := (num_of_Z 20 / (num_of_Z 44100 / num_of_Z 1024))%js in
  let hi : float := (num_of_Z 60 / (num_of_Z 44100 / num_of_Z 1024))%js in
  getBinRange (N:=float) (band "Sub Bass" 20 60 128 0 255)
    (Some (num_of_Z 44100)) (Some (num_of_Z 1024))
  = {| start := Int 0; end_ := Int 2 |} /\
  (inject_Z 0 <= float_Q lo < inject_Z 0 + 1)%Q /\
  (inject_Z 2 - 1 < float_Q hi <= inject_Z 2)%Q.
Proof.
  cbv zeta.
  destruct (getBinRange_floor_ceil (band "Sub Bass" 20 60 128 0 255)
              (num_of_Z 44100) (num_of_Z 1024))
    as (s & e & Hrange & Hlo & Hhi).
  - vm_compute. reflexivity.
  - vm_compute. reflexivity.
  - assert (getBinRange (N:=float) (band "Sub Bass" 20 60 128 0 255)
              (Some (num_of_Z 44100)) (Some (num_of_Z 1024))
            = {| start := Int 0; end_ := Int 2 |}) as Hvalue
        by (vm_compute; reflexivity).
    rewrite Hvalue in Hrange. injection Hrange as <- <-.
    split; [exact Hvalue|]. split; [exact Hlo | exact Hhi].
Defined.

(** The same band in binary64, and a band whose end lies far beyond a
    spectrum of 1024 bins. *)
Lemma getBinRange_binary64_examples :
  getBinRange (N:=float) (band "Sub Bass" 20 60 128 0 255)
    (Some (num_of_Z 44100)) (Some (num_of_Z 1024))
  = {| start := Int 0; end_ := Int 2 |} /\
  getBinRange (N:=float) (band "Air" 8000 20000 255 255 255)
    (Some (num_of_Z 8000)) (Some (num_of_Z 1024))
  = {| start := Int 1024; end_ := Int 2560 |}.
Proof. vm_compute. split; reflexivity. Qed.

(** C6: in a cycle while listening, in any reachable state, the smoothed
    energy of every category is updated once, to
    smoothed + (raw - smoothed) * 0.3, where raw is the weighted combined
    energy of the category computed in that cycle; the cycle returns
    whenever the loops over the ranges end. *)
Theorem update_smooths_once {N} `{JSNumber N} (a : AudioAnalyzer N)
    (spectrum : list Z) :
  reachable a -> isListening a = true -> ranges_end a ->
  exists a',
    update a spectrum = Ok a' /\
    forall cat,
      let raw := cache_combined (energyCache a') cat in
      spec_group_energy a spectrum (group_of cat) = Ok raw /\
      smoothedEnergy a' cat =
        (smoothedEnergy a cat + (raw - smoothedEnergy a cat) * num_lit 3 10)%js.
Proof.
  intros Hreach Hlistening Hends.
  destruct (reachable_listening a Hreach Hlistening) as [Hfft _].
  destruct (update_returns a spectrum Hends) as [a' Hu].
  exists a'. split; [exact Hu|]. intros cat. cbv zeta.
  pose proof (update_listening a spectrum a' Hfft Hlistening Hu) as Hdone.
  split.
  - now apply cycle_done_group_energy.
  - apply (done_smoothed _ _ _ Hdone).
Qed.

(** C6 at the first cycle of an analyzer listening at 44100 Hz, in
    binary64. *)
Lemma update_smooths_once_at_44100 :
  exists a',
    update (N:=float) (listening_at 44100) [100; 100; 0; 0; 0; 0; 0; 0]
    = Ok a' /\
    forall cat,
      let raw := cache_combined (energyCache a') cat in
      spec_group_energy (listening_at 44100) [100; 100; 0; 0; 0; 0; 0; 0]
        (group_of cat) = Ok raw /\
      smoothedEnergy a' cat =
        (smoothedEnergy (listening_at 44100) cat
         + (raw - smoothedEnergy (listening_at 44100) cat) * num_lit 3 10)%js.
Proof.
  apply update_smooths_once.
  - apply listening_at_reachable.
  - reflexivity.
  - eapply ranges_end_decide; [reflexivity|]. vm_compute. reflexivity.
Defined.

(** C8: when the analyzer is not listening, [update] returns at once with
    the state as it was: energy cache, smoothed energies, peak states,
    energy history and history cursor, like every other field. *)
Theorem update_noop_when_not_listening {N} `{JSNumber N}
    (a : AudioAnalyzer N) (spectrum : list Z) :
  isListening a = false -> update a spectrum = Ok a.
Proof.
  intros Hl. unfold update. rewrite Hl, orb_true_r. reflexivity.
Qed.

(** C8 at an analyzer stopped after four cycles, in binary64. *)
Lemma update_noop_after_stopListening :
  update (N:=float)
    (stopListening (cycles 4 (replicate 1024 255) (listening_at 44100)))
    (replicate 1024 255)
  = Ok (stopListening (cycles 4 (replicate 1024 255) (listening_at 44100))).
Proof.
  apply update_noop_when_not_listening. vm_compute. reflexivity.
Defined.

(** C9: in every state reachable from a fresh analyzer, so after every
    cycle, for every category, a raised isPeak flag in the peak state that
    [getPeaks] publishes comes with a peak value equal to the category's
    current smoothed energy, and that energy is strictly above the
    threshold 0.7. *)
Theorem peak_flag_invariant {N} `{JSNumber N} (a : AudioAnalyzer N)
    (cat : category) :
  reachable a ->
  isPeak (getPeaks a cat) = true ->
  value (getPeaks a cat) = smoothedEnergy a cat /\
  (smoothedEnergy a cat >? num_lit 7 10)%js = true.
Proof.
  intros Hreach. apply reachable_invariant in Hreach as [_ Hc]. apply Hc.
Qed.

(** C9 after four cycles on a spectrum at full scale, where the flag of
    the drums is raised. *)
Lemma peak_flag_invariant_after_loud_cycles :
  value (getPeaks (cycles (N:=float) 4 (replicate 1024 255)
                  (listening_at 44100)) drums)
  = smoothedEnergy (cycles (N:=float) 4 (replicate 1024 255)
                      (listening_at 44100)) drums /\
  (smoothedEnergy (cycles (N:=float) 4 (replicate 1024 255)
                     (listening_at 44100)) drums >? num_lit 7 10)%js = true.
Proof.
  apply peak_flag_invariant.
  - apply cycles_reachable, listening_at_reachable.
  - vm_compute. reflexivity.
Defined.

(** C10, as stated, fails: on a silent spectrum of 512 bins at 22050 Hz the
    range of the air band ends at 929, beyond the spectrum, and
    [getBandEnergy] still equals 255 times the average of
    [_getAverageEnergy]: both are 0. *)
Lemma getBandEnergy_agrees_on_silence :
  let a : AudioAnalyzer float := listening_at 22050 in
  let spectrum := replicate 512 0 in
  binRanges a ≫= lookup "AIR"%string
  = Some {| start := Int 371; end_ := Int 929 |} /\
  Z.of_nat (length spectrum) = 512 /\
  getBandEnergy a spectrum "AIR" = Ok zero /\
  _getAverageEnergy a spectrum "AIR" = Ok zero /\
  (num_of_Z 255 * zero)%js = zero (N:=float).
Proof. vm_compute. repeat split; reflexivity. Qed.

(** C10, amended: [getBandEnergy] returns the sum of the spectrum values at
    the indices of [start, min(end, spectrum.length)) divided by the
    unclamped width end - start, with no division by 255, so it reports on
    the scale from 0 to 255; it returns 0 when end <= start or the band name
    is unknown; and whenever the end exceeds spectrum.length and that sum is
    not zero, its result differs from 255 times the clamped average of
    [_getAverageEnergy].  In exact arithmetic, for a start that is not
    negative. *)
Theorem getBandEnergy_unclamped_mean (a : AudioAnalyzer xQ)
    (spectrum : list Z) (ranges : gmap string BinRange) (bandName : string) :
  fft a = true -> binRanges a = Some ranges ->
  (ranges !! bandName = None ->
   getBandEnergy a spectrum bandName = Ok (Fin 0)) /\
  forall s e,
    ranges !! bandName = Some {| start := Int s; end_ := Int e |} ->
    0 <= s ->
    exists q,
      getBandEnergy a spectrum bandName = Ok (Fin q) /\
      (e <= s -> q = 0%Q) /\
      (s < e ->
       (q == inject_Z (clamped_sum spectrum s e) / inject_Z (e - s))%Q) /\
      (Forall (fun v => 0 <= v <= 255) spectrum -> (0 <= q <= 255)%Q) /\
      (Z.of_nat (length spectrum) < e -> clamped_sum spectrum s e <> 0 ->
       exists qa,
         _getAverageEnergy a spectrum bandName = Ok (Fin qa) /\
         ~ (q == 255 * qa)%Q).
Proof.
  intros Hfft Hranges. split.
  { intros Hnone. unfold getBandEnergy. now rewrite Hfft, Hranges, Hnone. }
  intros s e Hrange Hstart.
  destruct (getBandEnergy_value a spectrum ranges bandName s e
              Hranges Hrange Hstart Hfft) as (q & Hq & Hzero & Hmean).
  exists q. split; [exact Hq|]. split; [exact Hzero|]. split; [exact Hmean|].
  pose proof (clamped_count_nonneg spectrum s e) as Hnn.
  assert (clamped_count spectrum s e <= Z.max 0 (e - s)) as Hwidth.
  { unfold clamped_count, clamped_hi, clamped_lo. lia. }
  split.
  - intros Hall.
    destruct (Z_lt_le_dec s e) as [Hlt|Hle];
      [|rewrite Hzero by exact Hle; split; discriminate].
    rewrite (Hmean Hlt).
    pose proof (clamped_sum_bounds spectrum s e Hall) as [Hlo Hhi].
    set (sum := clamped_sum spectrum s e) in *.
    assert (0 < inject_Z (e - s))%Q as Hwq.
    { change 0%Q with (inject_Z 0). rewrite <- Zlt_Qlt. lia. }
    assert (0 <= inject_Z sum)%Q as Hsq.
    { change 0%Q with (inject_Z 0). now rewrite <- Zle_Qle. }
    assert (inject_Z sum <= 255 * inject_Z (e - s))%Q as Hbq.
    { change 255%Q with (inject_Z 255).
      rewrite <- inject_Z_mult, <- Zle_Qle. lia. }
    split.
    + apply Qle_shift_div_l; [exact Hwq|]. lra.
    + apply Qle_shift_div_r; [exact Hwq|]. exact Hbq.
  - intros Hbeyond Hsum.
    destruct (getAverageEnergy_value a spectrum ranges bandName s e
                Hranges Hrange Hstart) as (qa & Hqa & _ & Hmean_a).
    exists qa. split; [exact Hqa|].
    assert (0 < clamped_count spectrum s e) as Hcount.
    { destruct (Z_lt_le_dec 0 (clamped_count spectrum s e)) as [|Hc];
        [assumption|].
      exfalso. apply Hsum. unfold clamped_sum.
      now rewrite seqZ_nil by exact Hc. }
    assert (clamped_count spectrum s e < e - s) as Hless.
    { unfold clamped_count, clamped_hi, clamped_lo in *. lia. }
    rewrite (Hmean ltac:(lia)), (Hmean_a Hcount).
    set (sum := inject_Z (clamped_sum spectrum s e)).
    set (count := inject_Z (clamped_count spectrum s e)).
    set (width := inject_Z (e - s)).
    assert (0 < count)%Q as Hcq.
    { subst count. change 0%Q with (inject_Z 0). now rewrite <- Zlt_Qlt. }
    assert (count < width)%Q as Hwq.
    { subst count width. now rewrite <- Zlt_Qlt. }
    assert (~ sum == 0)%Q as Hsq.
    { subst sum. change 0%Q with (inject_Z 0). now rewrite inject_Z_injective. }
    intros Heq.
    assert (sum * count == sum * width)%Q as Hcross.
    { assert (sum * count == sum / width * (width * count))%Q as ->
        by (field; lra).
      rewrite Heq. field. lra. }
    assert (sum * (width - count) == 0)%Q as Hprod by lra.
    apply Qmult_integral in Hprod as [Hs0|Hd0]; [contradiction|lra].
Qed.

(** C10, amended, at the spectrum 7, 9, 200 and the bass range from 1 to
    6, which ends beyond the spectrum. *)
Lemma getBandEnergy_unclamped_mean_bass :
  exists q qa,
    getBandEnergy (N:=xQ) (listening_at 44100) [7; 9; 200] "BASS"
    = Ok (Fin q) /\
    (q == 209 / 5)%Q /\
    _getAverageEnergy (N:=xQ) (listening_at 44100) [7; 9; 200] "BASS"
    = Ok (Fin qa) /\
    ~ (q == 255 * qa)%Q.
Proof.
  destruct (getBandEnergy_unclamped_mean (listening_at 44100) [7; 9; 200]
              (calculateAllBinRanges (Some (num_of_Z 44100))
                 (Some (num_of_Z 1024)))
              "BASS" eq_refl eq_refl) as [_ Hrange].
  destruct (Hrange 1 6) as (q & Hq & _ & Hmean & _ & Hdiff).
  - vm_compute. reflexivity.
  - lia.
  - destruct Hdiff as (qa & Hqa & Hne).
    + vm_compute. reflexivity.
    + vm_compute. discriminate.
    + exists q, qa. split; [exact Hq|]. split; [|split; assumption].
      apply Hmean. lia.
Defined.

(** * Further properties *)

(** ** The energy history *)

Section History.
Context {N : Type} `{JSNumber N}.

Lemma typed_store_length (array : list N) i v :
  length (typed_store array i v) = length array.
Proof.
  unfold typed_store. destruct (0 <=? i); [apply length_insert|reflexivity].
Qed.

Lemma typed_store_same (array : list N) i v :
  0 <= i < Z.of_nat (length array) ->
  typed_store array i v !! Z.to_nat i = Some (num_fround v).
Proof.
  intros [Hlo Hhi]. unfold typed_store.
  apply Z.leb_le in Hlo as Hb. rewrite Hb.
  apply list_lookup_insert_eq. lia.
Qed.

Lemma typed_store_other (array : list N) i j v :
  0 <= j -> i <> j ->
  typed_store array i v !! Z.to_nat j = array !! Z.to_nat j.
Proof.
  intros Hj Hne. unfold typed_store.
  destruct (0 <=? i) eqn:Hi; [|reflexivity].
  apply Z.leb_le in Hi. apply list_lookup_insert_ne. lia.
Qed.

Lemma new_history_ok fftSize smoothing :
  history_ok (new_AudioAnalyzer (N:=N) fftSize smoothing).
Proof.
  unfold history_ok. cbn. rewrite !length_replicate. repeat split; lia.
Qed.

Lemma same_signal_history_ok (a a' : AudioAnalyzer N) :
  same_signal a a' -> historySize a' = historySize a ->
  history_ok a -> history_ok a'.
Proof.
  intros (_ & _ & _ & _ & _ & Hi & He) Hs. unfold history_ok.
  now rewrite Hs, Hi, He.
Qed.

Lemma cycle_done_history_ok (a : AudioAnalyzer N) spectrum a' :
  cycle_done a spectrum a' -> history_ok a -> history_ok a'.
Proof.
  intros [_ _ _ _ _ (Hi & Hd & Hb) _ Hsetup] (Hsize & Hidx & Hld & Hlb).
  destruct Hsetup as (_ & _ & _ & _ & _ & _ & _ & _ & _ & Hs).
  unfold history_ok. rewrite Hs, Hi, Hd, Hb, !typed_store_length, Hsize.
  repeat split; try assumption.
  - apply Z.rem_nonneg; lia.
  - apply Z.rem_bound_pos; lia.
Qed.

Lemma update_history_ok (a : AudioAnalyzer N) spectrum a' :
  update a spectrum = Ok a' -> history_ok a -> history_ok a'.
Proof.
  intros Hu Hok.
  destruct (fft a) eqn:Hf; [destruct (isListening a) eqn:Hl|].
  - eapply cycle_done_history_ok; [|exact Hok].
    eapply update_listening; eassumption.
  - rewrite update_not_listening in Hu by auto. congruence.
  - rewrite update_not_listening in Hu by auto. congruence.
Qed.

Lemma step_history_ok (a a' : AudioAnalyzer N) :
  step a a' -> history_ok a -> history_ok a'.
Proof.
  intros Hstep. destruct Hstep.
  - apply same_signal_history_ok; [apply init_same_signal|].
    unfold init. destruct (isInitialized a); [reflexivity|].
    destruct env; reflexivity.
  - apply same_signal_history_ok; [apply startListening_same_signal|].
    unfold startListening, init.
    destruct (isInitialized a); cbn [negb];
      [|destruct env; cbn [negb]];
      try reflexivity;
      match goal with
      | |- context [if ?c then _ else _] => destruct c; reflexivity
      end.
  - apply same_signal_history_ok; [apply stopListening_same_signal|].
    unfold stopListening. destruct (_ && _); reflexivity.
  - eapply update_history_ok; eassumption.
  - apply same_signal_history_ok; [apply dispose_same_signal|].
    unfold dispose, stopListening. destruct (_ && _); reflexivity.
Qed.

Lemma reachable_history_ok (a : AudioAnalyzer N) :
  reachable a -> history_ok a.
Proof.
  intros (fftSize & smoothing & Hrtc).
  revert a Hrtc. apply rtc_ind_r.
  - apply new_history_ok.
  - intros a1 a2 _ Hstep IH. eapply step_history_ok; eassumption.
Qed.

Lemma update_recording (a : AudioAnalyzer N) spectrum a' :
  recording a -> update a spectrum = Ok a' ->
  recording a' /\
  historyIndex a' = (historyIndex a + 1) mod 43 /\
  history_drums (energyHistory a') =
    typed_store (history_drums (energyHistory a)) (historyIndex a)
      (cache_combined (energyCache a') drums) /\
  history_bass (energyHistory a') =
    typed_store (history_bass (energyHistory a)) (historyIndex a)
      (cache_combined (energyCache a') bass).
Proof.
  intros (Hf & Hl & Hok) Hu.
  pose proof (update_listening a spectrum a' Hf Hl Hu) as Hdone.
  pose proof (cycle_done_history_ok a spectrum a' Hdone Hok) as Hok'.
  destruct Hdone as [_ _ _ _ _ (Hi & Hd & Hb) _ Hsetup].
  destruct Hsetup as (_ & _ & Hf' & _ & _ & Hl' & _).
  destruct Hok as (Hsize & Hidx & _).
  split; [split; [congruence|split; [congruence|exact Hok']]|].
  split; [|split; assumption].
  rewrite Hi, Hsize. apply Z.rem_mod_nonneg; lia.
Qed.

Lemma final_cons (a a' : AudioAnalyzer N) later :
  final a (a' :: later) = final a' later.
Proof. reflexivity. Qed.

(** A slot no cycle of the run points at keeps its value. *)
Lemma history_slot_kept (a : AudioAnalyzer N) spectra states i :
  recording a -> update_each a spectra = Ok states ->
  0 <= i ->
  (forall j, 0 <= j < Z.of_nat (length spectra) ->
             (historyIndex a + j) mod 43 <> i) ->
  history_drums (energyHistory (final a states)) !! Z.to_nat i
  = history_drums (energyHistory a) !! Z.to_nat i /\
  history_bass (energyHistory (final a states)) !! Z.to_nat i
  = history_bass (energyHistory a) !! Z.to_nat i.
Proof.
  revert a states.
  induction spectra as [|spectrum spectra IH]; intros a states Hrec Hrun Hi Hj.
  - injection Hrun as <-. now split.
  - cbn [update_each] in Hrun.
    destruct (update a spectrum) as [a'|] eqn:Hu; [|discriminate].
    cbn [bind] in Hrun.
    destruct (update_each a' spectra) as [later|] eqn:Hlater; [|discriminate].
    injection Hrun as <-. rewrite final_cons.
    destruct (update_recording a spectrum a' Hrec Hu)
      as (Hrec' & Hidx & Hd & Hb).
    destruct Hrec as (_ & _ & _ & Hrange & _).
    assert (historyIndex a <> i) as Hne.
    { specialize (Hj 0). rewrite Z.add_0_r, Z.mod_small in Hj by lia.
      apply Hj. cbn [length]. lia. }
    destruct (IH a' later Hrec' Hlater Hi) as [Hkd Hkb].
    { intros j Hjr. rewrite Hidx, Zplus_mod_idemp_l.
      replace (historyIndex a + 1 + j) with (historyIndex a + (j + 1)) by lia.
      apply Hj. cbn [length]. lia. }
    rewrite Hkd, Hkb, Hd, Hb.
    split; apply typed_store_other; assumption.
Qed.

Lemma update_each_length (a : AudioAnalyzer N) spectra states :
  update_each a spectra = Ok states -> length states = length spectra.
Proof.
  revert a states. induction spectra as [|spectrum spectra IH];
    intros a states Hrun.
  - now injection Hrun as <-.
  - cbn [update_each] in Hrun.
    destruct (update a spectrum) as [a'|]; [|discriminate]. cbn [bind] in Hrun.
    destruct (update_each a' spectra) as [later|] eqn:Hl; [|discriminate].
    injection Hrun as <-. cbn [length]. f_equal. eauto.
Qed.

(** The buffers as a ring: the cursor after a run, and the slots that hold
    the values of the last 43 cycles. *)
Lemma history_ring_recording (a : AudioAnalyzer N) spectra states :
  recording a -> update_each a spectra = Ok states ->
  historyIndex (final a states)
  = (historyIndex a + Z.of_nat (length spectra)) mod 43 /\
  forall j b,
    states !! j = Some b -> (length states - j <= 43)%nat ->
    let slot := Z.to_nat ((historyIndex a + Z.of_nat j) mod 43) in
    history_drums (energyHistory (final a states)) !! slot
    = Some (num_fround (cache_combined (energyCache b) drums)) /\
    history_bass (energyHistory (final a states)) !! slot
    = Some (num_fround (cache_combined (energyCache b) bass)).
Proof.
  revert a states.
  induction spectra as [|spectrum spectra IH]; intros a states Hrec Hrun.
  - injection Hrun as <-. split.
    + destruct Hrec as (_ & _ & _ & Hrange & _).
      cbn. rewrite Z.add_0_r, Z.mod_small by lia. reflexivity.
    + intros j b Hjb. now rewrite lookup_nil in Hjb.
  - cbn [update_each] in Hrun.
    destruct (update a spectrum) as [a'|] eqn:Hu; [|discriminate].
    cbn [bind] in Hrun.
    destruct (update_each a' spectra) as [later|] eqn:Hlater; [|discriminate].
    injection Hrun as <-. rewrite final_cons.
    destruct (update_recording a spectrum a' Hrec Hu)
      as (Hrec' & Hidx & Hd & Hb).
    destruct (IH a' later Hrec' Hlater) as [Hcursor Hslots].
    pose proof (update_each_length a' spectra later Hlater) as Hlen.
    destruct Hrec as (_ & _ & _ & Hrange & Hld & Hlb).
    split.
    + rewrite Hcursor, Hidx, Zplus_mod_idemp_l. f_equal. cbn [length]. lia.
    + intros [|j] b Hjb Hlast; cbv zeta.
      * injection Hjb as <-.
        rewrite Z.add_0_r, Z.mod_small by lia.
        destruct (history_slot_kept a' spectra later (historyIndex a)
                    Hrec' Hlater) as [Hkd Hkb]; [lia| |].
        { intros k Hk. rewrite Hidx, Zplus_mod_idemp_l.
          cbn [length] in Hlast.
          assert (k < 42) by lia.
          intros Heq.
          assert ((historyIndex a + 1 + k) mod 43
                  = (historyIndex a + 1 + k)
                    - 43 * ((historyIndex a + 1 + k) / 43)) as Hmod
            by (rewrite Z.mod_eq; lia).
          assert (0 <= (historyIndex a + 1 + k) / 43 <= 1) as Hq.
          { split; [apply Z.div_pos; lia|].
            apply Z.lt_succ_r, Z.div_lt_upper_bound; lia. }
          lia. }
        rewrite Hkd, Hkb, Hd, Hb.
        split; apply typed_store_same; lia.
      * cbn [lookup list_lookup] in Hjb. cbn [length] in Hlast.
        destruct (Hslots j b Hjb) as [Hsd Hsb]; [lia|].
        cbv zeta in Hsd, Hsb.
        rewrite Hidx, Zplus_mod_idemp_l in Hsd, Hsb.
        replace (historyIndex a + Z.of_nat (S j))
          with (historyIndex a + 1 + Z.of_nat j) by lia.
        now split.
Qed.

End History.

(** ** Where the bin ranges come from *)

Section Ranges.
Context {N : Type} `{JSNumber N}.

(** The keys of the map are the names of the table, each with the range of
    its band. *)
Lemma calculateAllBinRanges_lookup_Some (sampleRate fftSize : N) bandName r :
  calculateAllBinRanges (Some sampleRate) (Some fftSize) !! bandName = Some r ->
  exists band,
    (bandName, band) ∈ FrequencyBands (N:=N) /\
    r = getBinRange band (Some sampleRate) (Some fftSize).
Proof.
  unfold calculateAllBinRanges, FrequencyBands. cbn [fold_left default from_option id].
  intros Hl.
  repeat (apply lookup_insert_Some in Hl as [[<- <-]|[_ Hl]];
          [eexists; split; [|reflexivity]; set_solver|]).
  now rewrite lookup_empty in Hl.
Qed.

Lemma calculateAllBinRanges_lookup_None (sampleRate fftSize : N) bandName :
  bandName ∉ (FrequencyBands (N:=N)).*1 ->
  calculateAllBinRanges (Some sampleRate) (Some fftSize) !! bandName = None.
Proof.
  intros Hnot.
  destruct (calculateAllBinRanges (Some sampleRate) (Some fftSize) !! bandName)
    as [r|] eqn:Hl; [|reflexivity].
  apply calculateAllBinRanges_lookup_Some in Hl as (band & Hin & _).
  exfalso. apply Hnot. apply list_elem_of_fmap. now exists (bandName, band).
Qed.

Lemma init_ranges_from_table env (a : AudioAnalyzer N) :
  ranges_from_table a -> ranges_from_table (snd (init env a)).
Proof.
  intros Hr. unfold init. destruct (isInitialized a); [exact Hr|].
  destruct env; cbn [snd]; try exact Hr.
  intros ranges [= <-]. now exists sampleRate.
Qed.

Lemma same_ranges_from_table (a a' : AudioAnalyzer N) :
  binRanges a' = binRanges a -> fftSize a' = fftSize a ->
  ranges_from_table a -> ranges_from_table a'.
Proof. unfold ranges_from_table. intros -> ->. auto. Qed.

Lemma step_ranges_from_table (a a' : AudioAnalyzer N) :
  step a a' -> ranges_from_table a -> ranges_from_table a'.
Proof.
  intros Hstep Hr. destruct Hstep as [env a|env micStarts a|a|a spectrum a' Hu|a].
  - now apply init_ranges_from_table.
  - unfold startListening.
    destruct (isInitialized a) eqn:Hi; cbn [negb].
    + destruct (_ && _); cbn [snd]; exact Hr.
    + pose proof (init_ranges_from_table env a Hr) as Hr'.
      destruct (init env a) as [success a1]. cbn [snd] in Hr'.
      destruct (negb success); [exact Hr'|].
      destruct (_ && _); cbn [snd]; exact Hr'.
  - unfold stopListening. destruct (_ && _); exact Hr.
  - destruct (fft a) eqn:Hf; [destruct (isListening a) eqn:Hl|].
    + destruct (update_listening a spectrum a' Hf Hl Hu)
        as [_ _ _ _ _ _ _ (Hs & _ & _ & _ & _ & _ & Hb & _)].
      eapply same_ranges_from_table; eassumption.
    + rewrite update_not_listening in Hu by auto.
      injection Hu as <-. exact Hr.
    + rewrite update_not_listening in Hu by auto.
      injection Hu as <-. exact Hr.
  - unfold dispose, stopListening. destruct (_ && _); exact Hr.
Qed.

Lemma reachable_ranges_from_table (a : AudioAnalyzer N) :
  reachable a -> ranges_from_table a.
Proof.
  intros (fftSize & smoothing & Hrtc).
  revert a Hrtc. apply rtc_ind_r.
  - intros ranges Hr. discriminate Hr.
  - intros a1 a2 _ Hstep IH. eapply step_ranges_from_table; eassumption.
Qed.

End Ranges.

(** ** Bin ranges of a well-formed configuration *)

Section ValidRanges.

Lemma getBinRange_exact (bd : Band xQ) (lo hi sampleRate fftSize : Q) :
  min bd = Fin lo -> max bd = Fin hi ->
  (0 < sampleRate)%Q -> (0 < fftSize)%Q ->
  getBinRange bd (Some (Fin sampleRate)) (Some (Fin fftSize))
  = {| start := Int (Qfloor (lo / (sampleRate / fftSize)));
       end_ := Int (Qceiling (hi / (sampleRate / fftSize))) |}.
Proof.
  intros Hmin Hmax Hsr Hfft.
  assert (0 < sampleRate / fftSize)%Q as Hbin.
  { apply Qlt_shift_div_l; [exact Hfft|]. lra. }
  unfold getBinRange, default. cbn [from_option id]. rewrite Hmin, Hmax.
  rewrite (exact_div_fin sampleRate fftSize) by lra.
  rewrite !exact_div_fin by lra. reflexivity.
Qed.

Lemma floor_lt_ceiling (x y : Q) :
  (0 <= x)%Q -> (x < y)%Q -> 0 <= Qfloor x < Qceiling y.
Proof.
  intros Hx Hxy. split.
  - change 0 with (Qfloor 0). now apply Qfloor_resp_le.
  - rewrite Zlt_Qlt.
    eapply Qle_lt_trans; [apply Qfloor_le|].
    eapply Qlt_le_trans; [exact Hxy|apply Qle_ceiling].
Qed.

Lemma getBinRange_valid (bd : Band xQ) (lo hi sampleRate fftSize : Q) :
  min bd = Fin lo -> max bd = Fin hi ->
  (0 <= lo)%Q -> (lo < hi)%Q ->
  (0 < sampleRate)%Q -> (0 < fftSize)%Q ->
  valid_range (getBinRange bd (Some (Fin sampleRate)) (Some (Fin fftSize))).
Proof.
  intros Hmin Hmax Hlo Hlt Hsr Hfft.
  rewrite (getBinRange_exact bd lo hi) by assumption.
  assert (0 < sampleRate / fftSize)%Q as Hbin.
  { apply Qlt_shift_div_l; [exact Hfft|]. lra. }
  eexists _, _. split; [reflexivity|].
  set (bf := (sampleRate / fftSize)%Q) in *.
  apply floor_lt_ceiling.
  - apply Qle_shift_div_l; [exact Hbin|]. lra.
  - apply Qlt_shift_div_l; [exact Hbin|].
    assert (lo / bf * bf == lo)%Q as -> by (field; lra).
    exact Hlt.
Qed.

(** Every band of the table runs from a frequency that is not negative to
    a higher one. *)
Lemma FrequencyBands_ordered bandName (bd : Band xQ) :
  (bandName, bd) ∈ FrequencyBands (N:=xQ) ->
  exists lo hi,
    min bd = Fin lo /\ max bd = Fin hi /\ (0 <= lo)%Q /\ (lo < hi)%Q.
Proof.
  unfold FrequencyBands. intros Hin.
  repeat (apply elem_of_cons in Hin as [[= -> ->]|Hin];
          [eexists _, _; split; [reflexivity|]; split; [reflexivity|];
           split; [unfold Qle; cbn; lia | unfold Qlt; cbn; lia]|]).
  now apply elem_of_nil in Hin.
Qed.

Lemma calculateAllBinRanges_valid (sampleRate fftSize : Q) bandName range :
  (0 < sampleRate)%Q -> (0 < fftSize)%Q ->
  calculateAllBinRanges (Some (Fin sampleRate)) (Some (Fin fftSize))
    !! bandName = Some range ->
  valid_range range.
Proof.
  intros Hsr Hfft Hl.
  apply calculateAllBinRanges_lookup_Some in Hl as (bd & Hin & ->).
  destruct (FrequencyBands_ordered bandName bd Hin)
    as (lo & hi & Hmin & Hmax & Hlo & Hlt).
  now apply (getBinRange_valid bd lo hi).
Qed.

End ValidRanges.

(** ** Energies of a well-formed configuration *)

Section BoundedEnergies.

Lemma unit_interval_zero : unit_interval (zero (N:=xQ)).
Proof. exists 0%Q. split; [reflexivity|]. lra. Qed.

Lemma mean_in_unit_interval (sum count : Z) :
  0 < count -> 0 <= sum <= 255 * count ->
  (0 <= inject_Z sum / inject_Z count / 255 <= 1)%Q.
Proof.
  intros Hc [Hlo Hhi].
  assert (0 < inject_Z count)%Q as Hcq.
  { change 0%Q with (inject_Z 0). now rewrite <- Zlt_Qlt. }
  assert (0 <= inject_Z sum)%Q as Hsq.
  { change 0%Q with (inject_Z 0). now rewrite <- Zle_Qle. }
  assert (inject_Z sum <= 255 * inject_Z count)%Q as Hbq.
  { change 255%Q with (inject_Z 255).
    rewrite <- inject_Z_mult, <- Zle_Qle. exact Hhi. }
  split.
  - apply Qle_shift_div_l; [reflexivity|].
    apply Qle_shift_div_l; [exact Hcq|]. lra.
  - apply Qle_shift_div_r; [reflexivity|].
    apply Qle_shift_div_r; [exact Hcq|]. lra.
Qed.

Lemma getAverageEnergy_unit (a : AudioAnalyzer xQ) spectrum bandName v :
  ranges_valid a ->
  Forall (fun v => 0 <= v <= 255) spectrum ->
  _getAverageEnergy a spectrum bandName = Ok v ->
  unit_interval v.
Proof.
  intros Hvalid Hall Hv.
  destruct (binRanges a) as [ranges|] eqn:Hr;
    [|unfold _getAverageEnergy in Hv; rewrite Hr in Hv; discriminate].
  destruct (ranges !! bandName) as [range|] eqn:Hl.
  - destruct (Hvalid ranges Hr bandName range Hl) as (s & e & -> & Hs & _).
    destruct (getAverageEnergy_value a spectrum ranges bandName s e Hr Hl Hs)
      as (q & Hq & Hzero & Hpos).
    rewrite Hq in Hv. injection Hv as <-. exists q. split; [reflexivity|].
    pose proof (clamped_count_nonneg spectrum s e) as Hnn.
    destruct (Z_lt_le_dec 0 (clamped_count spectrum s e)) as [Hc|Hc].
    + rewrite (Hpos Hc). apply mean_in_unit_interval; [exact Hc|].
      now apply clamped_sum_bounds.
    + rewrite Hzero by lia. lra.
  - unfold _getAverageEnergy in Hv. rewrite Hr, Hl in Hv.
    injection Hv as <-. apply unit_interval_zero.
Qed.

Lemma weighted_DRUMS_unit (l m h : xQ) :
  unit_interval l -> unit_interval m -> unit_interval h ->
  unit_interval (_calculateWeightedEnergy [l; m; h] (weights DRUMS)).
Proof.
  intros (ql & -> & Hl) (qm & -> & Hm) (qh & -> & Hh).
  eexists. split; [reflexivity|]. change (inject_Z 0) with 0%Q.
  lra.
Qed.

Lemma weighted_VOCALS_unit (l m h : xQ) :
  unit_interval l -> unit_interval m -> unit_interval h ->
  unit_interval (_calculateWeightedEnergy [l; m; h] (weights VOCALS)).
Proof.
  intros (ql & -> & Hl) (qm & -> & Hm) (qh & -> & Hh).
  eexists. split; [reflexivity|]. change (inject_Z 0) with 0%Q.
  lra.
Qed.

Lemma weighted_BASS_unit (l m : xQ) :
  unit_interval l -> unit_interval m ->
  unit_interval (_calculateWeightedEnergy [l; m] (weights BASS)).
Proof.
  intros (ql & -> & Hl) (qm & -> & Hm).
  eexists. split; [reflexivity|]. change (inject_Z 0) with 0%Q.
  lra.
Qed.

Lemma weighted_HIGHS_unit (l m : xQ) :
  unit_interval l -> unit_interval m ->
  unit_interval (_calculateWeightedEnergy [l; m] (weights HIGHS)).
Proof.
  intros (ql & -> & Hl) (qm & -> & Hm).
  eexists. split; [reflexivity|]. change (inject_Z 0) with 0%Q.
  lra.
Qed.

Lemma smooth_unit (s r : xQ) :
  unit_interval s -> unit_interval r ->
  unit_interval (smooth (num_lit 3 10) s r).
Proof.
  intros (qs & -> & Hs) (qr & -> & Hr).
  rewrite smooth_fin. eexists. split; [reflexivity|]. unfold smoothQ.
  lra.
Qed.

Lemma peak_after_unit threshold (peak : PeakState xQ) current :
  unit_interval (value peak) -> unit_interval current ->
  unit_interval (value (peak_after (num_lit 95 100) threshold peak current)).
Proof.
  intros (qv & Hv & Hvb) Hc. unfold peak_after. rewrite Hv.
  destruct (_ && _); cbn [value]; [exact Hc|].
  eexists. split; [reflexivity|].
  lra.
Qed.

Lemma cycle_done_bounded (a : AudioAnalyzer xQ) spectrum a' :
  ranges_valid a -> peak_constants a -> energies_bounded a ->
  Forall (fun v => 0 <= v <= 255) spectrum ->
  cycle_done a spectrum a' -> energies_bounded a'.
Proof.
  intros Hvalid [_ Hdecay] [_ Hold] Hall
    [(Hd1 & Hd2 & Hd3 & Hd) (Hv1 & Hv2 & Hv3 & Hv) (Hb1 & Hb2 & Hb)
       (Hh1 & Hh2 & Hh) Hsmooth _ Hpeaks _].
  cbv zeta in *.
  pose proof (fun b v => getAverageEnergy_unit a spectrum b v Hvalid Hall)
    as Hunit.
  assert (cache_bounded (energyCache a')) as Hcache.
  { unfold cache_bounded. rewrite Hd, Hv, Hb, Hh.
    repeat split; eauto using weighted_DRUMS_unit, weighted_VOCALS_unit,
      weighted_BASS_unit, weighted_HIGHS_unit. }
  split; [exact Hcache|]. intros cat.
  assert (unit_interval (smoothedEnergy a' cat)) as Hs.
  { rewrite Hsmooth. apply smooth_unit; [apply Hold|].
    destruct Hcache as ((_ & _ & _ & ?) & (_ & _ & _ & ?) & (_ & _ & ?)
                        & (_ & _ & ?)).
    destruct cat; assumption. }
  split; [exact Hs|].
  rewrite Hpeaks, Hdecay. apply peak_after_unit; [apply Hold|exact Hs].
Qed.

Lemma update_bounded (a : AudioAnalyzer xQ) spectrum a' :
  ranges_valid a -> peak_constants a -> energies_bounded a ->
  Forall (fun v => 0 <= v <= 255) spectrum ->
  update a spectrum = Ok a' -> energies_bounded a'.
Proof.
  intros Hvalid Hconst Hold Hall Hu.
  destruct (fft a) eqn:Hf; [destruct (isListening a) eqn:Hl|].
  - eapply cycle_done_bounded; try eassumption.
    eapply update_listening; eassumption.
  - rewrite update_not_listening in Hu by auto. now injection Hu as <-.
  - rewrite update_not_listening in Hu by auto. now injection Hu as <-.
Qed.

Lemma sound_step_step (a a' : AudioAnalyzer xQ) : sound_step a a' -> step a a'.
Proof.
  intros [env a0 _|env micStarts a0 _|a0|a0 spectrum a1 _ Hu|a0].
  - apply step_init.
  - apply step_startListening.
  - apply step_stopListening.
  - eapply step_update. exact Hu.
  - apply step_dispose.
Qed.

Lemma sound_reachable_reachable (a : AudioAnalyzer xQ) :
  sound_reachable a -> reachable a.
Proof.
  intros (fftSize & smoothing & _ & Hrtc). exists fftSize, smoothing.
  induction Hrtc as [|a0 a1 a2 Hstep _ IH]; [apply rtc_refl|].
  eapply rtc_l; [apply sound_step_step; exact Hstep|exact IH].
Qed.

(** The setup a call other than [update] leaves: the signal and the
    transform size as they were, the ranges as they were or those of the
    table at a positive sample rate. *)
Lemma init_sound env (a : AudioAnalyzer xQ) :
  positive_env env -> sound_invariant a -> sound_invariant (snd (init env a)).
Proof.
  intros Henv Hinv. unfold init.
  destruct (isInitialized a); [exact Hinv|].
  destruct Hinv as ((f & Hf & Hfpos) & Hvalid & Hb).
  destruct env as [| | |sampleRate]; cbn [snd];
    try exact (conj (ex_intro _ f (conj Hf Hfpos)) (conj Hvalid Hb)).
  destruct sampleRate as [sr| | |]; cbn [positive_env] in Henv;
    try contradiction.
  split; [exists f; now split|]. split; [|exact Hb].
  intros ranges [= <-] bandName range Hl. rewrite Hf in Hl.
  exact (calculateAllBinRanges_valid sr f bandName range Henv Hfpos Hl).
Qed.

Lemma set_isListening_sound (a : AudioAnalyzer xQ) l :
  sound_invariant a -> sound_invariant (set_isListening a l).
Proof. intros Hinv. exact Hinv. Qed.

Lemma startListening_sound env micStarts (a : AudioAnalyzer xQ) :
  positive_env env -> sound_invariant a ->
  sound_invariant (snd (startListening env micStarts a)).
Proof.
  intros Henv Hinv. unfold startListening.
  destruct (isInitialized a); cbn [negb].
  - destruct (_ && _); cbn [snd]; exact Hinv.
  - pose proof (init_sound env a Henv Hinv) as Hinv'.
    destruct (init env a) as [success a1]. cbn [snd] in Hinv'.
    destruct (negb success); [exact Hinv'|].
    destruct (_ && _); cbn [snd]; exact Hinv'.
Qed.

Lemma stopListening_sound (a : AudioAnalyzer xQ) :
  sound_invariant a -> sound_invariant (stopListening a).
Proof.
  intros Hinv. unfold stopListening. destruct (_ && _); exact Hinv.
Qed.

Lemma dispose_sound (a : AudioAnalyzer xQ) :
  sound_invariant a -> sound_invariant (dispose a).
Proof.
  intros Hinv. unfold dispose, stopListening.
  destruct (_ && _); exact Hinv.
Qed.

Lemma update_sound (a : AudioAnalyzer xQ) spectrum a' :
  Forall (fun v => 0 <= v <= 255) spectrum ->
  update a spectrum = Ok a' ->
  peak_constants a -> sound_invariant a -> sound_invariant a'.
Proof.
  intros Hall Hu Hconst (Hfft & Hvalid & Hb).
  pose proof (update_bounded a spectrum a' Hvalid Hconst Hb Hall Hu) as Hb'.
  destruct (fft a) eqn:Hf; [destruct (isListening a) eqn:Hl|].
  - destruct (update_listening a spectrum a' Hf Hl Hu)
      as [_ _ _ _ _ _ _ (Hs & _ & _ & _ & _ & _ & Hr & _)].
    unfold sound_invariant, ranges_valid. rewrite Hs, Hr.
    split; [exact Hfft|]. split; [exact Hvalid|exact Hb'].
  - rewrite update_not_listening in Hu by auto. injection Hu as <-.
    split; [exact Hfft|]. split; [exact Hvalid|exact Hb'].
  - rewrite update_not_listening in Hu by auto. injection Hu as <-.
    split; [exact Hfft|]. split; [exact Hvalid|exact Hb'].
Qed.

Lemma new_sound fftSize smoothing :
  positive_size fftSize ->
  sound_invariant (new_AudioAnalyzer fftSize smoothing).
Proof.
  intros Hsize. split; [|split].
  - destruct fftSize as [[f| | |]|]; cbn in *; try contradiction.
    + now exists f.
    + exists 1024%Q. split; [reflexivity|]. reflexivity.
  - intros ranges Hr. discriminate Hr.
  - pose proof unit_interval_zero as Hz.
    split; [unfold cache_bounded; cbn; now repeat split|].
    intros cat. now split.
Qed.

Lemma sound_reachable_invariant (a : AudioAnalyzer xQ) :
  sound_reachable a -> sound_invariant a /\ peak_constants a.
Proof.
  intros (fftSize & smoothing & Hsize & Hrtc).
  revert a Hrtc. apply rtc_ind_r.
  - split; [now apply new_sound|]. apply new_invariant.
  - intros a1 a2 Hrtc Hstep [Hinv Hconst].
    split.
    + destruct Hstep.
      * now apply init_sound.
      * now apply startListening_sound.
      * now apply stopListening_sound.
      * eapply update_sound; eassumption.
      * now apply dispose_sound.
    + eapply step_invariant;
        [apply sound_step_step; exact Hstep|].
      apply reachable_invariant.
      apply sound_reachable_reachable. now exists fftSize, smoothing.
Qed.

Lemma valid_range_ends (range : BinRange) : valid_range range -> range_ends range.
Proof. intros (s & e & -> & _). intros Hs. discriminate Hs. Qed.

End BoundedEnergies.

(** ** Runs of cycles that return *)

Section RunsReturn.
Context {N : Type} `{JSNumber N}.

Lemma update_same_ranges (a : AudioAnalyzer N) spectrum a' :
  update a spectrum = Ok a' -> binRanges a' = binRanges a.
Proof.
  intros Hu.
  destruct (fft a) eqn:Hf; [destruct (isListening a) eqn:Hl|].
  - now destruct (update_listening a spectrum a' Hf Hl Hu)
      as [_ _ _ _ _ _ _ (_ & _ & _ & _ & _ & _ & Hr & _)].
  - rewrite update_not_listening in Hu by auto. now injection Hu as <-.
  - rewrite update_not_listening in Hu by auto. now injection Hu as <-.
Qed.

Lemma update_ranges_end (a : AudioAnalyzer N) spectrum a' :
  update a spectrum = Ok a' -> ranges_end a -> ranges_end a'.
Proof.
  intros Hu (ranges & Hr & Hall). exists ranges. split; [|exact Hall].
  now rewrite (update_same_ranges a spectrum a' Hu).
Qed.

Lemma update_each_returns (a : AudioAnalyzer N) spectra :
  ranges_end a -> exists states, update_each a spectra = Ok states.
Proof.
  revert a. induction spectra as [|spectrum spectra IH]; intros a Hends.
  - now exists [].
  - destruct (update_returns a spectrum Hends) as [a' Hu].
    destruct (IH a' (update_ranges_end a spectrum a' Hu Hends))
      as [later Hlater].
    exists (a' :: later). cbn [update_each]. rewrite Hu. cbn [bind].
    now rewrite Hlater.
Qed.

Lemma update_or_keep_ok (a : AudioAnalyzer N) spectrum :
  ranges_end a -> update a spectrum = Ok (update_or_keep a spectrum).
Proof.
  intros Hends. destruct (update_returns a spectrum Hends) as [a' Hu].
  unfold update_or_keep. now rewrite Hu.
Qed.

Lemma update_or_keep_ranges_end (a : AudioAnalyzer N) spectrum :
  ranges_end a -> ranges_end (update_or_keep a spectrum).
Proof.
  intros Hends.
  exact (update_ranges_end a spectrum _ (update_or_keep_ok a spectrum Hends)
           Hends).
Qed.

Lemma cycles_ranges_end (n : nat) (a : AudioAnalyzer N) spectrum :
  ranges_end a -> ranges_end (cycles n spectrum a).
Proof.
  intros Hends. induction n as [|n IH]; [exact Hends|].
  cbn [cycles]. now apply update_or_keep_ranges_end.
Qed.

(** The loops of [update] can fail to end, but nothing in it throws once
    the bin ranges are set. *)
Lemma for_bins_no_throw {A} fuel length e (body : Z -> A -> A) i acc :
  (exists r, for_bins fuel length e body i acc = Ok r) \/
  for_bins fuel length e body i acc = Fail Diverges.
Proof.
  revert i acc. induction fuel as [|fuel IH]; intros i acc; cbn [for_bins].
  - now right.
  - destruct (_ && _); [apply IH|]. left. eauto.
Qed.

Lemma for_range_no_throw {A} length range (body : Z -> A -> A) acc :
  (exists r, for_range length range body acc = Ok r) \/
  for_range length range body acc = Fail Diverges.
Proof.
  unfold for_range. destruct (start range).
  - apply for_bins_no_throw.
  - left. eauto.
  - destruct (end_ range); try (now right); left; eauto.
  - left. eauto.
Qed.

Lemma getAverageEnergy_no_throw (a : AudioAnalyzer N) spectrum bandName :
  is_Some (binRanges a) ->
  (exists v, _getAverageEnergy a spectrum bandName = Ok v) \/
  _getAverageEnergy a spectrum bandName = Fail Diverges.
Proof.
  intros [ranges Hr]. unfold _getAverageEnergy. rewrite Hr.
  destruct (ranges !! bandName) as [range|]; [|left; eauto].
  destruct (for_range_no_throw (Z.of_nat (length spectrum)) range
              (fun i '(sum, count) =>
                 ((sum + spectrum_at spectrum i)%js, (count + one)%js))
              (zero, zero)) as [[[sum count] ->]| ->]; cbn [bind].
  - left. eauto.
  - now right.
Qed.

Lemma update_no_throw (a : AudioAnalyzer N) spectrum :
  is_Some (binRanges a) ->
  (exists a', update a spectrum = Ok a') \/
  update a spectrum = Fail Diverges.
Proof.
  intros Hr. unfold update.
  destruct (negb (fft a) || negb (isListening a)); [left; eauto|].
  repeat match goal with
         | |- context [bind (_getAverageEnergy a spectrum ?b) _] =>
             let v := fresh "v" in
             destruct (getAverageEnergy_no_throw a spectrum b Hr)
               as [[v ->]| ->]; cbn [bind]; [|now right]
         end.
  left. eauto.
Qed.

End RunsReturn.

(** ** Sample runs in exact arithmetic *)

Lemma listening_at_sound sampleRate :
  0 < sampleRate -> sound_reachable (listening_at sampleRate).
Proof.
  intros Hpos. exists None, None. split; [exact I|].
  eapply rtc_l; [|apply rtc_refl].
  apply (sound_startListening (Loaded (num_of_Z sampleRate)) true new_analyzer).
  cbn. change 0%Q with (inject_Z 0). now rewrite <- Zlt_Qlt.
Qed.

Lemma update_or_keep_sound (a : AudioAnalyzer xQ) spectrum :
  sound_reachable a -> Forall (fun v => 0 <= v <= 255) spectrum ->
  sound_reachable (update_or_keep a spectrum).
Proof.
  intros (f & s & Hsize & Hrtc) Hsp. unfold update_or_keep.
  destruct (update a spectrum) as [a'|] eqn:Hu; exists f, s;
    (split; [exact Hsize|]); [|exact Hrtc].
  eapply rtc_r; [exact Hrtc|]. eapply sound_update; eassumption.
Qed.

Lemma reachable_update {N} `{JSNumber N} (a : AudioAnalyzer N) spectrum a' :
  reachable a -> update a spectrum = Ok a' -> reachable a'.
Proof.
  intros (f & s & Hrtc) Hu. exists f, s.
  eapply rtc_r; [exact Hrtc|]. eapply step_update. exact Hu.
Qed.

Lemma with_smoothed_peak {N} `{JSNumber N} (a : AudioAnalyzer N) cat e :
  peaks (_detectPeaks (with_smoothed a cat e)) cat
  = peak_after (peakDecay a) (peakThreshold a) (peaks a cat) e.
Proof.
  rewrite detectPeaks_peaks. unfold with_smoothed, set_energies.
  cbn [peakDecay peakThreshold peaks smoothedEnergy].
  now rewrite fn_lookup_insert.
Qed.

(** ** A spectrum at one level *)

Section FlatSpectrum.
Variable n : nat.
Variable c : Z.

Lemma magnitude_replicate k :
  0 <= k < Z.of_nat n -> magnitude (replicate n c) k = c.
Proof.
  intros [Hlo Hhi]. unfold magnitude.
  assert ((0 <=? k) = true) as -> by lia.
  rewrite lookup_replicate_2 by lia. reflexivity.
Qed.

Lemma sum_replicate ks :
  in_array (replicate n c) ks ->
  foldr Z.add 0 (magnitude (replicate n c) <$> ks) = c * Z.of_nat (length ks).
Proof.
  induction ks as [|k ks IH]; intros Hin; cbn [fmap list_fmap foldr length].
  - lia.
  - apply list.Forall_cons in Hin as [Hk Hin].
    rewrite length_replicate in Hk.
    rewrite magnitude_replicate, IH by assumption. lia.
Qed.

Lemma clamped_sum_replicate s e :
  0 <= s ->
  clamped_sum (replicate n c) s e = c * clamped_count (replicate n c) s e.
Proof.
  intros Hs. unfold clamped_sum.
  rewrite sum_replicate by now apply clamped_in_array.
  now rewrite clamped_length.
Qed.

Lemma getAverageEnergy_flat (a : AudioAnalyzer xQ) ranges bandName range v :
  ranges_valid a -> binRanges a = Some ranges ->
  ranges !! bandName = Some range ->
  starts_inside n range = true ->
  _getAverageEnergy a (replicate n c) bandName = Ok v ->
  at_level c v.
Proof.
  intros Hvalid Hr Hl Hlt Hv.
  destruct (Hvalid ranges Hr bandName range Hl) as (s & e & -> & Hs & Hse).
  destruct (getAverageEnergy_value a (replicate n c) ranges bandName s e
              Hr Hl Hs) as (q & Hq & _ & Hpos).
  rewrite Hq in Hv. injection Hv as <-. exists q. split; [reflexivity|].
  cbn in Hlt. apply Z.ltb_lt in Hlt.
  assert (0 < clamped_count (replicate n c) s e) as Hc.
  { unfold clamped_count, clamped_hi, clamped_lo. rewrite length_replicate.
    lia. }
  rewrite (Hpos Hc), clamped_sum_replicate by lia.
  assert (0 < inject_Z (clamped_count (replicate n c) s e))%Q as Hcq.
  { change 0%Q with (inject_Z 0). now rewrite <- Zlt_Qlt. }
  rewrite inject_Z_mult. field. lra.
Qed.

Lemma weighted_DRUMS_level (l m h : xQ) :
  at_level c l -> at_level c m -> at_level c h ->
  at_level c (_calculateWeightedEnergy [l; m; h] (weights DRUMS)).
Proof.
  intros (ql & -> & Hl) (qm & -> & Hm) (qh & -> & Hh).
  eexists. split; [reflexivity|]. change (inject_Z 0) with 0%Q.
  rewrite Hl, Hm, Hh. field.
Qed.

Lemma weighted_VOCALS_level (l m h : xQ) :
  at_level c l -> at_level c m -> at_level c h ->
  at_level c (_calculateWeightedEnergy [l; m; h] (weights VOCALS)).
Proof.
  intros (ql & -> & Hl) (qm & -> & Hm) (qh & -> & Hh).
  eexists. split; [reflexivity|]. change (inject_Z 0) with 0%Q.
  rewrite Hl, Hm, Hh. field.
Qed.

Lemma weighted_BASS_level (l m : xQ) :
  at_level c l -> at_level c m ->
  at_level c (_calculateWeightedEnergy [l; m] (weights BASS)).
Proof.
  intros (ql & -> & Hl) (qm & -> & Hm).
  eexists. split; [reflexivity|]. change (inject_Z 0) with 0%Q.
  rewrite Hl, Hm. field.
Qed.

Lemma weighted_HIGHS_level (l m : xQ) :
  at_level c l -> at_level c m ->
  at_level c (_calculateWeightedEnergy [l; m] (weights HIGHS)).
Proof.
  intros (ql & -> & Hl) (qm & -> & Hm).
  eexists. split; [reflexivity|]. change (inject_Z 0) with 0%Q.
  rewrite Hl, Hm. field.
Qed.

End FlatSpectrum.

(** A cycle on a spectrum at one level. *)
Lemma flat_cycle (a : AudioAnalyzer xQ) ranges (n : nat) (c : Z) :
  ranges_valid a -> ranges_from_table a ->
  fft a = true -> isListening a = true ->
  binRanges a = Some ranges ->
  map_Forall (fun _ range => starts_inside n range = true) ranges ->
  exists a',
    update a (replicate n c) = Ok a' /\
    cycle_done a (replicate n c) a' /\
    forall cat, at_level c (cache_combined (energyCache a') cat).
Proof.
  intros Hvalid Htable Hf Hl Hr Hstarts.
  destruct (update_returns a (replicate n c)) as [a' Hu].
  { exists ranges. split; [exact Hr|]. intros name range Hlook.
    apply valid_range_ends. exact (Hvalid ranges Hr name range Hlook). }
  exists a'. split; [exact Hu|].
  pose proof (update_listening a (replicate n c) a' Hf Hl Hu) as Hdone.
  split; [exact Hdone|].
  destruct (Htable ranges Hr) as [sr Hsr].
  assert (forall b v,
             is_Some (ranges !! b) ->
             _getAverageEnergy a (replicate n c) b = Ok v -> at_level c v)
    as Hlev.
  { intros b v [range Hlook] Hv.
    exact (getAverageEnergy_flat n c a ranges b range v Hvalid Hr Hlook
             (Hstarts b range Hlook) Hv). }
  destruct Hdone
    as [(Hd1 & Hd2 & Hd3 & Hd) (Hv1 & Hv2 & Hv3 & Hv) (Hb1 & Hb2 & Hb)
          (Hh1 & Hh2 & Hh) _ _ _ _].
  cbv zeta in *.
  intros cat. destruct cat; cbn [cache_combined].
  - rewrite Hd. apply weighted_DRUMS_level;
      (eapply Hlev; [|eassumption]); subst ranges; eexists; reflexivity.
  - rewrite Hv. apply weighted_VOCALS_level;
      (eapply Hlev; [|eassumption]); subst ranges; eexists; reflexivity.
  - rewrite Hb. apply weighted_BASS_level;
      (eapply Hlev; [|eassumption]); subst ranges; eexists; reflexivity.
  - rewrite Hh. apply weighted_HIGHS_level;
      (eapply Hlev; [|eassumption]); subst ranges; eexists; reflexivity.
Qed.

(** The floor and the ceiling of a number are at most one apart. *)
Lemma ceiling_floor_gap (x : Q) : Qfloor x <= Qceiling x <= Qfloor x + 1.
Proof.
  split.
  - rewrite Zle_Qle.
    eapply Qle_trans; [apply Qfloor_le | apply Qle_ceiling].
  - pose proof (Qlt_floor x) as Hf. pose proof (Qceiling_lt x) as Hc.
    assert (inject_Z (Qceiling x - 1) < inject_Z (Qfloor x + 1))%Q as Hlt
        by (eapply Qlt_trans; eassumption).
    rewrite <- Zlt_Qlt in Hlt. lia.
Qed.

(** ** The object pool *)

Section PoolFacts.
Context {Store Obj : Type}.
Variable factory : Store -> Obj * Store.
Variable reset : Obj -> Store -> Store.

Lemma preallocate_length n objs h :
  length (fst (preallocate factory n objs h)) = (n + length objs)%nat.
Proof.
  revert objs h. induction n as [|n IH]; intros objs h; [reflexivity|].
  cbn [preallocate]. destruct (factory h) as [obj h'].
  rewrite IH, length_app. cbn [length]. lia.
Qed.

Lemma new_ObjectPool_fields initialSize size h :
  let p := fst (new_ObjectPool factory initialSize size h) in
  maxSize p = default 500 size /\ activeCount p = 0 /\
  Z.of_nat (length (pool p)) = Z.max 0 (default 50 initialSize).
Proof.
  unfold new_ObjectPool.
  pose proof (preallocate_length (Z.to_nat (default 50 initialSize)) [] h)
    as Hlen.
  destruct (preallocate factory _ [] h) as [objs h'].
  cbn [fst maxSize activeCount pool] in *.
  repeat split. rewrite Hlen. cbn [length]. lia.
Qed.

Lemma acquire_fields p h :
  let p' := fst (snd (acquire factory p h)) in
  maxSize p' = maxSize p /\ activeCount p' = activeCount p + 1 /\
  (length (pool p') <= length (pool p))%nat.
Proof.
  unfold acquire. destruct (list.last (pool p)) as [obj|] eqn:Hlast.
  - apply last_Some in Hlast as [objs Hobjs].
    cbn [fst snd maxSize activeCount pool]. repeat split.
    rewrite Hobjs, removelast_last, length_app. lia.
  - destruct (factory h) as [obj h'].
    cbn [fst snd maxSize activeCount pool]. repeat split. lia.
Qed.

Lemma release_fields obj p h :
  let p' := fst (release reset obj p h) in
  maxSize p' = maxSize p /\
  activeCount p' = Z.max 0 (activeCount p - 1) /\
  Z.of_nat (length (pool p'))
  <= Z.max (Z.of_nat (length (pool p))) (maxSize p).
Proof.
  unfold release. destruct (_ <? _) eqn:Hroom;
    cbn [fst maxSize activeCount pool]; repeat split; [|lia].
  apply Z.ltb_lt in Hroom. rewrite length_app. cbn [length]. lia.
Qed.

Lemma releaseAll_fields objects p h :
  let p' := fst (releaseAll reset objects p h) in
  maxSize p' = maxSize p /\
  (0 <= activeCount p -> 0 <= activeCount p') /\
  Z.of_nat (length (pool p'))
  <= Z.max (Z.of_nat (length (pool p))) (maxSize p).
Proof.
  unfold releaseAll. revert p h.
  induction objects as [|obj objects IH]; intros p h; cbn [fold_left fst snd].
  - repeat split; [auto|lia].
  - destruct (release_fields obj p h) as (Hm & Hc & Hl).
    destruct (release reset obj p h) as [p1 h1]. cbn [fst snd] in *.
    destruct (IH p1 h1) as (Hm' & Hc' & Hl'). cbv zeta in *.
    repeat split; [congruence| |lia].
    intros _. apply Hc'. lia.
Qed.

Lemma release_room obj p h :
  Z.of_nat (length (pool p)) < maxSize p ->
  release reset obj p h
  = ({| maxSize := maxSize p; pool := pool p ++ [obj];
        activeCount := Z.max 0 (activeCount p - 1) |}, reset obj h).
Proof. intros Hroom. unfold release. apply Z.ltb_lt in Hroom. now rewrite Hroom. Qed.

Lemma release_full obj p h :
  maxSize p <= Z.of_nat (length (pool p)) ->
  release reset obj p h
  = ({| maxSize := maxSize p; pool := pool p;
        activeCount := Z.max 0 (activeCount p - 1) |}, h).
Proof. intros Hfull. unfold release. apply Z.ltb_ge in Hfull. now rewrite Hfull. Qed.

Lemma acquire_last m objs obj c h :
  acquire factory {| maxSize := m; pool := objs ++ [obj]; activeCount := c |} h
  = (obj, ({| maxSize := m; pool := objs; activeCount := c + 1 |}, h)).
Proof.
  unfold acquire. cbn [pool maxSize activeCount].
  rewrite last_snoc, removelast_last. reflexivity.
Qed.

End PoolFacts.

(** ** The colour cache *)

Section ColorCache.
Import MemoryManager.

Lemma pretty_N_char_no_comma x : pretty_N_char x <> ","%char.
Proof. unfold pretty_N_char. repeat case_match; discriminate. Qed.

Lemma comma_free_go x s : comma_free s -> comma_free (pretty_N_go x s).
Proof.
  revert s. induction (N.lt_wf_0 x) as [x _ IH]. intros s Hs.
  destruct (decide (0 < x)%N) as [Hx|Hx].
  - rewrite pretty_N_go_step by exact Hx. apply IH.
    + apply N.div_lt; [exact Hx|reflexivity].
    + split; [apply pretty_N_char_no_comma | exact Hs].
  - assert (x = 0%N) as -> by lia. now rewrite pretty_N_go_0.
Qed.

Lemma comma_free_pretty (z : Z) : comma_free (pretty z).
Proof.
  assert (forall x : N, comma_free (pretty x)) as HN.
  { intros x. unfold pretty, pretty_N.
    destruct (decide (x = 0%N)); [now split|]. now apply comma_free_go. }
  destruct z as [|x|x]; unfold pretty, pretty_Z.
  - now split.
  - apply HN.
  - split; [discriminate|apply HN].
Qed.

Lemma join_inj s1 s2 t1 t2 :
  comma_free s1 -> comma_free s2 ->
  s1 +:+ "," +:+ t1 = s2 +:+ "," +:+ t2 -> s1 = s2 /\ t1 = t2.
Proof.
  assert (forall t, "" +:+ "," +:+ t = String ","%char t) as Hnil
      by reflexivity.
  assert (forall c s t, String c s +:+ t = String c (s +:+ t)) as Hcons
      by reflexivity.
  revert s2. induction s1 as [|c1 s1 IH]; intros [|c2 s2] H1 H2 Heq;
    rewrite ?Hnil, ?Hcons in Heq.
  - injection Heq as ->. now split.
  - injection Heq as <- _. now destruct H2.
  - injection Heq as -> _. now destruct H1.
  - injection Heq as -> Heq. destruct H1 as [_ H1], H2 as [_ H2].
    destruct (IH s2 H1 H2 Heq) as [-> ->]. now split.
Qed.

Lemma key_inj r1 g1 b1 a1 r2 g2 b2 a2 :
  key r1 g1 b1 a1 = key r2 g2 b2 a2 ->
  r1 = r2 /\ g1 = g2 /\ b1 = b2 /\ a1 = a2.
Proof.
  unfold key. intros Heq.
  apply join_inj in Heq as [Hr Heq]; try apply comma_free_pretty.
  apply join_inj in Heq as [Hg Heq]; try apply comma_free_pretty.
  apply join_inj in Heq as [Hb Ha]; try apply comma_free_pretty.
  repeat split; now apply (inj pretty).
Qed.

Lemma get_app k (m1 m2 : Cache) :
  get k (m1 ++ m2) = match get k m1 with Some c => Some c | None => get k m2 end.
Proof.
  induction m1 as [|[k' c] m1 IH]; cbn [app get]; [reflexivity|].
  destruct (decide (k = k')); [reflexivity | exact IH].
Qed.

Lemma get_tail k (m : Cache) : get k m = None -> get k (tail m) = None.
Proof.
  destruct m as [|[k' c] m]; cbn [tail get]; [auto|].
  now destruct (decide (k = k')).
Qed.

Lemma get_filed k c (m : Cache) : filed m -> get k m = Some c ->
  k = key (r c) (g c) (b c) (a c).
Proof.
  unfold filed. induction m as [|[k' c'] m IH]; cbn [get]; [discriminate|].
  intros Hall. apply list.Forall_cons in Hall as [Hk Hall].
  destruct (decide (k = k')) as [->|_]; [|now apply IH].
  intros [= <-]. exact Hk.
Qed.

Lemma getColor_length r g b a (m : Cache) :
  (length m <= 1001)%nat -> (length (snd (getColor r g b a m)) <= 1001)%nat.
Proof.
  intros Hlen. unfold getColor. destruct (get _ m); cbn [snd]; [exact Hlen|].
  rewrite length_app. cbn [length].
  destruct (1000 <? Z.of_nat (length m)) eqn:Hfull.
  - destruct m; cbn [tail length] in *; lia.
  - apply Z.ltb_ge in Hfull. lia.
Qed.

Lemma getColor_filed r g b a (m : Cache) :
  filed m -> filed (snd (getColor r g b a m)).
Proof.
  intros Hm. unfold getColor. destruct (get _ m); cbn [snd]; [exact Hm|].
  apply Forall_app. split.
  - destruct (1000 <? _); [|exact Hm].
    destruct m; cbn [tail]; [exact Hm|].
    now apply list.Forall_cons in Hm as [_ Hm].
  - apply list.Forall_cons. split; [reflexivity|apply Forall_nil; exact I].
Qed.

Lemma getColors_invariant (P : Cache -> Prop) calls (m : Cache) :
  (forall r g b a m, P m -> P (snd (getColor r g b a m))) ->
  P m -> P (getColors calls m).
Proof.
  intros Hstep. unfold getColors. revert m.
  induction calls as [|[[[r g] b] a] calls IH]; intros m Hm; [exact Hm|].
  cbn [fold_left]. apply IH, Hstep, Hm.
Qed.

Lemma get_filed_None r' g' b' a' (m : Cache) n :
  filed m -> Forall (fun e => r (snd e) < n) m -> n <= r' ->
  get (key r' g' b' a') m = None.
Proof.
  intros Hfiled Hred Hr.
  destruct (get (key r' g' b' a') m) as [c|] eqn:Hget; [|reflexivity].
  pose proof (get_filed _ _ _ Hfiled Hget) as Hkey.
  apply key_inj in Hkey as (Hc & _).
  assert (r c < n) as Hlt; [|lia].
  clear Hfiled Hc. induction m as [|[k' c'] m IH]; cbn [get] in Hget;
    [discriminate|].
  apply list.Forall_cons in Hred as [Hc' Hred].
  destruct (decide (_ = k')); [|now apply IH].
  injection Hget as <-. exact Hc'.
Qed.

Lemma getColors_app calls1 calls2 (m : Cache) :
  getColors (calls1 ++ calls2) m = getColors calls2 (getColors calls1 m).
Proof. unfold getColors. apply fold_left_app. Qed.

Lemma reds_fill (n : nat) :
  let m := getColors (reds (Z.of_nat n)) [] in
  filed m /\ Forall (fun e => r (snd e) < Z.of_nat n) m /\
  length m = Nat.min n 1001.
Proof.
  induction n as [|n (Hfiled & Hred & Hlen)]; cbv zeta.
  - repeat split; apply Forall_nil; exact I.
  - unfold reds in *. rewrite seqZ_S, fmap_app, getColors_app.
    set (m := getColors ((fun i => (i, 0, 0, None)) <$> seqZ 0 (Z.of_nat n)) [])
      in *.
    cbn [fmap list_fmap getColors fold_left]. rewrite Z.add_0_l.
    split; [now apply getColor_filed|].
    unfold getColor. cbv zeta.
    rewrite (get_filed_None _ _ _ _ m (Z.of_nat n) Hfiled Hred) by lia.
    cbn [snd]. rewrite length_app. cbn [length].
    assert (Forall (fun e => r (snd e) < Z.of_nat (S n)) m) as Hred'.
    { eapply Forall_impl; [exact Hred|]. cbn. intros e He. lia. }
    destruct (1000 <? Z.of_nat (length m)) eqn:Hfull.
    + apply Z.ltb_lt in Hfull. split.
      * apply Forall_app. split.
        -- destruct m; cbn [tail]; [exact Hred'|].
           now apply list.Forall_cons in Hred' as [_ Hred'].
        -- apply list.Forall_cons. split; [cbn; lia|apply Forall_nil; exact I].
      * destruct m; cbn [tail length] in *; lia.
    + apply Z.ltb_ge in Hfull. split.
      * apply Forall_app. split; [exact Hred'|].
        apply list.Forall_cons. split; [cbn; lia|apply Forall_nil; exact I].
      * lia.
Qed.

End ColorCache.

(** ** The same spectrum, cycle after cycle *)

Section SteadyInput.










End SteadyInput.

(** In binary64, over 120 cycles on one spectrum: from the start of
    listening on a spectrum at full scale, and from there on silence and
    then on a spectrum of mixed magnitudes.  In every cycle the raw energy is the
    same and the smoothed energy lies between its value before and the raw
    energy; after the 120 cycles it is within 10^-12 of the raw energy. *)
Lemma smoothing_binary64_cycles :
  let loud := replicate 64 255 in
  let quiet := replicate 64 0 in
  let level := (fun i => (i * 37) mod 256) <$> seqZ 0 64 in
  let a0 := listening_at (N:=float) 44100 in
  let a1 := cycles 120 loud a0 in
  let a2 := cycles 120 quiet a1 in
  let a3 := cycles 120 level a2 in
  let near (s v : float) :=
    PrimFloat.leb (PrimFloat.abs (s - v)) (num_lit 1 1000000000000) in
  closing_in64 120 loud bass (raw_energy a0 loud bass) a0 = true /\
  near (smoothedEnergy a1 bass) (raw_energy a0 loud bass) = true /\
  closing_in64 120 quiet bass (raw_energy a1 quiet bass) a1 = true /\
  near (smoothedEnergy a2 bass) (raw_energy a1 quiet bass) = true /\
  closing_in64 120 level vocals (raw_energy a2 level vocals) a2 = true /\
  near (smoothedEnergy a3 vocals) (raw_energy a2 level vocals) = true.
Proof. vm_compute. repeat split; reflexivity. Qed.

(** * The claim on convergence *)



(** * Further properties of the code *)

(** X1: whenever the two quotients [getBinRange] computes are finite, the
    first not negative and not above the second, the range is one of
    integers with 0 <= start <= end, and start < end unless the two
    quotients are the same number: a band holds at least one bin unless
    rounding has made its two quotients equal.  In binary64. *)
Theorem getBinRange_start_below_end (bd : Band float)
    (sampleRate fftSize : float) :
  let binFrequency : float := (sampleRate / fftSize)%js in
  let lo : float := (min bd / binFrequency)%js in
  let hi : float := (max bd / binFrequency)%js in
  finite64 lo = true -> finite64 hi = true ->
  (0 <= float_Q lo <= float_Q hi)%Q ->
  exists s e,
    getBinRange bd (Some sampleRate) (Some fftSize)
    = {| start := Int s; end_ := Int e |} /\
    0 <= s <= e /\
    ((float_Q lo < float_Q hi)%Q -> s < e).
Proof.
  cbv zeta. intros Hlo Hhi [Hnn Hle].
  destruct (floor_spec _ Hlo) as (s & Hs & Hs1 & Hs2).
  destruct (ceil_spec _ Hhi) as (e & He & He1 & He2).
  exists s, e. split; [|split; [split|]].
  - unfold getBinRange, default. cbn [from_option id].
    change (num_floor (N:=float)) with Binary64.floor.
    change (num_ceil (N:=float)) with Binary64.ceil.
    now rewrite Hs, He.
  - assert (inject_Z (-1) < inject_Z s)%Q as Hlt.
    { change (inject_Z (-1)) with (-1)%Q. lra. }
    rewrite <- Zlt_Qlt in Hlt. lia.
  - rewrite Zle_Qle. lra.
  - intros Hlt. rewrite Zlt_Qlt. lra.
Qed.

(** X1 at the band from 200 to 2000 Hz, 48000 Hz and transform size 2048. *)
Lemma getBinRange_start_below_end_drums_mid :
  let lo : float := (num_of_Z 200 / (num_of_Z 48000 / num_of_Z 2048))%js in
  let hi : float := (num_of_Z 2000 / (num_of_Z 48000 / num_of_Z 2048))%js in
  exists s e,
    getBinRange (N:=float) (band "Drums Mid" 200 2000 255 100 50)
      (Some (num_of_Z 48000)) (Some (num_of_Z 2048))
    = {| start := Int s; end_ := Int e |} /\
    0 <= s <= e /\
    ((float_Q lo < float_Q hi)%Q -> s < e).
Proof.
  apply (getBinRange_start_below_end (band "Drums Mid" 200 2000 255 100 50)
           (num_of_Z 48000) (num_of_Z 2048)).
  - vm_compute. reflexivity.
  - vm_compute. reflexivity.
  - split; vm_compute; discriminate.
Defined.

(** X3: in every reachable state, for a name that is not a key of
    [FrequencyBands], [getBandEnergy] returns 0, and so does
    [_getAverageEnergy] once the analyzer is initialized: an unknown band
    reads as silence, not as an error. *)
Theorem unknown_band_reads_zero {N} `{JSNumber N} (a : AudioAnalyzer N)
    (spectrum : list Z) (bandName : string) :
  reachable a ->
  bandName ∉ (FrequencyBands (N:=N)).*1 ->
  getBandEnergy a spectrum bandName = Ok zero /\
  (isInitialized a = true ->
   _getAverageEnergy a spectrum bandName = Ok zero).
Proof.
  intros Hreach Hnot.
  pose proof (reachable_ranges_from_table a Hreach) as Htable.
  assert (forall ranges, binRanges a = Some ranges ->
                         ranges !! bandName = None) as Hnone.
  { intros ranges Hr. destruct (Htable ranges Hr) as [sampleRate ->].
    now apply calculateAllBinRanges_lookup_None. }
  split.
  - unfold getBandEnergy. destruct (fft a); [|reflexivity]. cbn [negb].
    destruct (binRanges a) as [ranges|]; [|reflexivity].
    now rewrite (Hnone ranges eq_refl).
  - intros Hinit.
    destruct (reachable_setup a Hreach) as [Hset _].
    destruct (Hset Hinit) as (_ & _ & [ranges Hr]).
    unfold _getAverageEnergy. rewrite Hr. now rewrite (Hnone ranges Hr).
Qed.

(** X3 at a listening analyzer in binary64 and the name KICK. *)
Lemma unknown_band_reads_zero_kick :
  getBandEnergy (N:=float) (listening_at 44100) [9; 9; 9] "KICK" = Ok zero /\
  (isInitialized (N:=float) (listening_at 44100) = true ->
   _getAverageEnergy (N:=float) (listening_at 44100) [9; 9; 9] "KICK"
   = Ok zero).
Proof.
  apply unknown_band_reads_zero.
  - apply listening_at_reachable.
  - vm_compute. intros Hin.
    repeat (apply elem_of_cons in Hin as [Hin|Hin]; [discriminate Hin|]).
    now apply elem_of_nil in Hin.
Defined.

(** X5: when [weights] has fewer entries than [energies],
    [_calculateWeightedEnergy] reads [undefined] as a weight and returns
    NaN, whatever the energies are; nothing reports the missing weight.  In
    exact arithmetic. *)
Theorem calculateWeightedEnergy_missing_weight (energies weights : list xQ) :
  (length weights < length energies)%nat ->
  _calculateWeightedEnergy energies weights = NotANumber.
Proof.
  unfold _calculateWeightedEnergy. generalize (zero (N:=xQ)) as sum.
  revert weights.
  assert (forall es ws, weighted_loop es ws NotANumber = NotANumber) as Hnan.
  { induction es as [|e es IH]; intros ws; [reflexivity|].
    cbn [weighted_loop].
    replace (NotANumber + e * match ws with w :: _ => w | [] => num_nan end)%js
      with NotANumber by reflexivity.
    apply IH. }
  induction energies as [|e energies IH]; intros weights sum Hlen;
    [cbn in Hlen; lia|].
  cbn [weighted_loop]. destruct weights as [|w weights].
  - cbn [tail].
    replace (sum + e * num_nan)%js with NotANumber; [apply Hnan|].
    cbn. destruct e, sum; reflexivity.
  - cbn [tail]. apply IH. cbn [length] in Hlen. lia.
Qed.

(** X5 at three energies and two weights. *)
Lemma calculateWeightedEnergy_missing_weight_example :
  _calculateWeightedEnergy [Fin 1; Fin 0.5; Fin 0] [Fin 0.5; Fin 0.3]
  = NotANumber.
Proof.
  apply calculateWeightedEnergy_missing_weight. cbn. lia.
Defined.

(** X6: the energy history is a ring of 43 slots.  A run of cycles while
    listening, from a reachable state whose ranges let the loops end,
    returns; after it the cursor has advanced by the number of cycles
    modulo 43, and the value of each of the last 43 cycles, rounded to
    single precision, sits at the slot the cursor had at that cycle; older
    values are overwritten. *)
Theorem history_is_a_ring {N} `{JSNumber N} (a : AudioAnalyzer N)
    (spectra : list (list Z)) :
  reachable a -> isListening a = true -> ranges_end a ->
  exists states,
    update_each a spectra = Ok states /\
    historyIndex (final a states)
    = (historyIndex a + Z.of_nat (length spectra)) mod 43 /\
    forall j b,
      states !! j = Some b -> (length states - j <= 43)%nat ->
      let slot := Z.to_nat ((historyIndex a + Z.of_nat j) mod 43) in
      history_drums (energyHistory (final a states)) !! slot
      = Some (num_fround (cache_combined (energyCache b) drums)) /\
      history_bass (energyHistory (final a states)) !! slot
      = Some (num_fround (cache_combined (energyCache b) bass)).
Proof.
  intros Hreach Hl Hends.
  destruct (update_each_returns a spectra Hends) as [states Hrun].
  exists states. split; [exact Hrun|].
  apply history_ring_recording; [|exact Hrun].
  destruct (reachable_listening a Hreach Hl) as [Hf _].
  split; [exact Hf|]. split; [exact Hl|]. now apply reachable_history_ok.
Qed.

(** X6 over 45 cycles from the start of listening, in binary64: the run
    returns and the cursor ends at slot 2. *)
Lemma history_is_a_ring_after_45_cycles :
  let a := listening_at (N:=float) 44100 in
  let spectra := replicate 45 [200; 100; 50; 25] in
  exists states,
    update_each a spectra = Ok states /\
    historyIndex (final a states)
    = (historyIndex a + Z.of_nat (length spectra)) mod 43 /\
    forall j b,
      states !! j = Some b -> (length states - j <= 43)%nat ->
      let slot := Z.to_nat ((historyIndex a + Z.of_nat j) mod 43) in
      history_drums (energyHistory (final a states)) !! slot
      = Some (num_fround (cache_combined (energyCache b) drums)) /\
      history_bass (energyHistory (final a states)) !! slot
      = Some (num_fround (cache_combined (energyCache b) bass)).
Proof.
  apply (history_is_a_ring (listening_at (N:=float) 44100)
           (replicate 45 [200; 100; 50; 25])).
  - apply listening_at_reachable.
  - reflexivity.
  - eapply ranges_end_decide; [reflexivity|]. vm_compute. reflexivity.
Defined.

(** X7: in every reachable state the two history buffers have their 43
    slots and the cursor is one of 0 to 42, so the store of [_updateHistory]
    always lands inside the buffers. *)
Theorem history_cursor_in_range {N} `{JSNumber N} (a : AudioAnalyzer N) :
  reachable a ->
  historySize a = 43 /\
  0 <= historyIndex a < 43 /\
  length (history_drums (energyHistory a)) = 43%nat /\
  length (history_bass (energyHistory a)) = 43%nat.
Proof. intros Hreach. now apply reachable_history_ok. Qed.

(** X7 after four cycles, in binary64. *)
Lemma history_cursor_in_range_after_cycles :
  let a := cycles (N:=float) 4 (replicate 1024 255) (listening_at 44100) in
  historySize a = 43 /\
  0 <= historyIndex a < 43 /\
  length (history_drums (energyHistory a)) = 43%nat /\
  length (history_bass (energyHistory a)) = 43%nat.
Proof.
  apply history_cursor_in_range.
  apply cycles_reachable, listening_at_reachable.
Defined.

(** X8: with a positive transform size and sample rate and spectra of
    magnitudes between 0 and 255, in every state the calls lead to, the
    four energies and the raw band energies that [getEnergies] returns and
    the peak values that [getPeaks] returns lie between 0 and 1, and
    [update] returns for every spectrum.  In exact arithmetic. *)
Theorem energies_stay_in_unit_interval (a : AudioAnalyzer xQ) :
  sound_reachable a ->
  (forall cat,
     unit_interval (energy_of (getEnergies a) cat) /\
     unit_interval (value (getPeaks a cat))) /\
  cache_bounded (raw (getEnergies a)) /\
  forall spectrum, exists a', update a spectrum = Ok a'.
Proof.
  intros Hsound.
  destruct (sound_reachable_invariant a Hsound)
    as [(_ & Hranges & Hcache & Hcat) _].
  split; [exact Hcat|]. split; [exact Hcache|].
  intros spectrum.
  destruct (isListening a) eqn:Hl.
  - destruct (reachable_listening a (sound_reachable_reachable a Hsound) Hl)
      as [_ [ranges Hr]].
    apply update_returns. exists ranges. split; [exact Hr|].
    intros name range Hlook. apply valid_range_ends.
    exact (Hranges ranges Hr name range Hlook).
  - exists a. apply update_not_listening. now right.
Qed.

(** X8 after one cycle of an analyzer listening at 44100 Hz. *)
Lemma energies_stay_in_unit_interval_after_cycle :
  let a := update_or_keep (N:=xQ) (listening_at 44100) [255; 0; 17] in
  (forall cat,
     unit_interval (energy_of (getEnergies a) cat) /\
     unit_interval (value (getPeaks a cat))) /\
  cache_bounded (raw (getEnergies a)) /\
  forall spectrum, exists a', update a spectrum = Ok a'.
Proof.
  apply energies_stay_in_unit_interval.
  apply update_or_keep_sound; [apply listening_at_sound; lia|].
  repeat first [apply List.Forall_nil | apply List.Forall_cons; [lia|]].
Defined.

(** X9: [dispose], from a reachable state, leaves an analyzer that does
    not listen and is not initialized, on which [update] does nothing and
    [getBandEnergy] returns 0; the energies and peaks stay as they were;
    disposing again changes nothing; and a later [startListening] succeeds
    and computes the bin ranges anew, for the sample rate found then. *)
Theorem dispose_shuts_down {N} `{JSNumber N} (a : AudioAnalyzer N)
    (spectrum : list Z) (bandName : string) (sampleRate : N) :
  reachable a ->
  isListening (dispose a) = false /\
  isInitialized (dispose a) = false /\
  update (dispose a) spectrum = Ok (dispose a) /\
  getBandEnergy (dispose a) spectrum bandName = Ok zero /\
  getEnergies (dispose a) = getEnergies a /\
  getPeaks (dispose a) = getPeaks a /\
  dispose (dispose a) = dispose a /\
  let restarted := startListening (Loaded sampleRate) true (dispose a) in
  fst restarted = true /\
  isListening (snd restarted) = true /\
  binRanges (snd restarted)
  = Some (calculateAllBinRanges (Some sampleRate) (Some (fftSize a))).
Proof.
  intros Hreach. destruct (reachable_setup a Hreach) as [Hinit Hlisten].
  cbv zeta. unfold dispose, stopListening.
  destruct (mic a) eqn:Hm; destruct (isListening a) eqn:Hl; cbn [andb];
    try (destruct (Hinit (Hlisten eq_refl)) as (_ & Hm' & _); congruence);
    repeat split; try reflexivity; try exact Hl.
Qed.

(** X9 for an analyzer listening at 44100 Hz, restarted at 48000 Hz, in
    binary64. *)
Lemma dispose_shuts_down_listening :
  let a := listening_at (N:=float) 44100 in
  isListening (dispose a) = false /\
  isInitialized (dispose a) = false /\
  update (dispose a) [1; 2; 3] = Ok (dispose a) /\
  getBandEnergy (dispose a) [1; 2; 3] "BASS" = Ok zero /\
  getEnergies (dispose a) = getEnergies a /\
  getPeaks (dispose a) = getPeaks a /\
  dispose (dispose a) = dispose a /\
  let restarted :=
    startListening (Loaded (num_of_Z 48000)) true (dispose a) in
  fst restarted = true /\
  isListening (snd restarted) = true /\
  binRanges (snd restarted)
  = Some (calculateAllBinRanges (Some (num_of_Z 48000)) (Some (fftSize a))).
Proof.
  apply (dispose_shuts_down (listening_at (N:=float) 44100)).
  apply listening_at_reachable.
Defined.

(** X10: [startListening] reports success only when the microphone
    started and the analyzer, initialized with both its devices, now
    listens; when it reports failure the listening flag is as it was; in
    both cases the energies, the peaks and the history are untouched. *)
Theorem startListening_result {N} `{JSNumber N} (env : InitEnv N)
    (micStarts : bool) (a : AudioAnalyzer N) :
  let r := startListening env micStarts a in
  (fst r = true ->
   micStarts = true /\ isListening (snd r) = true /\
   isInitialized (snd r) = true /\ fft (snd r) = true /\
   mic (snd r) = true) /\
  (fst r = false -> isListening (snd r) = isListening a) /\
  same_signal a (snd r).
Proof.
  cbv zeta. split; [|split; [|apply startListening_same_signal]];
    unfold startListening, init;
    destruct (isInitialized a) eqn:Hi; cbn [negb];
    try destruct env; cbn [negb fst snd];
    destruct (mic a) eqn:Hm; destruct micStarts; destruct (fft a) eqn:Hf;
    cbn; intros Hr; try discriminate Hr; repeat split;
    try reflexivity; try assumption.
Qed.

(** X11: from every reachable state, [startListening] succeeds when the
    sound library loads and the microphone starts.  An analyzer that was
    initialized keeps its bin ranges, whatever the sample rate is now; one
    that was not gets the ranges of the table for the sample rate read at
    that call. *)
Theorem startListening_succeeds {N} `{JSNumber N} (a : AudioAnalyzer N)
    (sampleRate : N) :
  reachable a ->
  let r := startListening (Loaded sampleRate) true a in
  fst r = true /\
  isListening (snd r) = true /\
  (isInitialized a = true -> binRanges (snd r) = binRanges a) /\
  (isInitialized a = false ->
   binRanges (snd r)
   = Some (calculateAllBinRanges (Some sampleRate) (Some (fftSize a)))).
Proof.
  intros Hreach. destruct (reachable_setup a Hreach) as [Hinit _].
  cbv zeta. unfold startListening, init.
  destruct (isInitialized a) eqn:Hi; cbn [negb fst snd].
  - destruct (Hinit eq_refl) as (Hf & Hm & _). rewrite Hf, Hm.
    cbn. repeat split; try reflexivity. discriminate.
  - cbn. repeat split; try reflexivity. discriminate.
Qed.

(** X11 for an analyzer that was stopped, at another sample rate, in
    binary64: the ranges are still those of 44100 Hz. *)
Lemma startListening_succeeds_after_stop :
  let a := stopListening (listening_at (N:=float) 44100) in
  let r := startListening (Loaded (num_of_Z 48000)) true a in
  fst r = true /\
  isListening (snd r) = true /\
  (isInitialized a = true -> binRanges (snd r) = binRanges a) /\
  (isInitialized a = false ->
   binRanges (snd r)
   = Some (calculateAllBinRanges (Some (num_of_Z 48000)) (Some (fftSize a)))).
Proof.
  apply (startListening_succeeds (stopListening (listening_at (N:=float) 44100))).
  destruct (listening_at_reachable (N:=float) 44100) as (f & s & Hrtc).
  exists f, s. eapply rtc_r; [exact Hrtc|]. apply step_stopListening.
Defined.

(** X12: while the smoothed energy of a category is above 0.7 in every
    cycle and above 0.95 times its value in the cycle before (in the first
    cycle, above 0.95 times the stored peak value), the product and the
    comparisons being those the program computes, the peak flag is raised
    in every cycle and the stored peak value is the energy of that cycle:
    a signal that holds its level counts as a new peak each time. *)
Theorem sustained_energy_peaks_every_cycle {N} `{JSNumber N}
    (a : AudioAnalyzer N) (cat : category) (energies : list N) :
  peak_constants a ->
  sustained (value (peaks a cat)) energies = true ->
  peak_flags cat energies a = replicate (length energies) true /\
  peak_values cat energies a = energies.
Proof.
  revert a. induction energies as [|e energies IH];
    intros a [Ht Hd] Hs; [now split|].
  cbn [sustained] in Hs.
  apply andb_true_iff in Hs as [Hs Hrest].
  apply andb_true_iff in Hs as [Hdec Hthr].
  assert (peaks (_detectPeaks (with_smoothed a cat e)) cat
          = {| value := e; isPeak := true |}) as Hpk.
  { rewrite with_smoothed_peak. unfold peak_after.
    now rewrite Ht, Hd, Hdec, Hthr. }
  destruct (IH (_detectPeaks (with_smoothed a cat e))) as [Hf Hvs].
  - split; [exact Ht | exact Hd].
  - now rewrite Hpk.
  - cbn [length replicate peak_flags peak_values].
    rewrite Hf, Hvs, Hpk. now split.
Qed.

(** X12 for a rise and a slow fall from a fresh analyzer, in binary64. *)
Lemma sustained_energy_peaks_every_cycle_example :
  let energies : list float :=
    [num_lit 8 10; num_lit 9 10; num_lit 88 100; num_lit 85 100] in
  peak_flags bass energies new_analyzer = replicate (length energies) true /\
  peak_values bass energies new_analyzer = energies.
Proof.
  apply (sustained_energy_peaks_every_cycle (N:=float) new_analyzer bass
           [num_lit 8 10; num_lit 9 10; num_lit 88 100; num_lit 85 100]).
  - split; reflexivity.
  - vm_compute. reflexivity.
Defined.

(** X13: a run of cycles while listening, from a reachable state whose
    ranges let the loops end, in each of which the smoothed energy of a
    category ends at or below 0.7, returns; in none of its cycles is that
    category's peak flag raised, and its stored peak value is multiplied
    by 0.95 once per cycle. *)
Theorem quiet_cycles_decay_peak {N} `{JSNumber N} (a : AudioAnalyzer N)
    (spectra : list (list Z)) (cat : category) :
  reachable a -> isListening a = true -> ranges_end a ->
  quiet_run cat a spectra = true ->
  exists states,
    update_each a spectra = Ok states /\
    Forall (fun b => isPeak (getPeaks b cat) = false) states /\
    value (getPeaks (final a states) cat)
    = Nat.iter (length spectra) (fun v => (v * num_lit 95 100)%js)
        (value (getPeaks a cat)).
Proof.
  revert a. induction spectra as [|spectrum spectra IH];
    intros a Hreach Hl Hends Hquiet.
  - exists []. split; [reflexivity|]. split; [constructor | reflexivity].
  - destruct (update_returns a spectrum Hends) as [a' Hu].
    cbn [quiet_run] in Hquiet. unfold update_or_keep in Hquiet.
    rewrite Hu in Hquiet.
    apply andb_true_iff in Hquiet as [Hq Hquiet].
    apply negb_true_iff in Hq.
    destruct (reachable_listening a Hreach Hl) as [Hf _].
    pose proof (update_listening a spectrum a' Hf Hl Hu) as Hdone.
    destruct (reachable_invariant a Hreach) as [[Ht Hd] _].
    assert (peaks a' cat
            = {| value := (value (peaks a cat) * num_lit 95 100)%js;
                 isPeak := false |}) as Hpk.
    { rewrite (done_peaks _ _ _ Hdone). unfold peak_after.
      rewrite Ht, Hd, Hq, andb_false_r. reflexivity. }
    destruct (done_setup _ _ _ Hdone) as (_ & _ & _ & _ & _ & Hl' & _).
    destruct (IH a' (reachable_update a spectrum a' Hreach Hu)
                (eq_trans Hl' Hl) (update_ranges_end a spectrum a' Hu Hends)
                Hquiet) as (later & Hrun & Hflags & Hvalue).
    exists (a' :: later). split; [|split].
    + cbn [update_each]. rewrite Hu. cbn [bind]. now rewrite Hrun.
    + apply list.Forall_cons. split; [|exact Hflags].
      unfold getPeaks. now rewrite Hpk.
    + cbn [final length]. rewrite Hvalue. unfold getPeaks. rewrite Hpk.
      cbn [value]. now rewrite Nat.iter_succ_r.
Qed.

(** X13 over three cycles of silence after four cycles at full scale, in
    binary64: the stored peak value of the drums, 0.7599 after the loud
    cycles, is multiplied by 0.95 three times. *)
Lemma quiet_cycles_decay_peak_after_loud_cycles :
  let a := cycles (N:=float) 4 (replicate 64 255) (listening_at 44100) in
  let spectra := replicate 3 (replicate 64 0) in
  exists states,
    update_each a spectra = Ok states /\
    Forall (fun b => isPeak (getPeaks b drums) = false) states /\
    value (getPeaks (final a states) drums)
    = Nat.iter (length spectra) (fun v => (v * num_lit 95 100)%js)
        (value (getPeaks a drums)).
Proof.
  apply (quiet_cycles_decay_peak
           (cycles (N:=float) 4 (replicate 64 255) (listening_at 44100))
           (replicate 3 (replicate 64 0)) drums).
  - apply cycles_reachable, listening_at_reachable.
  - vm_compute. reflexivity.
  - apply cycles_ranges_end.
    eapply ranges_end_decide; [reflexivity|]. vm_compute. reflexivity.
  - vm_compute. reflexivity.
Defined.

(** The peak value that decays in that run is the one the loud cycles
    left: it is above 0.7 before the run and below 0.7 after it. *)
Lemma quiet_cycles_binary64_values :
  let a := cycles (N:=float) 4 (replicate 64 255) (listening_at 44100) in
  let b := cycles 3 (replicate 64 0) a in
  (value (getPeaks a drums) >? num_lit 7 10)%js = true /\
  isPeak (getPeaks a drums) = true /\
  value (getPeaks b drums)
  = (value (getPeaks a drums) * num_lit 95 100 * num_lit 95 100
     * num_lit 95 100)%js /\
  (value (getPeaks b drums) <? num_lit 7 10)%js = true.
Proof. vm_compute. repeat split; reflexivity. Qed.

(** X14: in a reachable state [update] never throws: it returns a state,
    or a loop over a range that starts at minus infinity does not end. *)
Theorem update_never_throws {N} `{JSNumber N} (a : AudioAnalyzer N)
    (spectrum : list Z) :
  reachable a ->
  (exists a', update a spectrum = Ok a') \/
  update a spectrum = Fail Diverges.
Proof.
  intros Hreach. destruct (isListening a) eqn:Hl.
  - apply update_no_throw. now apply (reachable_listening a Hreach).
  - left. exists a. apply update_not_listening. now right.
Qed.

(** X14 for an analyzer listening at 44100 Hz, in binary64. *)
Lemma update_never_throws_listening :
  (exists a', update (N:=float) (listening_at 44100) [1; 2; 3] = Ok a') \/
  update (N:=float) (listening_at 44100) [1; 2; 3] = Fail Diverges.
Proof.
  apply update_never_throws. apply listening_at_reachable.
Defined.

(** X15: a cycle on a spectrum whose bins all hold the same magnitude [c]
    between 0 and 255, long enough that every band starts inside it, gives
    every group a combined energy within 10^-12 of c / 255: the band
    averages all are c / 255 and the weights of each group add up to 1.
    In exact arithmetic, where the combined energy is c / 255 itself, in
    every listening state of a run with a positive transform size and
    sample rate. *)
Theorem flat_spectrum_energy (a : AudioAnalyzer xQ)
    (ranges : gmap string BinRange) (n : nat) (c : Z) :
  sound_reachable a -> isListening a = true ->
  binRanges a = Some ranges ->
  map_Forall (fun _ range => starts_inside n range = true) ranges ->
  0 <= c <= 255 ->
  exists a',
    update a (replicate n c) = Ok a' /\
    forall cat,
      exists q,
        cache_combined (energyCache a') cat = Fin q /\
        (Qabs (q - inject_Z c / 255) <= 1 # 1000000000000)%Q.
Proof.
  intros Hsound Hl Hr Hstarts _.
  destruct (sound_reachable_invariant a Hsound) as [(_ & Hvalid & _) _].
  pose proof (sound_reachable_reachable a Hsound) as Hreach.
  destruct (reachable_listening a Hreach Hl) as [Hf _].
  destruct (flat_cycle a ranges n c Hvalid
              (reachable_ranges_from_table a Hreach) Hf Hl Hr Hstarts)
    as (a' & Hu & _ & Hlev).
  exists a'. split; [exact Hu|].
  intros cat. destruct (Hlev cat) as (q & Hq & Heq).
  exists q. split; [exact Hq|].
  assert (q - inject_Z c / 255 == 0)%Q as -> by (rewrite Heq; ring).
  discriminate.
Qed.

(** X15 for 512 bins at magnitude 100, at 44100 Hz. *)
Lemma flat_spectrum_energy_at_100 :
  exists a',
    update (N:=xQ) (listening_at 44100) (replicate 512 100) = Ok a' /\
    forall cat,
      exists q,
        cache_combined (energyCache a') cat = Fin q /\
        (Qabs (q - inject_Z 100 / 255) <= 1 # 1000000000000)%Q.
Proof.
  eapply (flat_spectrum_energy (listening_at 44100) _ 512 100).
  - apply listening_at_sound. lia.
  - reflexivity.
  - reflexivity.
  - apply (bool_decide_eq_true_1 _). vm_compute. reflexivity.
  - lia.
Defined.

(** The same cycle in binary64: the combined energies differ from the
    quotient 100 / 255 by a rounding error (for the vocals it is
    0.39215686274509809), and are within 10^-12 of it. *)
Lemma flat_spectrum_binary64 :
  let a' := update_or_keep (N:=float) (listening_at 44100)
              (replicate 512 100) in
  let near (x : float) :=
    PrimFloat.leb (PrimFloat.abs (x - num_lit 100 255))
      (num_lit 1 1000000000000) in
  cache_combined (energyCache a') vocals = 0x1.919191919191ap-2%float /\
  num_lit (N:=float) 100 255 = 0x1.9191919191919p-2%float /\
  near (cache_combined (energyCache a') drums) = true /\
  near (cache_combined (energyCache a') vocals) = true /\
  near (cache_combined (energyCache a') bass) = true /\
  near (cache_combined (energyCache a') highs) = true.
Proof. vm_compute. repeat split; reflexivity. Qed.

(** X16: for two bands that meet at a frequency (the first ends where the
    second starts), the bin range of the second starts at the last bin of
    the first or right after it: the ranges leave no bin out between them
    and share at most one.  In exact arithmetic, for a positive sample
    rate and transform size. *)
Theorem adjacent_bands_share_at_most_one_bin (b1 b2 : Band xQ)
    (lo mid hi sampleRate fftSize : Q) :
  min b1 = Fin lo -> max b1 = Fin mid ->
  min b2 = Fin mid -> max b2 = Fin hi ->
  (0 < sampleRate)%Q -> (0 < fftSize)%Q ->
  exists e1 s2,
    end_ (getBinRange b1 (Some (Fin sampleRate)) (Some (Fin fftSize)))
    = Int e1 /\
    start (getBinRange b2 (Some (Fin sampleRate)) (Some (Fin fftSize)))
    = Int s2 /\
    e1 - 1 <= s2 <= e1.
Proof.
  intros Hmin1 Hmax1 Hmin2 Hmax2 Hsr Hfft.
  rewrite (getBinRange_exact b1 lo mid), (getBinRange_exact b2 mid hi)
    by assumption.
  eexists _, _. split; [reflexivity|]. split; [reflexivity|].
  pose proof (ceiling_floor_gap (mid / (sampleRate / fftSize))). lia.
Qed.

(** X16 for the sub bass and bass bands, which meet at 60 Hz, at 44100 Hz
    and transform size 1024. *)
Lemma adjacent_bands_share_at_most_one_bin_bass :
  exists e1 s2,
    end_ (getBinRange (N:=xQ) (band "Sub Bass" 20 60 128 0 255)
            (Some (Fin 44100)) (Some (Fin 1024)))
    = Int e1 /\
    start (getBinRange (N:=xQ) (band "Bass" 60 250 255 0 100)
             (Some (Fin 44100)) (Some (Fin 1024)))
    = Int s2 /\
    e1 - 1 <= s2 <= e1.
Proof.
  apply (adjacent_bands_share_at_most_one_bin _ _ 20 60 250 44100 1024);
    reflexivity.
Defined.

(** X17: in every state of a pool, whatever is acquired, released or
    cleared, the active count is never negative and the number of pooled
    objects never exceeds the larger of the initial size and the maximum
    size: it stays within the maximum size when the pool was constructed
    with an initial size that does not exceed it. *)
Theorem pool_stays_within_bounds {Store Obj : Type}
    (factory : Store -> Obj * Store) (reset : Obj -> Store -> Store)
    (initialSize size : option Z) (s : ObjectPool Obj * Store) :
  pool_reachable factory reset initialSize size s ->
  let stats := getStats (fst s) in
  stats_maxSize stats = default 500 size /\
  0 <= active stats /\
  0 <= available stats
    <= Z.max 0 (Z.max (default 50 initialSize) (default 500 size)) /\
  (0 <= default 50 initialSize <= default 500 size ->
   available stats <= stats_maxSize stats).
Proof.
  intros [h0 Hrtc]. cbv zeta. unfold getStats.
  cbn [stats_maxSize active available].
  assert (maxSize (fst s) = default 500 size /\
          0 <= activeCount (fst s) /\
          Z.of_nat (length (pool (fst s)))
          <= Z.max 0 (Z.max (default 50 initialSize) (default 500 size)))
    as (Hm & Hc & Hl); [|repeat split; lia].
  revert s Hrtc. apply rtc_ind_r.
  - destruct (new_ObjectPool_fields factory initialSize size h0)
      as (Hm & Hc & Hl). cbv zeta in *. repeat split; lia.
  - intros s1 s2 _ Hstep (Hm & Hc & Hl).
    destruct Hstep as [p h|obj p h|objects p h|p h|p h h']; cbn [fst] in *.
    + destruct (acquire_fields factory p h) as (Hm' & Hc' & Hl').
      cbv zeta in *. repeat split; lia.
    + destruct (release_fields reset obj p h) as (Hm' & Hc' & Hl').
      cbv zeta in *. repeat split; lia.
    + destruct (releaseAll_fields reset objects p h) as (Hm' & Hc' & Hl').
      cbv zeta in *. repeat split; [congruence|auto|lia].
    + cbn. repeat split; lia.
    + repeat split; assumption.
Qed.

(** X17 for a pool of two particles and room for three, after one more
    particle than it can hold was released. *)
Lemma pool_stays_within_bounds_particles :
  let s :=
    releaseAll Particle_reset [7; 8]%nat
      (fst (new_ObjectPool new_Particle (Some 2) (Some 3) []))
      (snd (new_ObjectPool new_Particle (Some 2) (Some 3) [])) in
  let stats := getStats (fst s) in
  stats_maxSize stats = 3 /\
  0 <= active stats /\
  0 <= available stats <= Z.max 0 (Z.max 2 3) /\
  (0 <= 2 <= 3 -> available stats <= stats_maxSize stats).
Proof.
  apply (pool_stays_within_bounds new_Particle Particle_reset
           (Some 2) (Some 3)).
  exists []. eapply rtc_r; [apply rtc_refl|].
  apply (pool_releaseAll new_Particle Particle_reset [7; 8]%nat
           (fst (new_ObjectPool new_Particle (Some 2) (Some 3) []))
           (snd (new_ObjectPool new_Particle (Some 2) (Some 3) []))).
Defined.

(** X18: an object released to a pool that has room is the one the next
    [acquire] returns, after its [reset] has run and without a call of the
    factory; the pooled objects are then as before the release, and so is
    the whole pool when an object was counted as active. *)
Theorem release_then_acquire {Store Obj : Type}
    (factory : Store -> Obj * Store) (reset : Obj -> Store -> Store)
    (obj : Obj) (p : ObjectPool Obj) (h : Store) :
  Z.of_nat (length (pool p)) < maxSize p ->
  let released := release reset obj p h in
  acquire factory (fst released) (snd released)
  = (obj,
     ({| maxSize := maxSize p; pool := pool p;
         activeCount := Z.max 0 (activeCount p - 1) + 1 |},
      reset obj h)) /\
  (0 < activeCount p ->
   acquire factory (fst released) (snd released) = (obj, (p, reset obj h))).
Proof.
  intros Hroom. cbv zeta. rewrite (release_room reset obj p h Hroom).
  cbn [fst snd].
  rewrite acquire_last. split; [reflexivity|].
  intros Hactive. destruct p as [m objs c]. cbn [maxSize pool activeCount] in *.
  do 3 f_equal. lia.
Qed.

(** X18 for a particle of a fresh pool of two. *)
Lemma release_then_acquire_particle :
  let p := fst (new_ObjectPool new_Particle (Some 2) (Some 3) []) in
  let h := snd (new_ObjectPool new_Particle (Some 2) (Some 3) []) in
  let released := release Particle_reset 0%nat p h in
  acquire new_Particle (fst released) (snd released)
  = (0%nat,
     ({| maxSize := maxSize p; pool := pool p;
         activeCount := Z.max 0 (activeCount p - 1) + 1 |},
      Particle_reset 0%nat h)) /\
  (0 < activeCount p ->
   acquire new_Particle (fst released) (snd released)
   = (0%nat, (p, Particle_reset 0%nat h))).
Proof.
  apply (release_then_acquire new_Particle Particle_reset 0%nat
           (fst (new_ObjectPool new_Particle (Some 2) (Some 3) []))
           (snd (new_ObjectPool new_Particle (Some 2) (Some 3) []))).
  vm_compute. reflexivity.
Defined.

(** X19: [release] does not look whether the object is pooled already: an
    object released twice to a pool with room for two is handed out by each
    of the next two calls of [acquire], so that two users hold the same
    object. *)
Theorem double_release_is_acquired_twice {Store Obj : Type}
    (factory : Store -> Obj * Store) (reset : Obj -> Store -> Store)
    (obj : Obj) (p : ObjectPool Obj) (h : Store) :
  Z.of_nat (length (pool p)) + 1 < maxSize p ->
  let once := release reset obj p h in
  let twice := release reset obj (fst once) (snd once) in
  let first := acquire factory (fst twice) (snd twice) in
  let second := acquire factory (fst (snd first)) (snd (snd first)) in
  fst first = obj /\ fst second = obj /\
  pool (fst (snd second)) = pool p.
Proof.
  intros Hroom. cbv zeta.
  rewrite (release_room reset obj p h) by lia. cbn [fst snd].
  rewrite release_room
    by (cbn [pool maxSize]; rewrite length_app; cbn [length]; lia).
  cbn [fst snd pool maxSize activeCount].
  rewrite acquire_last. cbn [fst snd].
  rewrite acquire_last. cbn [fst snd pool]. repeat split.
Qed.

(** X19 for an empty pool with room for two particles. *)
Lemma double_release_is_acquired_twice_particle :
  let p := fst (new_ObjectPool new_Particle (Some 0) (Some 2) [false]) in
  let h := snd (new_ObjectPool new_Particle (Some 0) (Some 2) [false]) in
  let once := release Particle_reset 0%nat p h in
  let twice := release Particle_reset 0%nat (fst once) (snd once) in
  let first := acquire new_Particle (fst twice) (snd twice) in
  let second := acquire new_Particle (fst (snd first)) (snd (snd first)) in
  fst first = 0%nat /\ fst second = 0%nat /\
  pool (fst (snd second)) = pool p.
Proof.
  apply (double_release_is_acquired_twice new_Particle Particle_reset 0%nat
           (fst (new_ObjectPool new_Particle (Some 0) (Some 2) [false]))
           (snd (new_ObjectPool new_Particle (Some 0) (Some 2) [false]))).
  vm_compute. reflexivity.
Defined.

(** X20: [releaseAll] pools the objects in the order given for as long as
    there is room, resets each of those and no other, and drops the rest
    without resetting them; the active count goes down by the number of
    objects given, pooled or not, but not below 0. *)
Theorem releaseAll_keeps_what_fits {Store Obj : Type}
    (reset : Obj -> Store -> Store)
    (objects : list Obj) (p : ObjectPool Obj) (h : Store) :
  0 <= activeCount p ->
  let room := Z.to_nat (maxSize p - Z.of_nat (length (pool p))) in
  releaseAll reset objects p h
  = ({| maxSize := maxSize p;
        pool := pool p ++ take room objects;
        activeCount := Z.max 0 (activeCount p - Z.of_nat (length objects)) |},
     reset_each reset (take room objects) h).
Proof.
  cbv zeta. unfold releaseAll, reset_each. revert p h.
  induction objects as [|obj objects IH]; intros p h Hc.
  - cbn [fold_left length]. rewrite take_nil, app_nil_r.
    destruct p as [m objs c]. cbn [maxSize pool activeCount] in *.
    do 2 f_equal. lia.
  - cbn [fold_left fst snd].
    destruct (Z_lt_le_dec (Z.of_nat (length (pool p))) (maxSize p))
      as [Hroom|Hfull].
    + rewrite (release_room reset obj p h Hroom). cbn [fst snd].
      rewrite IH by (cbn [activeCount]; lia).
      cbn [maxSize pool activeCount]. rewrite length_app. cbn [length].
      replace (Z.to_nat (maxSize p - Z.of_nat (length (pool p))))
        with (S (Z.to_nat (maxSize p - Z.of_nat (length (pool p) + 1))))
        by lia.
      cbn [take fold_left]. rewrite <- app_assoc. cbn [app].
      do 2 f_equal. lia.
    + rewrite (release_full reset obj p h Hfull). cbn [fst snd].
      rewrite IH by (cbn [activeCount]; lia).
      cbn [maxSize pool activeCount].
      replace (Z.to_nat (maxSize p - Z.of_nat (length (pool p)))) with O
        by lia.
      cbn [take fold_left length]. do 2 f_equal. lia.
Qed.

(** X20 for three particles released to a pool of two with room for
    three: the first is pooled. *)
Lemma releaseAll_keeps_what_fits_particles :
  let p := fst (new_ObjectPool new_Particle (Some 2) (Some 3) []) in
  let h := snd (new_ObjectPool new_Particle (Some 2) (Some 3) []) in
  let room := Z.to_nat (maxSize p - Z.of_nat (length (pool p))) in
  releaseAll Particle_reset [5; 6; 7]%nat p h
  = ({| maxSize := maxSize p;
        pool := pool p ++ take room [5; 6; 7]%nat;
        activeCount :=
          Z.max 0 (activeCount p - Z.of_nat (length [5; 6; 7]%nat)) |},
     reset_each Particle_reset (take room [5; 6; 7]%nat) h).
Proof.
  apply (releaseAll_keeps_what_fits Particle_reset [5; 6; 7]%nat
           (fst (new_ObjectPool new_Particle (Some 2) (Some 3) []))
           (snd (new_ObjectPool new_Particle (Some 2) (Some 3) []))).
  vm_compute. discriminate.
Defined.

(** X21: whatever colours are asked for, the colour cache never holds more
    than 1001 entries, and it does get there: after [n] different colours
    it holds [n] entries, or 1001 if that is less.  The oldest entry is
    dropped only once the size is above 1000. *)
Theorem colorCache_holds_at_most_1001
    (calls : list (Z * Z * Z * option Z)) (n : nat) :
  (length (MemoryManager.getColors calls []) <= 1001)%nat /\
  length (MemoryManager.getColors (MemoryManager.reds (Z.of_nat n)) [])
  = Nat.min n 1001.
Proof.
  split.
  - apply (getColors_invariant (fun m => (length m <= 1001)%nat)).
    + intros r g b a m. apply getColor_length.
    + cbn. lia.
  - apply reds_fill.
Qed.

(** X22: asking for the same colour again returns the same object and
    leaves the cache as it is. *)
Theorem getColor_again_is_a_hit (r g b : Z) (a : option Z)
    (colorCache : MemoryManager.Cache) :
  let first := MemoryManager.getColor r g b a colorCache in
  MemoryManager.getColor r g b a (snd first) = first.
Proof.
  cbv zeta. unfold MemoryManager.getColor. cbv zeta.
  destruct (MemoryManager.get _ colorCache) as [c|] eqn:Hget; cbn [snd].
  - now rewrite Hget.
  - match goal with
    | |- context [?m ++ [_]] => set (kept := m)
    end.
    assert (MemoryManager.get (MemoryManager.key r g b (default 255 a)) kept
            = None) as Hkept.
    { subst kept. destruct (1000 <? _); [now apply get_tail | exact Hget]. }
    rewrite get_app, Hkept.
    cbn [MemoryManager.get]. rewrite decide_True by reflexivity. reflexivity.
Qed.

(** X23: after any series of calls, [getColor] returns a colour with the
    components it was asked for, alpha 255 where none was given, whether
    the colour was cached or not: two different colours never share a
    key.  For integer components. *)
Theorem getColor_returns_the_colour
    (calls : list (Z * Z * Z * option Z)) (r g b : Z) (a : option Z) :
  fst (MemoryManager.getColor r g b a (MemoryManager.getColors calls []))
  = {| MemoryManager.r := r; MemoryManager.g := g; MemoryManager.b := b;
       MemoryManager.a := default 255 a |}.
Proof.
  assert (MemoryManager.filed (MemoryManager.getColors calls [])) as Hfiled.
  { apply (getColors_invariant MemoryManager.filed).
    - intros r' g' b' a' m. apply getColor_filed.
    - apply Forall_nil. exact I. }
  unfold MemoryManager.getColor.
  destruct (MemoryManager.get _ _) as [c|] eqn:Hget; cbn [fst];
    [|reflexivity].
  apply (get_filed _ _ _ Hfiled) in Hget.
  apply key_inj in Hget as (Hr & Hg & Hb & Ha).
  destruct c as [cr cg cb ca]. cbn in *. congruence.
Qed.
